(** * goapigateway: token-bucket rate limiter and middleware chain

    A shallow embedding of [limit.go], [main.go] and [config.go].

    - Go's [int] is the 64-bit two's-complement integer of the 64-bit
      targets: a [Z] in [min_int .. max_int], every arithmetic result wrapped.
    - [float64] is IEEE 754 binary64 with round-to-nearest-even, computed with
      the executable specification [SpecFloat] at precision 53 and emax 1024;
      the error of its roundings is bounded over the rationals ([value]).
    - [time.Time] is its monotonic clock reading in nanoseconds and
      [time.Duration] a 64-bit count of nanoseconds. *)

From Stdlib Require Import ZArith Lia Ascii String Floats.SpecFloat.
From Stdlib Require Import QArith Qpower Lqa.
From stdpp Require Import base option list relations gmap strings.

Local Open Scope Z_scope.

(** ** Go's 64-bit [int] *)

Module GoInt.

Definition min_int : Z := - 2 ^ 63.
Definition max_int : Z := 2 ^ 63 - 1.

Definition in_range (z : Z) : Prop := min_int <= z <= max_int.

(** Two's-complement wrap-around of an exact result. *)
Definition wrap (z : Z) : Z := (z + 2 ^ 63) mod 2 ^ 64 - 2 ^ 63.

Definition add (x y : Z) : Z := wrap (x + y).
Definition sub (x y : Z) : Z := wrap (x - y).
Definition mul (x y : Z) : Z := wrap (x * y).


End GoInt.

(** ** [float64] *)

Module Float64.

Definition float64 : Type := spec_float.

Definition prec : Z := 53.
Definition emax : Z := 1024.

Definition add : float64 -> float64 -> float64 := SFadd prec emax.
Definition mul : float64 -> float64 -> float64 := SFmul prec emax.
Definition div : float64 -> float64 -> float64 := SFdiv prec emax.

(** The conversion [float64(n)] of an integer, rounded to nearest even. *)
Definition of_int (n : Z) : float64 := binary_normalize prec emax n 0 false.

(** The integer part of a finite float, rounded toward zero. *)
Definition truncate (f : float64) : option Z :=
  match f with
  | S754_zero _ => Some 0
  | S754_finite s m e =>
      let v := match e with
               | Zneg p => Z.shiftr (Zpos m) (Zpos p)
               | _ => Z.shiftl (Zpos m) e
               end in
      Some (if s then - v else v)
  | S754_infinity _ | S754_nan => None
  end.

(** The conversion [int(f)]: the fraction is discarded. For a NaN, an
    infinity or a value outside the range of [int] Go leaves the result to
    the implementation; the amd64 instruction yields the smallest [int]. *)
Definition to_int (f : float64) : Z :=
  match truncate f with
  | Some v => if (GoInt.min_int <=? v) && (v <=? GoInt.max_int) then v
              else GoInt.min_int
  | None => GoInt.min_int
  end.

Definition is_nan (f : float64) : bool :=
  match f with S754_nan => true | _ => false end.

Definition is_zero (f : float64) : bool :=
  match f with S754_zero _ => true | _ => false end.

End Float64.

(** ** Package [time] *)

Module Time.

Definition Duration : Type := Z.
Definition Time : Type := Z.

Definition Nanosecond : Duration := 1.
Definition Millisecond : Duration := 1000000.
Definition Second : Duration := 1000000000.

Definition minDuration : Duration := GoInt.min_int.
Definition maxDuration : Duration := GoInt.max_int.

(** [t.Sub(u)] on two monotonic readings: the difference, or the largest
    (smallest) duration when it does not fit. *)
Definition Sub (t u : Time) : Duration :=
  if maxDuration <? t - u then maxDuration
  else if t - u <? minDuration then minDuration
  else t - u.

(** [d.Seconds()]: [float64(d / Second) + float64(d % Second) / 1e9], with
    Go's truncated division. *)
Definition Seconds (d : Duration) : Float64.float64 :=
  let sec := Z.quot d Second in
  let nsec := Z.rem d Second in
  Float64.add (Float64.of_int sec)
    (Float64.div (Float64.of_int nsec) (Float64.of_int 1000000000)).

End Time.

(** ** [limit.go]: the token bucket *)

Record TokenBucket : Type := mkTokenBucket {
  Cap : Z;                  (* capacity of the bucket *)
  Rate : Z;                 (* tokens produced per interval *)
  interval : Time.Duration; (* length of the interval *)
  Tokens : Z;               (* tokens now in the bucket *)
  LastCheck : Time.Time     (* when tokens were last added *)
}.

Definition set_Tokens (n : Z) (tb : TokenBucket) : TokenBucket :=
  mkTokenBucket (Cap tb) (Rate tb) (interval tb) n (LastCheck tb).

Definition set_LastCheck (t : Time.Time) (tb : TokenBucket) : TokenBucket :=
  mkTokenBucket (Cap tb) (Rate tb) (interval tb) (Tokens tb) t.

(** [NewTokenBucket(cap, rate)], called when the clock reads [now]. *)
Definition NewTokenBucket (cap rate : Z) (now : Time.Time) : TokenBucket :=
  {| Cap := cap;
     Rate := rate;
     interval := 1 * Time.Second;
     Tokens := cap;
     LastCheck := now |}.

(** The local [tokens] of [Allow]:
    [int(duration.Seconds() * float64(tb.Rate) / tb.interval.Seconds())]. *)
Definition newTokens (tb : TokenBucket) (now : Time.Time) : Z :=
  let duration := Time.Sub now (LastCheck tb) in
  Float64.to_int
    (Float64.div
       (Float64.mul (Time.Seconds duration) (Float64.of_int (Rate tb)))
       (Time.Seconds (interval tb))).

(** The refill step of [Allow]: [if tokens > 0 { ... }]. *)
Definition refill (tb : TokenBucket) (now : Time.Time) : TokenBucket :=
  let tokens := newTokens tb now in
  if 0 <? tokens
  then set_LastCheck now
         (set_Tokens (Z.min (GoInt.add (Tokens tb) tokens) (Cap tb)) tb)
  else tb.

(** The last step of [Allow]: take one token when there is one. *)
Definition takeToken (tb : TokenBucket) : bool * TokenBucket :=
  if 0 <? Tokens tb
  then (true, set_Tokens (GoInt.sub (Tokens tb) 1) tb)
  else (false, tb).

(** [tb.Allow()] when the clock reads [now]: the answer and the bucket as the
    call leaves it. The lock is held from the first to the last statement. *)
Definition Allow (tb : TokenBucket) (now : Time.Time) : bool * TokenBucket :=
  takeToken (refill tb now).

(** Consecutive calls, one per clock reading of [times]. *)
Fixpoint Allow_seq (tb : TokenBucket) (times : list Time.Time)
  : list bool * TokenBucket :=
  match times with
  | [] => ([], tb)
  | now :: rest =>
      let '(ok, tb1) := Allow tb now in
      let '(oks, tb2) := Allow_seq tb1 rest in
      (ok :: oks, tb2)
  end.

(** The buckets a run of calls goes through, the first one included. *)
Fixpoint Allow_states (tb : TokenBucket) (times : list Time.Time)
  : list TokenBucket :=
  match times with
  | [] => [tb]
  | now :: rest => tb :: Allow_states (snd (Allow tb now)) rest
  end.

(** ** [config.go] *)

Module config.

Record RouteConfig : Type := mkRouteConfig {
  Path : string;
  Target : string;
  QPS : Z
}.

Record GlobalRateLimitConfig : Type := mkGlobalRateLimitConfig {
  Cap : Z;
  Rate : Z
}.

Record Config : Type := mkConfig {
  Port : string;
  ApiKeys : list string;
  NoAuthRoutes : list string;
  Routes : list RouteConfig;
  GlobalRateLimit : GlobalRateLimitConfig;
  Timeout : Time.Duration
}.

(** The defaults [loadConfig] fills in, applied to the [Config] that
    [yaml.Unmarshal] produced from the file (a key the file does not give is
    the zero value of its type). *)
Definition loadConfig (parsed : Config) : Config :=
  {| Port := if String.eqb (Port parsed) "" then ":8082" else Port parsed;
     ApiKeys := ApiKeys parsed;
     NoAuthRoutes := NoAuthRoutes parsed;
     Routes := Routes parsed;
     GlobalRateLimit :=
       {| Cap := if Cap (GlobalRateLimit parsed) =? 0 then 3
                 else Cap (GlobalRateLimit parsed);
          Rate := if Rate (GlobalRateLimit parsed) =? 0 then 1
                  else Rate (GlobalRateLimit parsed) |};
     Timeout := if Timeout parsed =? 0 then 1 * Time.Second
                else Timeout parsed |}.

Definition set_GlobalRateLimit (g : GlobalRateLimitConfig) (c : Config)
  : Config :=
  mkConfig (Port c) (ApiKeys c) (NoAuthRoutes c) (Routes c) g (Timeout c).

Definition set_Timeout (d : Time.Duration) (c : Config) : Config :=
  mkConfig (Port c) (ApiKeys c) (NoAuthRoutes c) (Routes c)
    (GlobalRateLimit c) d.

End config.

(** [limit.go] names the element type of its argument [Route]; the fields it
    reads, [Path] and [QPS], are those of [RouteConfig]. *)
Abbreviation Route := config.RouteConfig.

(** ** [net/http] as the handlers use it *)

Module http.

Definition StatusOK : Z := 200.
Definition StatusUnauthorized : Z := 401.
Definition StatusNotFound : Z := 404.
Definition StatusTooManyRequests : Z := 429.
Definition StatusInternalServerError : Z := 500.
Definition StatusBadGateway : Z := 502.
Definition StatusGatewayTimeout : Z := 504.
Definition MethodOptions : string := "OPTIONS".

Abbreviation Header := (gmap string (list string)).

Definition between (lo hi c : N) : bool := ((lo <=? c) && (c <=? hi))%N.

(** The bytes of an HTTP token: letters, digits and a few marks. *)
Definition validHeaderFieldByte (c : Ascii.ascii) : bool :=
  let n := Ascii.N_of_ascii c in
  between 97 122 n || between 65 90 n || between 48 57 n
  || bool_decide (c ∈ String.list_ascii_of_string "!#$%&'*+-.^_`|~").

(** First letter and every letter after a dash in upper case, the others in
    lower case. *)
Fixpoint canonicalize (upper : bool) (s : string) : string :=
  match s with
  | EmptyString => EmptyString
  | String c rest =>
      let n := Ascii.N_of_ascii c in
      let c' :=
        if upper && between 97 122 n then Ascii.ascii_of_N (n - 32)
        else if negb upper && between 65 90 n then Ascii.ascii_of_N (n + 32)
        else c in
      String c' (canonicalize (Ascii.eqb c' "-"%char) rest)
  end.

(** [textproto.CanonicalMIMEHeaderKey]: a key with a byte that is no token
    byte is left as it is. *)
Definition CanonicalMIMEHeaderKey (s : string) : string :=
  if forallb validHeaderFieldByte (String.list_ascii_of_string s)
  then canonicalize true s else s.

(** [h.Get(key)]: the first value under the canonical key, or the empty
    string. *)
Definition Header_Get (h : Header) (key : string) : string :=
  match h !! CanonicalMIMEHeaderKey key with
  | Some (v :: _) => v
  | _ => ""
  end.

(** [h.Set(key, value)]. *)
Definition Header_Set (key value : string) (h : Header) : Header :=
  <[CanonicalMIMEHeaderKey key := [value]]> h.

(** [h.Del(key)]. *)
Definition Header_Del (key : string) (h : Header) : Header :=
  delete (CanonicalMIMEHeaderKey key) h.

(** The request: what the handlers read of [*http.Request], and the deadline
    of its context when it has one. *)
Record Request : Type := mkRequest {
  Method : string;
  URL_Path : string;
  ReqHeader : Header;
  Body : string;
  ctxDeadline : option Time.Time
}.

Definition WithDeadline (d : Time.Time) (r : Request) : Request :=
  mkRequest (Method r) (URL_Path r) (ReqHeader r) (Body r) (Some d).

(** The server's side of one response: the header map the handlers write to,
    the status line and header as sent (at most once), the body written. *)
Record Response : Type := mkResponse {
  header : Header;
  sent : option (Z * Header);
  body : list string
}.

Definition newResponse : Response :=
  {| header := ∅; sent := None; body := [] |}.

(** The status the client receives, when one was written. *)
Definition status (resp : Response) : option Z := fst <$> sent resp.

Definition conn_mapHeader (f : Header -> Header) (resp : Response)
  : Response :=
  mkResponse (f (header resp)) (sent resp) (body resp).

(** [WriteHeader] of the server's writer: only the first call counts. *)
Definition conn_WriteHeader (code : Z) (resp : Response) : Response :=
  match sent resp with
  | Some _ => resp
  | None => mkResponse (header resp) (Some (code, header resp)) (body resp)
  end.

(** [Write] of the server's writer: a first write sends status 200. *)
Definition conn_Write (data : string) (resp : Response) : Response :=
  let resp1 := conn_WriteHeader StatusOK resp in
  mkResponse (header resp1) (sent resp1) (body resp1 ++ [data]).

End http.

(** ** The state the handlers share *)

(** What a backend answers: status, header and body, and whether copying the
    body to the client breaks off. *)
Record BackendResponse : Type := mkBackendResponse {
  RespStatus : Z;
  RespHeader : http.Header;
  RespBody : string;
  copyFails : bool
}.

(** One round trip of [client.Do]: how long it takes and what comes back
    ([None] for a transport failure). *)
Record RoundTrip : Type := mkRoundTrip {
  latency : Time.Duration;
  result : option BackendResponse
}.

(** The network behind the gateway. *)
Record Network : Type := mkNetwork {
  newRequestFails : string -> string -> bool;
  Do : string -> string -> http.Header -> string -> RoundTrip
}.

(** One [log.Printf] line, by its arguments. *)
Inductive LogEntry : Type :=
| LogAuthMissing (method path : string)
| LogAuthOK (method path apiKey : string)
| LogAuthInvalid (method path apiKey : string)
| LogRateLimited (method path : string)
| LogTimeout (method path : string) (ms : Float64.float64)
| LogAccess (method path : string) (statusCode : Z) (cost : Float64.float64).

Record World : Type := mkWorld {
  now : Time.Time;                          (* what [time.Now()] reads *)
  routeLimiters : gmap string TokenBucket;  (* the map of [RateLimitMiddleware] *)
  globalLimiter : TokenBucket;              (* the package variable *)
  response : http.Response;                 (* the server's writer *)
  wrappers : list Z;    (* [StatusCode] of every [ResponseWriterWrapper] made *)
  logs : list LogEntry;
  network : Network
}.

Definition set_now (t : Time.Time) (σ : World) : World :=
  mkWorld t (routeLimiters σ) (globalLimiter σ) (response σ) (wrappers σ)
    (logs σ) (network σ).

Definition set_routeLimiters (m : gmap string TokenBucket) (σ : World)
  : World :=
  mkWorld (now σ) m (globalLimiter σ) (response σ) (wrappers σ) (logs σ)
    (network σ).

Definition set_globalLimiter (tb : TokenBucket) (σ : World) : World :=
  mkWorld (now σ) (routeLimiters σ) tb (response σ) (wrappers σ) (logs σ)
    (network σ).

Definition set_response (resp : http.Response) (σ : World) : World :=
  mkWorld (now σ) (routeLimiters σ) (globalLimiter σ) resp (wrappers σ)
    (logs σ) (network σ).

Definition set_wrappers (ws : list Z) (σ : World) : World :=
  mkWorld (now σ) (routeLimiters σ) (globalLimiter σ) (response σ) ws
    (logs σ) (network σ).

(** [log.Printf]. *)
Definition logPrintf (e : LogEntry) (σ : World) : World :=
  mkWorld (now σ) (routeLimiters σ) (globalLimiter σ) (response σ)
    (wrappers σ) (logs σ ++ [e]) (network σ).

(** ** [main.go]: [ResponseWriterWrapper] *)

(** An [http.ResponseWriter] value: the server's writer, or a pointer to a
    [ResponseWriterWrapper]: the index [l] of its [StatusCode] in [wrappers]
    and the writer it embeds. *)
Inductive ResponseWriter : Type :=
| connWriter
| wrapperWriter (l : nat) (embedded : ResponseWriter).

(** [&ResponseWriterWrapper{ResponseWriter: w}]: [StatusCode] starts at 0. *)
Definition newResponseWriterWrapper (w : ResponseWriter) (σ : World)
  : ResponseWriter * World :=
  (wrapperWriter (length (wrappers σ)) w, set_wrappers (wrappers σ ++ [0]) σ).

(** [w.Header()], promoted from the embedded writer, then a change [f] of
    the map it returns. *)
Fixpoint Header_update (w : ResponseWriter) (f : http.Header -> http.Header)
  (σ : World) : World :=
  match w with
  | connWriter => set_response (http.conn_mapHeader f (response σ)) σ
  | wrapperWriter _ embedded => Header_update embedded f σ
  end.

(** [w.WriteHeader(statusCode)]; the wrapper records the code and passes it
    on. *)
Fixpoint WriteHeader (w : ResponseWriter) (statusCode : Z) (σ : World)
  : World :=
  match w with
  | connWriter => set_response (http.conn_WriteHeader statusCode (response σ)) σ
  | wrapperWriter l embedded =>
      WriteHeader embedded statusCode
        (set_wrappers (<[l := statusCode]> (wrappers σ)) σ)
  end.

(** [w.Write(data)], promoted from the embedded writer. *)
Fixpoint Write (w : ResponseWriter) (data : string) (σ : World) : World :=
  match w with
  | connWriter => set_response (http.conn_Write data (response σ)) σ
  | wrapperWriter _ embedded => Write embedded data σ
  end.

(** [http.Error(w, error, code)]: a plain-text reply. *)
Definition http_Error (w : ResponseWriter) (error : string) (code : Z)
  (σ : World) : World :=
  let σ1 := Header_update w (http.Header_Del "Content-Length") σ in
  let σ2 := Header_update w
              (http.Header_Set "Content-Type" "text/plain; charset=utf-8") σ1 in
  let σ3 := Header_update w
              (http.Header_Set "X-Content-Type-Options" "nosniff") σ2 in
  let σ4 := WriteHeader w code σ3 in
  Write w (error +:+ String (ascii_of_nat 10) EmptyString) σ4.

Definition Handler : Type := ResponseWriter -> http.Request -> World -> World.
Abbreviation Middleware := (Handler -> Handler).

(** ** [limit.go]: the rate-limit stage *)

(** The loop of [RateLimitMiddleware] that fills [routeLimiters]; it leaves
    at its [break]. [now] is the clock when the stage is built. *)
Fixpoint buildRouteLimiters (rotes : list Route) (now : Time.Time)
  (routeLimiters : gmap string TokenBucket) : gmap string TokenBucket :=
  match rotes with
  | [] => routeLimiters
  | route :: rest =>
      if 0 <? config.QPS route
      then <[config.Path route :=
               NewTokenBucket (GoInt.mul (config.QPS route) 2)
                 (config.QPS route) now]> routeLimiters
      else buildRouteLimiters rest now routeLimiters
  end.

(** The search [for path, tb := range routeLimiters] of the handler. *)
Definition findLimiter (routeLimiters : gmap string TokenBucket)
  (path : string) : option TokenBucket :=
  snd <$> find (fun entry => String.eqb path (fst entry))
            (map_to_list routeLimiters).

(** The bucket a request is checked against. *)
Inductive Limiter : Type :=
| dedicatedLimiter (path : string)
| sharedLimiter.

Definition selectLimiter (σ : World) (r : http.Request)
  : Limiter * TokenBucket :=
  match findLimiter (routeLimiters σ) (http.URL_Path r) with
  | Some tb => (dedicatedLimiter (http.URL_Path r), tb)
  | None => (sharedLimiter, globalLimiter σ)
  end.

(** [limiter.Allow()] writes through the pointer: the bucket changes where
    it lives. *)
Definition storeLimiter (l : Limiter) (tb : TokenBucket) (σ : World) : World :=
  match l with
  | dedicatedLimiter path => set_routeLimiters (<[path := tb]> (routeLimiters σ)) σ
  | sharedLimiter => set_globalLimiter tb σ
  end.

Definition limiterAllow (σ : World) (r : http.Request) : bool * World :=
  let '(l, tb) := selectLimiter σ r in
  let '(ok, tb1) := Allow tb (now σ) in
  (ok, storeLimiter l tb1 σ).

(** The handler [RateLimitMiddleware] returns, around [next]. *)
Definition RateLimitMiddleware : Middleware :=
  fun next w r σ =>
    let '(ok, σ1) := limiterAllow σ r in
    if ok then next w r σ1
    else
      let σ2 := Header_update w (http.Header_Set "Retry-After" "1") σ1 in
      let σ3 := http_Error w "429 Too Many Requests"
                  http.StatusTooManyRequests σ2 in
      logPrintf (LogRateLimited (http.Method r) (http.URL_Path r)) σ3.

(** ** [main.go]: the other stages *)

Definition AuthMiddleware (cfg : config.Config) : Middleware :=
  let apiKeysSet : gset string := list_to_set (config.ApiKeys cfg) in
  let noAuthSet : gset string := list_to_set (config.NoAuthRoutes cfg) in
  fun next w r σ =>
    if bool_decide (http.URL_Path r ∈ noAuthSet) then next w r σ
    else
      let apiKey := http.Header_Get (http.ReqHeader r) "X-API-Key" in
      if String.eqb apiKey "" then
        let σ1 := Header_update w
                    (http.Header_Set "WWW-Authenticate" "X-API-Key") σ in
        let σ2 := http_Error w "401 Unauthorized: Missing X-API-Key"
                    http.StatusUnauthorized σ1 in
        logPrintf (LogAuthMissing (http.Method r) (http.URL_Path r)) σ2
      else if bool_decide (apiKey ∈ apiKeysSet) then
        next w r
          (logPrintf (LogAuthOK (http.Method r) (http.URL_Path r) apiKey) σ)
      else
        let σ1 := http_Error w "401 Unauthorized: Invalid X-API-Key"
                    http.StatusUnauthorized σ in
        logPrintf (LogAuthInvalid (http.Method r) (http.URL_Path r) apiKey) σ1.

(** [time.Since(start).Seconds() * 1000]. *)
Definition costOf (start : Time.Time) (σ : World) : Float64.float64 :=
  Float64.mul (Time.Seconds (Time.Sub (now σ) start)) (Float64.of_int 1000).

Definition LogMiddleware : Middleware :=
  fun next w r σ =>
    let start := now σ in
    let method := http.Method r in
    let path := http.URL_Path r in
    let '(wrappedWriter, σ1) := newResponseWriterWrapper w σ in
    let σ2 := next w r σ1 in
    let cost := costOf start σ2 in
    let statusCode :=
      match wrappedWriter with
      | wrapperWriter l _ => default 0 (wrappers σ2 !! l)
      | connWriter => 0
      end in
    logPrintf (LogAccess method path statusCode cost) σ2.

(** The stage runs [next] in a goroutine and waits for it or for the deadline
    of the context, whichever comes first. [next w r σ] is the state in which
    the goroutine finishes; when the deadline is reached first (the context is
    done at the deadline itself) the handler answers 504 at the deadline and
    returns, and what the goroutine does after that is not in the state
    returned. *)
Definition TimeoutMiddleware (timeout : Time.Duration) : Middleware :=
  fun next w r σ =>
    let deadline := now σ + timeout in
    let r1 := http.WithDeadline deadline r in
    let σ1 := next w r1 σ in
    if now σ1 <? deadline then σ1
    else
      let σ2 := http_Error w "Request timeout" http.StatusGatewayTimeout
                  (set_now deadline σ) in
      logPrintf
        (LogTimeout (http.Method r1) (http.URL_Path r1)
           (Float64.mul (Time.Seconds timeout) (Float64.of_int 1000))) σ2.

Definition CORSAMiddleware : Middleware :=
  fun next w r σ =>
    let σ1 := Header_update w
                (http.Header_Set "Access-Control-Allow-Origin" "*") σ in
    let σ2 := Header_update w
                (http.Header_Set "Access-Control-Allow-Methods"
                   "GET, POST, PUT, DELETE, OPTIONS") σ1 in
    let σ3 := Header_update w
                (http.Header_Set "Access-Control-Allow-Headers"
                   "Content-Type, Authorization") σ2 in
    if String.eqb (http.Method r) http.MethodOptions
    then WriteHeader w http.StatusOK σ3
    else next w r σ3.

(** The loop of [ChainMiddleware]: [n] is [i + 1] for the index [i] the next
    iteration reads; an index outside the slice panics ([None]). *)
Fixpoint ChainMiddleware_loop (middlewares : list Middleware) (n : nat)
  (handler : Handler) : option Handler :=
  match n with
  | O => Some handler
  | S i =>
      match middlewares !! i with
      | Some m => ChainMiddleware_loop middlewares i (m handler)
      | None => None
      end
  end.

Definition ChainMiddleware (handler : Handler) (middlewares : list Middleware)
  : option Handler :=
  ChainMiddleware_loop middlewares (length middlewares) handler.

(** The composition the specification describes: [m1 (m2 (... (mn h)))]. *)
Definition compose_right (handler : Handler) (middlewares : list Middleware)
  : Handler :=
  foldr (fun m h => m h) handler middlewares.

(** The target of the request path: the last route with that path wins. *)
Definition lookupTarget (routes : list config.RouteConfig) (path : string)
  : string :=
  fold_left
    (fun target route =>
       if String.eqb (config.Path route) path then config.Target route
       else target)
    routes "".

(** [proxyHandler(routes)]. The outbound call carries the context of the
    request: when the deadline comes before the answer, [client.Do] fails at
    the deadline. *)
Definition proxyHandler (routes : list config.RouteConfig) : Handler :=
  fun w r σ =>
    let target := lookupTarget routes (http.URL_Path r) in
    if String.eqb target "" then
      http_Error w "404 Route Not Found" http.StatusNotFound σ
    else if newRequestFails (network σ) (http.Method r) target then
      http_Error w "Failed to create proxy request"
        http.StatusInternalServerError σ
    else
      let trip := Do (network σ) (http.Method r) target (http.ReqHeader r)
                    (http.Body r) in
      let finish := now σ + latency trip in
      let cancelled :=
        match http.ctxDeadline r with
        | Some d => if d <=? finish then Some d else None
        | None => None
        end in
      match cancelled, result trip with
      | Some d, _ =>
          http_Error w "Failed to forward request" http.StatusBadGateway
            (set_now d σ)
      | None, None =>
          http_Error w "Failed to forward request" http.StatusBadGateway
            (set_now finish σ)
      | None, Some resp =>
          let σ1 := set_now finish σ in
          let σ2 := Header_update w (fun h => RespHeader resp ∪ h) σ1 in
          let σ3 := WriteHeader w (RespStatus resp) σ2 in
          let σ4 := Write w (RespBody resp) σ3 in
          if copyFails resp then
            http_Error w "Failed to copy response body" http.StatusBadGateway σ4
          else σ4
      end.

(** The stages [main] lists, in its order; the timeout is the constant
    [3 * time.Second]. [main] hands [RateLimitMiddleware] its [config]; the
    routes the stage reads are [config.Routes], from which [main_world] fills
    [routeLimiters]. *)
Definition main_middlewares (cfg : config.Config) : list Middleware :=
  [ AuthMiddleware cfg;
    RateLimitMiddleware;
    CORSAMiddleware;
    TimeoutMiddleware (3 * Time.Second);
    LogMiddleware ].

(** The handler [main] registers for every path. *)
Definition main_handler (cfg : config.Config) : option Handler :=
  ChainMiddleware (proxyHandler (config.Routes cfg)) (main_middlewares cfg).

(** The state when the server starts to listen: [globalLimiter] was made when
    the package was initialised (clock [t0]) and [routeLimiters] when [main]
    built the stage (clock [t1]). *)
Definition main_world (cfg : config.Config) (t0 t1 : Time.Time)
  (net : Network) : World :=
  {| now := t1;
     routeLimiters := buildRouteLimiters (config.Routes cfg) t1 ∅;
     globalLimiter := NewTokenBucket 1 1 t0;
     response := http.newResponse;
     wrappers := [];
     logs := [];
     network := net |}.

(** One request served: a fresh response, the clock at [t]. *)
Definition serve (h : Handler) (r : http.Request) (t : Time.Time) (σ : World)
  : World :=
  h connWriter r (set_now t (set_response http.newResponse σ)).

(** ** Goroutines calling [Allow] on one bucket *)

Module Concurrent.

(** Where a goroutine stands in [Allow], with the locals it holds: it is
    about to execute the statement named. *)
Inductive pc : Type :=
| atLock                      (* tb.mu.Lock() *)
| atNow                       (* now := time.Now() *)
| atDuration (now : Time.Time)    (* duration := now.Sub(tb.LastCheck) *)
| atTokens (now : Time.Time) (duration : Time.Duration)
                              (* tokens := int(...) *)
| atRefillTest (now : Time.Time) (tokens : Z)     (* if tokens > 0 *)
| atRefillTokens (now : Time.Time) (tokens : Z)
                              (* tb.Tokens = min(tb.Tokens+tokens, tb.Cap) *)
| atRefillLastCheck (now : Time.Time)             (* tb.LastCheck = now *)
| atTakeTest                  (* if tb.Tokens > 0 *)
| atDecrement                 (* tb.Tokens-- *)
| atUnlock (ret : bool)       (* return ret, then the deferred tb.mu.Unlock() *)
| returned (ret : bool).

(** The bucket, its mutex and the goroutines. *)
Record state : Type := mkState {
  bucket : TokenBucket;
  mu : bool;
  goroutines : list pc
}.

(** One statement of one goroutine. [clock] tells which readings
    [time.Now()] may return. [Lock] waits until the mutex is free. *)
Inductive step (clock : Time.Time -> Prop) : state -> state -> Prop :=
| step_Lock i b gs :
    gs !! i = Some atLock ->
    step clock (mkState b false gs) (mkState b true (<[i := atNow]> gs))
| step_Now i b m gs now :
    gs !! i = Some atNow ->
    clock now ->
    step clock (mkState b m gs) (mkState b m (<[i := atDuration now]> gs))
| step_Duration i b m gs now :
    gs !! i = Some (atDuration now) ->
    step clock (mkState b m gs)
      (mkState b m (<[i := atTokens now (Time.Sub now (LastCheck b))]> gs))
| step_Tokens i b m gs now duration :
    gs !! i = Some (atTokens now duration) ->
    step clock (mkState b m gs)
      (mkState b m
         (<[i := atRefillTest now
                   (Float64.to_int
                      (Float64.div
                         (Float64.mul (Time.Seconds duration)
                            (Float64.of_int (Rate b)))
                         (Time.Seconds (interval b))))]> gs))
| step_RefillTest_yes i b m gs now tokens :
    gs !! i = Some (atRefillTest now tokens) ->
    0 < tokens ->
    step clock (mkState b m gs)
      (mkState b m (<[i := atRefillTokens now tokens]> gs))
| step_RefillTest_no i b m gs now tokens :
    gs !! i = Some (atRefillTest now tokens) ->
    tokens <= 0 ->
    step clock (mkState b m gs) (mkState b m (<[i := atTakeTest]> gs))
| step_RefillTokens i b m gs now tokens :
    gs !! i = Some (atRefillTokens now tokens) ->
    step clock (mkState b m gs)
      (mkState (set_Tokens (Z.min (GoInt.add (Tokens b) tokens) (Cap b)) b) m
         (<[i := atRefillLastCheck now]> gs))
| step_RefillLastCheck i b m gs now :
    gs !! i = Some (atRefillLastCheck now) ->
    step clock (mkState b m gs)
      (mkState (set_LastCheck now b) m (<[i := atTakeTest]> gs))
| step_TakeTest_yes i b m gs :
    gs !! i = Some atTakeTest ->
    0 < Tokens b ->
    step clock (mkState b m gs) (mkState b m (<[i := atDecrement]> gs))
| step_TakeTest_no i b m gs :
    gs !! i = Some atTakeTest ->
    Tokens b <= 0 ->
    step clock (mkState b m gs) (mkState b m (<[i := atUnlock false]> gs))
| step_Decrement i b m gs :
    gs !! i = Some atDecrement ->
    step clock (mkState b m gs)
      (mkState (set_Tokens (GoInt.sub (Tokens b) 1) b) m
         (<[i := atUnlock true]> gs))
| step_Unlock i b m gs ret :
    gs !! i = Some (atUnlock ret) ->
    step clock (mkState b m gs) (mkState b false (<[i := returned ret]> gs)).

(** [n] goroutines about to call [Allow], the mutex free. *)
Definition init (tb : TokenBucket) (n : nat) : state :=
  mkState tb false (replicate n atLock).

(** Between [Lock] and [Unlock]: the statements that read or write
    [Tokens] and [LastCheck] are all here. *)
Definition in_critical (p : pc) : bool :=
  match p with
  | atLock | returned _ => false
  | _ => true
  end.

Definition is_returned (p : pc) : bool :=
  match p with returned _ => true | _ => false end.

Definition all_returned (s : state) : bool :=
  forallb is_returned (goroutines s).

(** The calls that have answered [true] (the token is taken), and those that
    have answered [false]. *)
Definition granted (p : pc) : bool :=
  match p with atUnlock true | returned true => true | _ => false end.

Definition denied (p : pc) : bool :=
  match p with atUnlock false | returned false => true | _ => false end.

Definition count (f : pc -> bool) (gs : list pc) : Z :=
  Z.of_nat (length (filter (fun p => f p = true) gs)).

(** The calls that returned [true]. *)
Definition admitted (s : state) : Z :=
  count (fun p => match p with returned true => true | _ => false end)
    (goroutines s).

(** The statements left to a goroutine. *)
Definition remaining (p : pc) : nat :=
  match p with
  | atLock => 10
  | atNow => 9
  | atDuration _ => 8
  | atTokens _ _ => 7
  | atRefillTest _ _ => 6
  | atRefillTokens _ _ => 5
  | atRefillLastCheck _ => 4
  | atTakeTest => 3
  | atDecrement => 2
  | atUnlock _ => 1
  | returned _ => 0
  end.

Definition b2z (b : bool) : Z := if b then 1 else 0.

(** Every goroutine but [i] is outside the critical section. *)
Definition others_idle (gs : list pc) (i : nat) : Prop :=
  forall j q, j <> i -> gs !! j = Some q -> in_critical q = false.

(** The mutex is held exactly when one goroutine is in the critical section,
    and then no other is. *)
Definition lock_inv (s : state) : Prop :=
  if mu s
  then exists i p, goroutines s !! i = Some p
                   /\ in_critical p = true
                   /\ others_idle (goroutines s) i
  else forall j q, goroutines s !! j = Some q -> in_critical q = false.

(** What the locals of a goroutine are worth while no refill is due. *)
Definition local_ok (clock : Time.Time -> Prop) (b : TokenBucket) (p : pc)
  : Prop :=
  match p with
  | atDuration now => clock now
  | atTokens now duration =>
      clock now /\ duration = Time.Sub now (LastCheck b)
  | atRefillTest _ tokens => tokens <= 0
  | atRefillTokens _ _ | atRefillLastCheck _ => False
  | atDecrement => 0 < Tokens b
  | _ => True
  end.

(** The invariant of a run that starts from the bucket [tb0] with no refill
    due: nothing but [Tokens] is written, the mutex is exclusive, every token
    that left the bucket was granted to one call, and a call is denied only
    when the bucket is empty. *)
Record inv (clock : Time.Time -> Prop) (tb0 : TokenBucket) (s : state)
  : Prop := mkInv {
  inv_Cap : Cap (bucket s) = Cap tb0;
  inv_Rate : Rate (bucket s) = Rate tb0;
  inv_interval : interval (bucket s) = interval tb0;
  inv_LastCheck : LastCheck (bucket s) = LastCheck tb0;
  inv_lock : lock_inv s;
  inv_local : forall i p, goroutines s !! i = Some p ->
                          local_ok clock (bucket s) p;
  inv_granted : Tokens (bucket s) + count granted (goroutines s) = Tokens tb0;
  inv_nonneg : 0 <= Tokens (bucket s);
  inv_denied : 0 < count denied (goroutines s) -> Tokens (bucket s) = 0
}.

(** The statements left to all goroutines together. *)
Definition work (s : state) : nat :=
  foldr (fun p n => (remaining p + n)%nat) 0%nat (goroutines s).


End Concurrent.

(** A run of the server: one request after the other, each at its clock
    reading. *)
Fixpoint serve_all (h : Handler) (reqs : list (http.Request * Time.Time))
  (σ : World) : World :=
  match reqs with
  | [] => σ
  | (r, t) :: rest => serve_all h rest (serve h r t σ)
  end.

(** The shared bucket as [limit.go] declares it: capacity 1, rate 1. *)
Definition shared_bucket_is_1_1 (σ : World) : Prop :=
  Cap (globalLimiter σ) = 1
  /\ Rate (globalLimiter σ) = 1
  /\ interval (globalLimiter σ) = 1 * Time.Second.

(** A handler under which a property of the state is stable. *)
Definition keeps (P : World -> Prop) (h : Handler) : Prop :=
  forall w r σ, P σ -> P (h w r σ).


(** ** What the specification says of the bucket *)

(** The invariant of the data model: [0 <= tokens <= capacity]. *)
Definition tokens_in_bounds (tb : TokenBucket) : Prop :=
  0 <= Tokens tb <= Cap tb.

(** No call of the run adds past the largest [int]: the sum
    [tb.Tokens + tokens] of every refill is the exact one. *)
Fixpoint refill_fits (tb : TokenBucket) (times : list Time.Time) : bool :=
  match times with
  | [] => true
  | now :: rest =>
      (if 0 <? newTokens tb now
       then Tokens tb + newTokens tb now <=? GoInt.max_int
       else true)
      && refill_fits (snd (Allow tb now)) rest
  end.

(** Clock readings that never go back. *)
Fixpoint non_decreasing (t : Time.Time) (times : list Time.Time) : bool :=
  match times with
  | [] => true
  | t1 :: rest => (t <=? t1) && non_decreasing t1 rest
  end.

(** The refill amount in the specification's words: the whole tokens in
    [elapsed seconds * rate], the elapsed time being [now - lastRefill]
    nanoseconds. *)
Definition spec_refill_amount (tb : TokenBucket) (now : Time.Time) : Z :=
  ((now - LastCheck tb) * Rate tb) / 1000000000.

(** ** Concrete inputs *)

Module Example.

(** A configuration file with three routes and no timeout or global limit
    of its own. *)
Definition parsed : config.Config :=
  {| config.Port := "";
     config.ApiKeys := ["k1"];
     config.NoAuthRoutes := ["/api/open"];
     config.Routes :=
       [ config.mkRouteConfig "/api/open" "http://open.local" 0;
         config.mkRouteConfig "/api/a" "http://a.local" 5;
         config.mkRouteConfig "/api/b" "http://b.local" 7 ];
     config.GlobalRateLimit := config.mkGlobalRateLimitConfig 0 0;
     config.Timeout := 0 |}.

Definition cfg : config.Config := config.loadConfig parsed.

(** Backends that answer 200 after [lat] nanoseconds. *)
Definition backend (lat : Time.Duration) : Network :=
  {| newRequestFails := fun _ _ => false;
     Do := fun _ _ _ _ =>
             {| latency := lat;
                result := Some {| RespStatus := 200;
                                  RespHeader := ∅;
                                  RespBody := "hello";
                                  copyFails := false |} |} |}.

Definition request (path : string) : http.Request :=
  {| http.Method := "GET";
     http.URL_Path := path;
     http.ReqHeader := {["X-Api-Key" := ["k1"]]};
     http.Body := "";
     http.ctxDeadline := None |}.

(** The gateway started at clock 0 serves one request five seconds later. *)
Definition served (path : string) (lat : Time.Duration) : option World :=
  (fun h => serve h (request path) 5000000000 (main_world cfg 0 0 (backend lat)))
    <$> main_handler cfg.

End Example.


(** The state with another network behind the gateway. *)
Definition set_network (net : Network) (σ : World) : World :=
  mkWorld (now σ) (routeLimiters σ) (globalLimiter σ) (response σ)
    (wrappers σ) (logs σ) net.

(** Every wrapper a writer goes through was made before the [n]-th one. *)
Fixpoint writer_below (n : nat) (w : ResponseWriter) : bool :=
  match w with
  | connWriter => true
  | wrapperWriter l embedded => (l <? n)%nat && writer_below n embedded
  end.

(** The header map after the three [Header().Set] calls of the CORS stage. *)
Definition corsHeader (h : http.Header) : http.Header :=
  http.Header_Set "Access-Control-Allow-Headers" "Content-Type, Authorization"
    (http.Header_Set "Access-Control-Allow-Methods"
       "GET, POST, PUT, DELETE, OPTIONS"
       (http.Header_Set "Access-Control-Allow-Origin" "*" h)).

(** The state after those three calls on the writer [w]. *)
Definition corsState (w : ResponseWriter) (σ : World) : World :=
  Header_update w
    (http.Header_Set "Access-Control-Allow-Headers"
       "Content-Type, Authorization")
    (Header_update w
       (http.Header_Set "Access-Control-Allow-Methods"
          "GET, POST, PUT, DELETE, OPTIONS")
       (Header_update w
          (http.Header_Set "Access-Control-Allow-Origin" "*") σ)).

(** The requests the authentication stage lets through: an exempt path, or a
    key that is not empty and is listed. *)
Definition authorized (cfg : config.Config) (r : http.Request) : bool :=
  let apiKey := http.Header_Get (http.ReqHeader r) "X-API-Key" in
  bool_decide (http.URL_Path r ∈ config.NoAuthRoutes cfg)
  || (negb (String.eqb apiKey "")
      && bool_decide (apiKey ∈ config.ApiKeys cfg)).

(** The state in which the stage hands such a request on: a key that was
    checked is logged. *)
Definition afterAuth (cfg : config.Config) (r : http.Request) (σ : World)
  : World :=
  if bool_decide (http.URL_Path r ∈ config.NoAuthRoutes cfg) then σ
  else logPrintf
         (LogAuthOK (http.Method r) (http.URL_Path r)
            (http.Header_Get (http.ReqHeader r) "X-API-Key")) σ.

(** The state in which the server hands a request to its handler. *)
Definition arrival (t : Time.Time) (σ : World) : World :=
  set_now t (set_response http.newResponse σ).

(** Calls of [Allow] one after the other, each by a goroutine and at a clock
    reading: the answer each goroutine gets, and the bucket left. *)
Fixpoint serial (tb : TokenBucket) (calls : list (nat * Time.Time))
  : list (nat * bool) * TokenBucket :=
  match calls with
  | [] => ([], tb)
  | (i, now) :: rest =>
      let '(ok, tb1) := Allow tb now in
      let '(answers, tb2) := serial tb1 rest in
      ((i, ok) :: answers, tb2)
  end.

(** How far the holder of the mutex has come in its call: [b0] is the bucket
    it found, [b] the bucket now, [p] its next statement, [now] the clock
    reading it took (once it has taken one). *)
Definition in_call (clock : Time.Time -> Prop) (b0 b : TokenBucket)
  (p : Concurrent.pc) (now : Time.Time) : Prop :=
  match p with
  | Concurrent.atLock | Concurrent.returned _ => False
  | Concurrent.atNow => b = b0
  | Concurrent.atDuration t => clock now /\ t = now /\ b = b0
  | Concurrent.atTokens t d =>
      clock now /\ t = now /\ b = b0 /\ d = Time.Sub now (LastCheck b0)
  | Concurrent.atRefillTest t tokens =>
      clock now /\ t = now /\ b = b0 /\ tokens = newTokens b0 now
  | Concurrent.atRefillTokens t tokens =>
      clock now /\ t = now /\ b = b0 /\ tokens = newTokens b0 now
      /\ 0 < tokens
  | Concurrent.atRefillLastCheck t =>
      clock now /\ t = now /\ 0 < newTokens b0 now
      /\ b = set_Tokens
               (Z.min (GoInt.add (Tokens b0) (newTokens b0 now)) (Cap b0)) b0
  | Concurrent.atTakeTest => clock now /\ b = refill b0 now
  | Concurrent.atDecrement => clock now /\ b = refill b0 now /\ 0 < Tokens b
  | Concurrent.atUnlock ret =>
      clock now /\ b = snd (Allow b0 now) /\ ret = fst (Allow b0 now)
  end.

(** The state of a run is that of a serial run: the calls that have returned
    are some [calls], made one after the other, and the holder of the mutex,
    if any, is within the next one. *)
Definition serial_inv (clock : Time.Time -> Prop) (tb0 : TokenBucket)
  (s : Concurrent.state) (calls : list (nat * Time.Time)) : Prop :=
  NoDup (fst <$> calls)
  /\ Forall (fun c => clock (snd c)) calls
  /\ (forall j a,
        (j, a) ∈ fst (serial tb0 calls)
        <-> Concurrent.goroutines s !! j = Some (Concurrent.returned a))
  /\ (forall j,
        Concurrent.goroutines s !! j = Some Concurrent.atLock ->
        (j ∉ (fst <$> calls)))
  /\ if Concurrent.mu s
     then exists i p now,
            Concurrent.goroutines s !! i = Some p
            /\ Concurrent.in_critical p = true
            /\ (i ∉ (fst <$> calls))
            /\ in_call clock (snd (serial tb0 calls)) (Concurrent.bucket s)
                 p now
            /\ Concurrent.others_idle (Concurrent.goroutines s) i
     else Concurrent.bucket s = snd (serial tb0 calls)
          /\ forall j q, Concurrent.goroutines s !! j = Some q ->
                         Concurrent.in_critical q = false.

(** The goroutines once the calls of [answers] have returned. *)
Definition answered (gs : list Concurrent.pc) (answers : list (nat * bool))
  : list Concurrent.pc :=
  foldl (fun gs a => <[fst a := Concurrent.returned (snd a)]> gs) gs answers.

(** The search of the handler over the entries of the map in the order
    [entries]: Go leaves the order of a [range] over a map open. *)
Definition searchLimiters (entries : list (string * TokenBucket))
  (path : string) : option TokenBucket :=
  snd <$> find (fun entry => String.eqb path (fst entry)) entries.

(** All the buckets of the rate-limit stage. *)
Definition limiters (σ : World) : gmap string TokenBucket * TokenBucket :=
  (routeLimiters σ, globalLimiter σ).

(** Two buckets with the same capacity, rate and interval. *)
Definition same_shape (tb tb' : TokenBucket) : Prop :=
  Cap tb' = Cap tb /\ Rate tb' = Rate tb /\ interval tb' = interval tb.

(** The buckets of [σ'] are those of [σ], each of the same shape. *)
Definition same_buckets (σ σ' : World) : Prop :=
  same_shape (globalLimiter σ) (globalLimiter σ')
  /\ forall path,
       match routeLimiters σ !! path, routeLimiters σ' !! path with
       | Some tb, Some tb' => same_shape tb tb'
       | None, None => True
       | _, _ => False
       end.

(** What the refills of a run of calls computed, all together. *)
Fixpoint refill_total (tb : TokenBucket) (times : list Time.Time) : Z :=
  match times with
  | [] => 0
  | now :: rest =>
      Z.max 0 (newTokens tb now) + refill_total (snd (Allow tb now)) rest
  end.

(** The calls of a run that were allowed. *)
Definition allowed (answers : list bool) : Z :=
  Z.of_nat (length (filter (fun ok => ok = true) answers)).

(** ** The value of a [float64] *)

(** The rational number a finite [float64] stands for. *)
Definition value (f : Float64.float64) : Q :=
  match f with
  | S754_finite s m e =>
      ((if s then -1 else 1) * inject_Z (Zpos m) * 2 ^ e)%Q
  | _ => 0%Q
  end.

(** A positive normal [float64]: 53 significant bits, exponent in range. *)
Definition normal (f : Float64.float64) : Prop :=
  match f with
  | S754_finite false m e =>
      2 ^ 52 <= Zpos m < 2 ^ 53 /\ -1074 <= e <= 971
  | _ => False
  end.

(** The exponent of a finite [float64]. *)
Definition exponent (f : Float64.float64) : Z :=
  match f with
  | S754_finite _ _ e => e
  | _ => 0
  end.

(** One unit in the last of 53 places, [2^-52]. *)
Definition ulp : Q := 1 # 4503599627370496.

(** * Properties *)

(** ** Machine integers and floats *)

Lemma wrap_in_range z : GoInt.in_range (GoInt.wrap z).
Proof.
  unfold GoInt.in_range, GoInt.wrap, GoInt.min_int, GoInt.max_int.
  pose proof (Z.mod_pos_bound (z + 2 ^ 63) (2 ^ 64) ltac:(lia)). lia.
Qed.

Lemma wrap_small z : GoInt.in_range z -> GoInt.wrap z = z.
Proof.
  unfold GoInt.in_range, GoInt.wrap, GoInt.min_int, GoInt.max_int. intros H.
  rewrite Z.mod_small by lia. lia.
Qed.

Lemma Sub_same t : Time.Sub t t = 0.
Proof.
  unfold Time.Sub. rewrite Z.sub_diag.
  reflexivity.
Qed.

Lemma Seconds_0 : Time.Seconds 0 = S754_zero false.
Proof. reflexivity. Qed.

Lemma Seconds_Second :
  Time.Seconds (1 * Time.Second) = S754_finite false 4503599627370496 (-52).
Proof. vm_compute. reflexivity. Qed.

(** A zero times any float, divided by one, converts to no positive [int]. *)
Lemma to_int_zero_mul (s : bool) (x : Float64.float64) :
  Float64.to_int
    (Float64.div (Float64.mul (S754_zero s) x)
       (S754_finite false 4503599627370496 (-52))) <= 0.
Proof.
  destruct x as [sx | sx | | sx mx ex]; destruct s; try destruct sx;
    vm_compute; congruence.
Qed.

(** ** The token bucket *)

(** With no time elapsed since [LastCheck] nothing is added. *)
Lemma newTokens_no_elapsed tb :
  interval tb = 1 * Time.Second ->
  newTokens tb (LastCheck tb) <= 0.
Proof.
  intros Hi. unfold newTokens.
  rewrite Sub_same, Seconds_0, Hi, Seconds_Second.
  apply to_int_zero_mul.
Qed.

Lemma refill_no_elapsed tb :
  interval tb = 1 * Time.Second -> refill tb (LastCheck tb) = tb.
Proof.
  intros Hi. unfold refill.
  pose proof (newTokens_no_elapsed tb Hi) as H.
  destruct (Z.ltb_spec 0 (newTokens tb (LastCheck tb))); [lia | reflexivity].
Qed.

Lemma takeToken_positive tb :
  0 < Tokens tb <= GoInt.max_int ->
  takeToken tb = (true, set_Tokens (Tokens tb - 1) tb).
Proof.
  intros H. unfold takeToken.
  destruct (Z.ltb_spec 0 (Tokens tb)); [| lia].
  unfold GoInt.sub. rewrite wrap_small; [reflexivity |].
  unfold GoInt.in_range, GoInt.min_int, GoInt.max_int in *. lia.
Qed.

Lemma takeToken_empty tb : Tokens tb <= 0 -> takeToken tb = (false, tb).
Proof.
  intros H. unfold takeToken.
  destruct (Z.ltb_spec 0 (Tokens tb)); [lia | reflexivity].
Qed.

(** [k] tokens and no time passing: [k] calls succeed, the next one fails. *)
Lemma Allow_seq_no_elapsed (k : nat) : forall tb,
  interval tb = 1 * Time.Second ->
  Tokens tb = Z.of_nat k ->
  Z.of_nat k <= GoInt.max_int ->
  Allow_seq tb (replicate (k + 1) (LastCheck tb))
  = (replicate k true ++ [false], set_Tokens 0 tb).
Proof.
  induction k as [| k IH]; intros tb Hi Ht Hmax.
  - simpl. unfold Allow. rewrite refill_no_elapsed by assumption.
    rewrite takeToken_empty by lia.
    destruct tb; simpl in *; subst; reflexivity.
  - change (replicate (S k + 1) (LastCheck tb))
      with (LastCheck tb :: replicate (k + 1) (LastCheck tb)).
    cbn [Allow_seq]. unfold Allow. rewrite refill_no_elapsed by assumption.
    rewrite takeToken_positive by lia.
    specialize (IH (set_Tokens (Tokens tb - 1) tb)).
    cbn [LastCheck set_Tokens interval Tokens] in IH.
    rewrite IH by lia.
    reflexivity.
Qed.

(** C1. A bucket made with capacity [C > 0] and rate [R > 0] (both values of
    Go's [int]), called [C + 1] times with no time elapsed since it was made:
    the first [C] calls of [Allow] return [true], call [C + 1] returns
    [false]. *)
Theorem C1_burst_of_capacity (C R : Z) (t0 : Time.Time) :
  0 < C <= GoInt.max_int ->
  0 < R <= GoInt.max_int ->
  fst (Allow_seq (NewTokenBucket C R t0) (replicate (Z.to_nat C + 1) t0))
  = replicate (Z.to_nat C) true ++ [false].
Proof.
  intros HC HR.
  pose proof (Allow_seq_no_elapsed (Z.to_nat C) (NewTokenBucket C R t0)) as H.
  cbn [LastCheck NewTokenBucket interval Tokens] in H.
  rewrite H; [reflexivity | reflexivity | lia | lia].
Qed.

Lemma C1_burst_of_capacity_witness :
  fst (Allow_seq (NewTokenBucket 3 1 7) (replicate (Z.to_nat 3 + 1) 7))
  = replicate (Z.to_nat 3) true ++ [false].
Proof.
  apply (C1_burst_of_capacity 3 1 7); unfold GoInt.max_int; lia.
Defined.

Lemma refill_Cap tb now : Cap (refill tb now) = Cap tb.
Proof. unfold refill. destruct (0 <? newTokens tb now); reflexivity. Qed.

Lemma takeToken_Cap tb : Cap (snd (takeToken tb)) = Cap tb.
Proof. unfold takeToken. destruct (0 <? Tokens tb); reflexivity. Qed.

Lemma Allow_Cap tb now : Cap (snd (Allow tb now)) = Cap tb.
Proof. unfold Allow. rewrite takeToken_Cap. apply refill_Cap. Qed.

Lemma Allow_Rate tb now : Rate (snd (Allow tb now)) = Rate tb.
Proof.
  unfold Allow, takeToken, refill.
  destruct (0 <? newTokens tb now); cbn;
    match goal with |- context [0 <? ?x] => destruct (0 <? x) end; reflexivity.
Qed.

Lemma Allow_interval tb now : interval (snd (Allow tb now)) = interval tb.
Proof.
  unfold Allow, takeToken, refill.
  destruct (0 <? newTokens tb now); cbn;
    match goal with |- context [0 <? ?x] => destruct (0 <? x) end; reflexivity.
Qed.

(** The refill never leaves more than the capacity. *)
Lemma refill_upper tb now :
  Tokens tb <= Cap tb -> Tokens (refill tb now) <= Cap tb.
Proof.
  intros H. unfold refill.
  destruct (0 <? newTokens tb now); cbn; [apply Z.le_min_r | exact H].
Qed.

(** It leaves no debt either when its sum is the exact one. *)
Lemma refill_lower tb now :
  0 <= Tokens tb -> 0 <= Cap tb ->
  (0 < newTokens tb now -> Tokens tb + newTokens tb now <= GoInt.max_int) ->
  0 <= Tokens (refill tb now).
Proof.
  intros Ht Hc Hfit. unfold refill.
  destruct (Z.ltb_spec 0 (newTokens tb now)) as [Hpos | Hneg]; cbn; [| exact Ht].
  unfold GoInt.add. rewrite wrap_small.
  - apply Z.min_glb; lia.
  - specialize (Hfit Hpos).
    unfold GoInt.in_range, GoInt.min_int, GoInt.max_int in *. lia.
Qed.

Lemma takeToken_upper tb c :
  c <= GoInt.max_int -> Tokens tb <= c -> Tokens (snd (takeToken tb)) <= c.
Proof.
  intros Hc H. unfold takeToken.
  destruct (Z.ltb_spec 0 (Tokens tb)) as [Hpos | Hneg]; cbn; [| exact H].
  unfold GoInt.sub. rewrite wrap_small; [lia |].
  unfold GoInt.in_range, GoInt.min_int, GoInt.max_int in *. lia.
Qed.

Lemma takeToken_lower tb :
  Tokens tb <= GoInt.max_int -> 0 <= Tokens tb ->
  0 <= Tokens (snd (takeToken tb)).
Proof.
  intros Hc H. unfold takeToken.
  destruct (Z.ltb_spec 0 (Tokens tb)) as [Hpos | Hneg]; cbn; [| exact H].
  unfold GoInt.sub. rewrite wrap_small; [lia |].
  unfold GoInt.in_range, GoInt.min_int, GoInt.max_int in *. lia.
Qed.

Lemma Allow_upper tb now :
  Cap tb <= GoInt.max_int -> Tokens tb <= Cap tb ->
  Tokens (snd (Allow tb now)) <= Cap (snd (Allow tb now)).
Proof.
  intros Hc H. rewrite Allow_Cap. unfold Allow.
  apply takeToken_upper; [exact Hc | apply refill_upper; exact H].
Qed.

Lemma Allow_in_bounds tb now :
  Cap tb <= GoInt.max_int -> tokens_in_bounds tb ->
  (0 < newTokens tb now -> Tokens tb + newTokens tb now <= GoInt.max_int) ->
  tokens_in_bounds (snd (Allow tb now)).
Proof.
  intros Hc [Hlo Hhi] Hfit. split; [| apply Allow_upper; assumption].
  unfold Allow. apply takeToken_lower.
  - pose proof (refill_upper tb now Hhi). lia.
  - apply refill_lower; [exact Hlo | lia | exact Hfit].
Qed.

Lemma Allow_states_upper (times : list Time.Time) : forall tb c,
  c <= GoInt.max_int -> Cap tb = c -> Tokens tb <= c ->
  Forall (fun s => Cap s = c /\ Tokens s <= c) (Allow_states tb times).
Proof.
  induction times as [| now rest IH]; intros tb c Hc Hcap H; cbn [Allow_states].
  - constructor; [split; assumption | constructor].
  - constructor; [split; assumption |].
    apply IH; [exact Hc | rewrite Allow_Cap; exact Hcap |].
    rewrite <- Hcap, <- (Allow_Cap tb now).
    apply Allow_upper; lia.
Qed.

Lemma Allow_states_in_bounds (times : list Time.Time) : forall tb,
  Cap tb <= GoInt.max_int -> tokens_in_bounds tb ->
  refill_fits tb times = true ->
  Forall tokens_in_bounds (Allow_states tb times).
Proof.
  induction times as [| now rest IH]; intros tb Hc Hb Hfit; cbn [Allow_states].
  - constructor; [exact Hb | constructor].
  - constructor; [exact Hb |].
    cbn [refill_fits] in Hfit. apply andb_prop in Hfit as [Hnow Hrest].
    apply IH; [rewrite Allow_Cap; exact Hc | | exact Hrest].
    apply Allow_in_bounds; [exact Hc | exact Hb |].
    intros Hpos. apply Z.ltb_lt in Hpos. rewrite Hpos in Hnow.
    apply Z.leb_le. exact Hnow.
Qed.

(** C2, as the code has it. For a bucket made with capacity [0 < C] and any
    run of [Allow] calls, at any clock readings: the tokens never exceed the
    capacity, before and after every call; and they are never negative as
    long as no refill of the run adds past the largest [int]. *)
Theorem C2_tokens_within_capacity (C R : Z) (t0 : Time.Time)
  (times : list Time.Time) :
  0 < C <= GoInt.max_int ->
  Forall (fun s => Cap s = C /\ Tokens s <= C)
    (Allow_states (NewTokenBucket C R t0) times)
  /\ (refill_fits (NewTokenBucket C R t0) times = true ->
      Forall tokens_in_bounds (Allow_states (NewTokenBucket C R t0) times)).
Proof.
  intros [Hpos Hmax]. split.
  - apply Allow_states_upper; cbn; [exact Hmax | reflexivity | lia].
  - intros Hfit. apply Allow_states_in_bounds; [exact Hmax | | exact Hfit].
    unfold tokens_in_bounds. cbn. lia.
Qed.

Lemma C2_tokens_within_capacity_witness :
  refill_fits (NewTokenBucket 3 1 0) [0; 0; 0; 0; 2500000000; 9000000000] = true
  /\ Forall tokens_in_bounds
       (Allow_states (NewTokenBucket 3 1 0)
          [0; 0; 0; 0; 2500000000; 9000000000]).
Proof.
  split; [vm_compute; reflexivity |].
  apply (C2_tokens_within_capacity 3 1 0 [0; 0; 0; 0; 2500000000; 9000000000]).
  - unfold GoInt.max_int; lia.
  - vm_compute; reflexivity.
Defined.

(** C2 as stated fails where the refill wraps around: a bucket of the
    largest capacity, full, called one second after it was made, is left with
    a negative number of tokens. *)
Lemma C2_counterexample :
  0 < Cap (NewTokenBucket 9223372036854775807 1 0)
  /\ tokens_in_bounds (NewTokenBucket 9223372036854775807 1 0)
  /\ non_decreasing 0 [1000000000] = true
  /\ newTokens (NewTokenBucket 9223372036854775807 1 0) 1000000000 = 1
  /\ Tokens (snd (Allow (NewTokenBucket 9223372036854775807 1 0) 1000000000))
     = -9223372036854775808
  /\ Tokens (snd (Allow (NewTokenBucket 9223372036854775807 1 0) 1000000000))
     < 0.
Proof.
  unfold tokens_in_bounds. cbn [Cap Tokens NewTokenBucket].
  repeat split; try lia; vm_compute; reflexivity.
Qed.

Lemma takeToken_LastCheck tb : LastCheck (snd (takeToken tb)) = LastCheck tb.
Proof. unfold takeToken. destruct (0 <? Tokens tb); reflexivity. Qed.

Lemma takeToken_Tokens tb :
  Tokens (snd (takeToken tb))
  = if 0 <? Tokens tb then GoInt.sub (Tokens tb) 1 else Tokens tb.
Proof. unfold takeToken. destruct (0 <? Tokens tb); reflexivity. Qed.

Lemma takeToken_answer tb : fst (takeToken tb) = (0 <? Tokens tb).
Proof. unfold takeToken. destruct (0 <? Tokens tb); reflexivity. Qed.

(** ** The rate-limit stage *)

(** The loop stops at the first route with a positive QPS: the map has that
    route's bucket and no other. *)
Lemma buildRouteLimiters_first (rotes : list Route) (now : Time.Time) :
  buildRouteLimiters rotes now ∅
  = match find (fun route => 0 <? config.QPS route) rotes with
    | Some route =>
        {[ config.Path route :=
             NewTokenBucket (GoInt.mul (config.QPS route) 2)
               (config.QPS route) now ]}
    | None => ∅
    end.
Proof.
  induction rotes as [| route rest IH]; cbn [buildRouteLimiters find].
  - reflexivity.
  - destruct (0 <? config.QPS route); [reflexivity | exact IH].
Qed.

(** C4, on the code. Two routes declare a positive QPS; the first one gets
    its bucket, of capacity [2 * QPS] and rate [QPS], the second one gets
    none: the loop has left at its [break]. *)
Theorem C4_second_route_has_no_bucket :
  let routeLimiters := buildRouteLimiters (config.Routes Example.cfg) 0 ∅ in
  config.QPS <$> config.Routes Example.cfg = [0; 5; 7]
  /\ routeLimiters !! "/api/a" = Some (NewTokenBucket 10 5 0)
  /\ routeLimiters !! "/api/b" = None
  /\ routeLimiters !! "/api/open" = None.
Proof.
  cbv zeta. rewrite buildRouteLimiters_first.
  split; [reflexivity |]. cbn [find config.Routes Example.cfg].
  repeat split; vm_compute; reflexivity.
Qed.

(** ** Composition of the stages *)

Lemma ChainMiddleware_loop_take (middlewares : list Middleware) (n : nat) :
  forall handler,
  (n <= length middlewares)%nat ->
  ChainMiddleware_loop middlewares n handler
  = Some (compose_right handler (take n middlewares)).
Proof.
  induction n as [| i IH]; intros handler Hn; cbn [ChainMiddleware_loop].
  - reflexivity.
  - destruct (middlewares !! i) as [m |] eqn:Hm.
    + rewrite IH by lia.
      assert (take (S i) middlewares = take i middlewares ++ [m]) as ->
        by (apply take_S_r; exact Hm).
      unfold compose_right.
      rewrite foldr_app. reflexivity.
    + apply lookup_ge_None_1 in Hm. lia.
Qed.

(** A property every stage keeps around a handler that keeps it is kept by
    the whole chain. *)
Lemma ChainMiddleware_keeps (handler : Handler) (middlewares : list Middleware) :
  exists h, ChainMiddleware handler middlewares = Some h
    /\ forall P : World -> Prop,
         keeps P handler ->
         Forall (fun m : Middleware => forall next, keeps P next -> keeps P (m next))
           middlewares ->
         keeps P h.
Proof.
  exists (compose_right handler middlewares). split.
  - unfold ChainMiddleware. rewrite ChainMiddleware_loop_take by lia.
    rewrite firstn_all. reflexivity.
  - intros P Hh Hms. induction Hms as [| m ms Hm _ IH]; [exact Hh |].
    cbn. apply Hm. exact IH.
Qed.

(** C6. [ChainMiddleware(h, m1, ..., mn)] is [m1 (m2 (... (mn h)))]: the
    loop never leaves the slice, the stage listed first is the outermost one,
    and a request given to the chain is given to that stage first, around the
    chain of the others. *)
Theorem C6_chain_is_right_fold (handler : Handler)
  (middlewares : list Middleware) :
  ChainMiddleware handler middlewares
  = Some (foldr (fun m h => m h) handler middlewares)
  /\ forall (m1 : Middleware) (w : ResponseWriter) (r : http.Request)
       (σ : World),
       (fun h => h w r σ) <$> ChainMiddleware handler (m1 :: middlewares)
       = (fun rest => m1 rest w r σ) <$> ChainMiddleware handler middlewares.
Proof.
  assert (Hfold : forall ms, ChainMiddleware handler ms
                             = Some (compose_right handler ms)).
  { intros ms. unfold ChainMiddleware.
    rewrite ChainMiddleware_loop_take by lia.
    rewrite firstn_all. reflexivity. }
  split; [apply Hfold |].
  intros m1 w r σ. rewrite !Hfold. reflexivity.
Qed.

(** ** Writers *)

(** Whatever writer a handler holds, its calls reach the server's response
    and leave the rest of the state alone, the wrappers apart. *)
Lemma Header_update_fields w f σ :
  response (Header_update w f σ) = http.conn_mapHeader f (response σ)
  /\ now (Header_update w f σ) = now σ
  /\ routeLimiters (Header_update w f σ) = routeLimiters σ
  /\ globalLimiter (Header_update w f σ) = globalLimiter σ
  /\ wrappers (Header_update w f σ) = wrappers σ
  /\ logs (Header_update w f σ) = logs σ
  /\ network (Header_update w f σ) = network σ.
Proof.
  induction w as [| l embedded IH]; cbn [Header_update];
    [repeat split | exact IH].
Qed.

Lemma WriteHeader_fields w code : forall σ,
  response (WriteHeader w code σ) = http.conn_WriteHeader code (response σ)
  /\ now (WriteHeader w code σ) = now σ
  /\ routeLimiters (WriteHeader w code σ) = routeLimiters σ
  /\ globalLimiter (WriteHeader w code σ) = globalLimiter σ
  /\ logs (WriteHeader w code σ) = logs σ
  /\ network (WriteHeader w code σ) = network σ.
Proof.
  induction w as [| l embedded IH]; intros σ; cbn [WriteHeader].
  - repeat split.
  - destruct (IH (set_wrappers (<[l:=code]> (wrappers σ)) σ))
      as (-> & -> & -> & -> & -> & ->).
    repeat split.
Qed.

Lemma Write_fields w data σ :
  response (Write w data σ) = http.conn_Write data (response σ)
  /\ now (Write w data σ) = now σ
  /\ routeLimiters (Write w data σ) = routeLimiters σ
  /\ globalLimiter (Write w data σ) = globalLimiter σ
  /\ wrappers (Write w data σ) = wrappers σ
  /\ logs (Write w data σ) = logs σ
  /\ network (Write w data σ) = network σ.
Proof.
  induction w as [| l embedded IH]; cbn [Write]; [repeat split | exact IH].
Qed.

Lemma http_Error_fields w msg code σ :
  now (http_Error w msg code σ) = now σ
  /\ routeLimiters (http_Error w msg code σ) = routeLimiters σ
  /\ globalLimiter (http_Error w msg code σ) = globalLimiter σ
  /\ logs (http_Error w msg code σ) = logs σ
  /\ network (http_Error w msg code σ) = network σ.
Proof.
  unfold http_Error.
  repeat match goal with
  | |- context [Write ?w ?d ?s] =>
      destruct (Write_fields w d s) as (_ & -> & -> & -> & _ & -> & ->)
  | |- context [WriteHeader ?w ?c ?s] =>
      destruct (WriteHeader_fields w c s) as (_ & -> & -> & -> & -> & ->)
  | |- context [Header_update ?w ?f ?s] =>
      destruct (Header_update_fields w f s) as (_ & -> & -> & -> & _ & -> & ->)
  end.
  repeat split.
Qed.

(** On a response with nothing sent yet, [http.Error] sends its code, with
    the header as it stands then. *)
Lemma http_Error_sent w msg code σ :
  http.sent (response σ) = None ->
  http.sent (response (http_Error w msg code σ))
  = Some (code,
          http.Header_Set "X-Content-Type-Options" "nosniff"
            (http.Header_Set "Content-Type" "text/plain; charset=utf-8"
               (http.Header_Del "Content-Length" (http.header (response σ))))).
Proof.
  intros Hsent. unfold http_Error.
  destruct (Write_fields w
    (msg +:+ String (ascii_of_nat 10) EmptyString)
    (WriteHeader w code
       (Header_update w (http.Header_Set "X-Content-Type-Options" "nosniff")
          (Header_update w
             (http.Header_Set "Content-Type" "text/plain; charset=utf-8")
             (Header_update w (http.Header_Del "Content-Length") σ)))))
    as (-> & _).
  destruct (WriteHeader_fields w code
    (Header_update w (http.Header_Set "X-Content-Type-Options" "nosniff")
       (Header_update w
          (http.Header_Set "Content-Type" "text/plain; charset=utf-8")
          (Header_update w (http.Header_Del "Content-Length") σ))))
    as (-> & _).
  repeat match goal with
  | |- context [response (Header_update ?w ?f ?s)] =>
      destruct (Header_update_fields w f s) as (-> & _)
  end.
  unfold http.conn_Write, http.conn_WriteHeader, http.conn_mapHeader.
  cbn [http.sent http.header http.body]. rewrite Hsent.
  cbn [http.sent http.header http.body]. reflexivity.
Qed.

(** ** The rate-limit stage *)

(** The search over the map finds what a lookup finds. *)
Lemma findLimiter_lookup (routeLimiters : gmap string TokenBucket)
  (path : string) :
  findLimiter routeLimiters path = routeLimiters !! path.
Proof.
  unfold findLimiter.
  destruct (find _ _) as [[k tb] |] eqn:Hfind; cbn.
  - apply find_some in Hfind as [Hin Heq]. cbn in Heq.
    apply String.eqb_eq in Heq. subst k.
    apply list_elem_of_In, elem_of_map_to_list in Hin. symmetry. exact Hin.
  - destruct (routeLimiters !! path) as [tb |] eqn:Hlook; [| reflexivity].
    apply elem_of_map_to_list, list_elem_of_In in Hlook.
    apply (find_none _ _ Hfind) in Hlook. cbn in Hlook.
    rewrite String.eqb_refl in Hlook. discriminate.
Qed.

Lemma limiterAllow_fields σ r :
  response (snd (limiterAllow σ r)) = response σ
  /\ now (snd (limiterAllow σ r)) = now σ
  /\ logs (snd (limiterAllow σ r)) = logs σ
  /\ wrappers (snd (limiterAllow σ r)) = wrappers σ
  /\ network (snd (limiterAllow σ r)) = network σ.
Proof.
  unfold limiterAllow.
  destruct (selectLimiter σ r) as [l tb].
  destruct (Allow tb (now σ)) as [ok tb1].
  destruct l; repeat split.
Qed.

Lemma RateLimitMiddleware_unfold next w r σ :
  RateLimitMiddleware next w r σ
  = if fst (limiterAllow σ r) then next w r (snd (limiterAllow σ r))
    else
      logPrintf (LogRateLimited (http.Method r) (http.URL_Path r))
        (http_Error w "429 Too Many Requests" http.StatusTooManyRequests
           (Header_update w (http.Header_Set "Retry-After" "1")
              (snd (limiterAllow σ r)))).
Proof.
  unfold RateLimitMiddleware.
  destruct (limiterAllow σ r) as [[|] σ1]; reflexivity.
Qed.

(** C5. For every request the rate-limit stage processes: if [Allow] of the
    bucket selected for it returns [false], the stage sets the header
    [Retry-After: 1], writes status 429 with [http.Error] and logs the
    rejection, and the state it leaves is the same whatever [next] is: [next]
    is not invoked. The response, nothing of which was sent before (as for
    every request of the gateway), then carries status 429 and that header.
    If [Allow] returns [true], the stage does nothing but invoke [next]. *)
Theorem C5_rate_limit_stage (next : Handler) (w : ResponseWriter)
  (r : http.Request) (σ : World) :
  (fst (limiterAllow σ r) = false ->
   RateLimitMiddleware next w r σ
   = logPrintf (LogRateLimited (http.Method r) (http.URL_Path r))
       (http_Error w "429 Too Many Requests" 429
          (Header_update w (http.Header_Set "Retry-After" "1")
             (snd (limiterAllow σ r))))
   /\ (forall next' : Handler,
         RateLimitMiddleware next' w r σ = RateLimitMiddleware next w r σ)
   /\ (http.sent (response σ) = None ->
       exists h : http.Header,
         http.sent (response (RateLimitMiddleware next w r σ)) = Some (429, h)
         /\ h !! "Retry-After" = Some ["1"]))
  /\ (fst (limiterAllow σ r) = true ->
      RateLimitMiddleware next w r σ = next w r (snd (limiterAllow σ r))).
Proof.
  split; intros Hok.
  - split; [| split].
    + rewrite RateLimitMiddleware_unfold, Hok. reflexivity.
    + intros next'. rewrite !RateLimitMiddleware_unfold, Hok. reflexivity.
    + intros Hsent. rewrite RateLimitMiddleware_unfold, Hok.
      cbn [response logPrintf].
      rewrite http_Error_sent.
      * eexists. split; [reflexivity |].
        destruct (Header_update_fields w (http.Header_Set "Retry-After" "1")
                    (snd (limiterAllow σ r))) as (-> & _).
        unfold http.Header_Set, http.Header_Del, http.conn_mapHeader.
        cbn [http.header].
        change (http.CanonicalMIMEHeaderKey "X-Content-Type-Options")
          with "X-Content-Type-Options".
        change (http.CanonicalMIMEHeaderKey "Content-Type")
          with "Content-Type".
        change (http.CanonicalMIMEHeaderKey "Content-Length")
          with "Content-Length".
        change (http.CanonicalMIMEHeaderKey "Retry-After") with "Retry-After".
        rewrite lookup_insert_ne by discriminate.
        rewrite lookup_insert_ne by discriminate.
        rewrite lookup_delete_ne by discriminate.
        apply lookup_insert_eq.
      * destruct (Header_update_fields w (http.Header_Set "Retry-After" "1")
                    (snd (limiterAllow σ r))) as (-> & _).
        destruct (limiterAllow_fields σ r) as (-> & _).
        cbn [http.conn_mapHeader http.sent]. exact Hsent.
  - rewrite RateLimitMiddleware_unfold, Hok. reflexivity.
Qed.

(** A request to an unlisted path when the shared bucket is empty. *)
Lemma C5_rate_limit_stage_witness :
  fst (limiterAllow
         (set_globalLimiter (mkTokenBucket 1 1 Time.Second 0 0)
            (main_world Example.cfg 0 0 (Example.backend 0)))
         (Example.request "/nowhere")) = false
  /\ exists h : http.Header,
       http.sent
         (response
            (RateLimitMiddleware (proxyHandler []) connWriter
               (Example.request "/nowhere")
               (set_globalLimiter (mkTokenBucket 1 1 Time.Second 0 0)
                  (main_world Example.cfg 0 0 (Example.backend 0)))))
       = Some (429, h)
       /\ h !! "Retry-After" = Some ["1"].
Proof.
  assert (Hdenied :
            fst (limiterAllow
                   (set_globalLimiter (mkTokenBucket 1 1 Time.Second 0 0)
                      (main_world Example.cfg 0 0 (Example.backend 0)))
                   (Example.request "/nowhere")) = false)
    by (vm_compute; reflexivity).
  split; [exact Hdenied |].
  destruct (C5_rate_limit_stage (proxyHandler []) connWriter
              (Example.request "/nowhere")
              (set_globalLimiter (mkTokenBucket 1 1 Time.Second 0 0)
                 (main_world Example.cfg 0 0 (Example.backend 0))))
    as [Hreject _].
  destruct (Hreject Hdenied) as (_ & _ & Hsent).
  apply Hsent. reflexivity.
Defined.

(** ** The logging stage *)

(** The proxy handler writes to the writer it is given; given the server's
    writer it touches no wrapper. *)
Lemma proxyHandler_wrappers routes r σ :
  wrappers (proxyHandler routes connWriter r σ) = wrappers σ.
Proof.
  unfold proxyHandler.
  repeat match goal with
  | |- context [if ?b then _ else _] => destruct b
  | |- context [match ?o with Some _ => _ | None => _ end] => destruct o
  end; reflexivity.
Qed.

(** C7, on the code. The stage makes its wrapper and then hands [next] the
    writer it was given, not the wrapper: the status the log entry records is
    the wrapper's initial 0, whatever was written. So it is for every request
    the proxy handler answers, and in the gateway as [main] builds it: a
    request answered 200 is logged with status 0. *)
Theorem C7_logged_status_is_zero :
  (forall routes r σ,
     exists cost,
       last (logs (LogMiddleware (proxyHandler routes) connWriter r σ))
       = Some (LogAccess (http.Method r) (http.URL_Path r) 0 cost))
  /\ (fun σ => (http.status (response σ), logs σ))
       <$> Example.served "/api/open" 2000000000
     = Some (Some 200,
             [LogAccess "GET" "/api/open" 0
                (S754_finite false 8796093022208000 (-42))]).
Proof.
  split.
  - intros routes r σ. eexists. unfold LogMiddleware, newResponseWriterWrapper.
    cbn [logs logPrintf]. rewrite last_snoc.
    rewrite proxyHandler_wrappers. cbn [wrappers set_wrappers].
    rewrite lookup_app_r by lia. rewrite Nat.sub_diag. reflexivity.
  - vm_compute. reflexivity.
Qed.

(** ** The timeout stage *)

(** C8, on the code. The configuration loaded has the default timeout of one
    second, and [main] hands the stage three seconds whatever it says: the
    stages do not depend on [config.Timeout], a handler that finishes within
    three seconds is never cut off, and a request whose backend answers 200
    after two seconds is answered 200, not 504. *)
Theorem C8_timeout_is_three_seconds :
  config.Timeout Example.cfg = 1 * Time.Second
  /\ (forall cfg d, main_middlewares (config.set_Timeout d cfg)
                    = main_middlewares cfg)
  /\ (forall (next : Handler) w r σ,
        let run := next w (http.WithDeadline (now σ + 3 * Time.Second) r) σ in
        now run < now σ + 3 * Time.Second ->
        TimeoutMiddleware (3 * Time.Second) next w r σ = run)
  /\ (fun σ => (http.status (response σ), now σ))
       <$> Example.served "/api/open" 2000000000
     = Some (Some 200, 7000000000).
Proof.
  split; [reflexivity |]. split; [reflexivity |]. split.
  - intros next w r σ run Hrun. unfold TimeoutMiddleware.
    fold run. apply Z.ltb_lt in Hrun. rewrite Hrun. reflexivity.
  - vm_compute. reflexivity.
Qed.

(** ** The shared bucket *)

Ltac same_globalLimiter :=
  repeat match goal with
  | |- context [globalLimiter (logPrintf ?e ?s)] =>
      change (globalLimiter (logPrintf e s)) with (globalLimiter s)
  | |- context [globalLimiter (set_now ?t ?s)] =>
      change (globalLimiter (set_now t s)) with (globalLimiter s)
  | |- context [globalLimiter (set_response ?t ?s)] =>
      change (globalLimiter (set_response t s)) with (globalLimiter s)
  | |- context [globalLimiter (set_wrappers ?t ?s)] =>
      change (globalLimiter (set_wrappers t s)) with (globalLimiter s)
  | |- context [globalLimiter (http_Error ?w ?m ?c ?s)] =>
      destruct (http_Error_fields w m c s) as (_ & _ & -> & _)
  | |- context [globalLimiter (Write ?w ?d ?s)] =>
      destruct (Write_fields w d s) as (_ & _ & _ & -> & _)
  | |- context [globalLimiter (WriteHeader ?w ?c ?s)] =>
      destruct (WriteHeader_fields w c s) as (_ & _ & _ & -> & _)
  | |- context [globalLimiter (Header_update ?w ?f ?s)] =>
      destruct (Header_update_fields w f s) as (_ & _ & _ & -> & _)
  end.

Lemma limiterAllow_shared σ r :
  shared_bucket_is_1_1 σ -> shared_bucket_is_1_1 (snd (limiterAllow σ r)).
Proof.
  unfold shared_bucket_is_1_1, limiterAllow. intros (Hc & Hr & Hi).
  destruct (selectLimiter σ r) as [[path |] tb] eqn:Hsel.
  - destruct (Allow tb (now σ)); cbn. auto.
  - assert (tb = globalLimiter σ) as ->.
    { unfold selectLimiter in Hsel.
      destruct (findLimiter _ _); inversion Hsel; reflexivity. }
    pose proof (Allow_Cap (globalLimiter σ) (now σ)).
    pose proof (Allow_Rate (globalLimiter σ) (now σ)).
    pose proof (Allow_interval (globalLimiter σ) (now σ)).
    destruct (Allow (globalLimiter σ) (now σ)); cbn in *. repeat split; congruence.
Qed.

Lemma keeps_proxyHandler routes :
  keeps shared_bucket_is_1_1 (proxyHandler routes).
Proof.
  intros w r σ H. unfold shared_bucket_is_1_1, proxyHandler in *.
  repeat match goal with
  | |- context [if ?b then _ else _] => destruct b
  | |- context [match ?o with Some _ => _ | None => _ end] => destruct o
  end; same_globalLimiter; exact H.
Qed.

Lemma keeps_AuthMiddleware cfg next :
  keeps shared_bucket_is_1_1 next ->
  keeps shared_bucket_is_1_1 (AuthMiddleware cfg next).
Proof.
  intros Hnext w r σ H. unfold AuthMiddleware.
  repeat match goal with
  | |- context [if ?b then _ else _] => destruct b
  end; try (apply Hnext); unfold shared_bucket_is_1_1 in *;
    same_globalLimiter; exact H.
Qed.

Lemma keeps_RateLimitMiddleware next :
  keeps shared_bucket_is_1_1 next ->
  keeps shared_bucket_is_1_1 (RateLimitMiddleware next).
Proof.
  intros Hnext w r σ H. rewrite RateLimitMiddleware_unfold.
  apply (limiterAllow_shared σ r) in H.
  destruct (fst (limiterAllow σ r)); [apply Hnext; exact H |].
  unfold shared_bucket_is_1_1 in *. same_globalLimiter. exact H.
Qed.

Lemma keeps_CORSAMiddleware next :
  keeps shared_bucket_is_1_1 next ->
  keeps shared_bucket_is_1_1 (CORSAMiddleware next).
Proof.
  intros Hnext w r σ H. unfold CORSAMiddleware.
  destruct (String.eqb _ _); [| apply Hnext];
    unfold shared_bucket_is_1_1 in *; same_globalLimiter; exact H.
Qed.

Lemma keeps_TimeoutMiddleware timeout next :
  keeps shared_bucket_is_1_1 next ->
  keeps shared_bucket_is_1_1 (TimeoutMiddleware timeout next).
Proof.
  intros Hnext w r σ H. unfold TimeoutMiddleware.
  destruct (_ <? _); [apply Hnext; exact H |].
  unfold shared_bucket_is_1_1 in *. same_globalLimiter. exact H.
Qed.

Lemma keeps_LogMiddleware next :
  keeps shared_bucket_is_1_1 next ->
  keeps shared_bucket_is_1_1 (LogMiddleware next).
Proof.
  intros Hnext w r σ H. unfold LogMiddleware, newResponseWriterWrapper.
  specialize (Hnext w r (set_wrappers (wrappers σ ++ [0]) σ) H).
  unfold shared_bucket_is_1_1 in *. same_globalLimiter. exact Hnext.
Qed.

Lemma keeps_serve_all h : keeps shared_bucket_is_1_1 h ->
  forall reqs σ,
  shared_bucket_is_1_1 σ -> shared_bucket_is_1_1 (serve_all h reqs σ).
Proof.
  intros Hh reqs. induction reqs as [| [r t] rest IH]; intros σ H.
  - exact H.
  - cbn [serve_all]. apply IH. unfold serve. apply Hh. exact H.
Qed.

(** C9. The shared bucket is made as [NewTokenBucket(1, 1)], whatever the
    configuration (whose own default is capacity 3, rate 1). For a request
    whose path has no bucket of its own in [routeLimiters], the rate-limit
    stage asks [Allow] of the shared bucket, which is the only thing the
    check changes, and the answer decides: on [true] the stage hands the
    request to [next], on [false] it answers 429 and [next] is not run. The
    stage stands in the handler [main] registers, right after the
    authentication. The bucket keeps capacity 1 and rate 1 over every run of
    the server; and the [GlobalRateLimit] of the configuration file, given
    or defaulted, changes neither the state the server starts in nor its
    handler. *)
Theorem C9_shared_bucket_is_hardcoded (parsed : config.Config)
  (t0 t1 : Time.Time) (net : Network) :
  let cfg := config.loadConfig parsed in
  globalLimiter (main_world cfg t0 t1 net) = NewTokenBucket 1 1 t0
  /\ config.GlobalRateLimit (config.loadConfig Example.parsed)
     = config.mkGlobalRateLimitConfig 3 1
  /\ (forall σ r,
        routeLimiters σ !! http.URL_Path r = None ->
        limiterAllow σ r
        = (fst (Allow (globalLimiter σ) (now σ)),
           set_globalLimiter (snd (Allow (globalLimiter σ) (now σ))) σ))
  /\ (forall next w σ r,
        routeLimiters σ !! http.URL_Path r = None ->
        let ok := fst (Allow (globalLimiter σ) (now σ)) in
        let σ1 :=
          set_globalLimiter (snd (Allow (globalLimiter σ) (now σ))) σ in
        RateLimitMiddleware next w r σ
        = (if ok then next w r σ1
           else
             logPrintf (LogRateLimited (http.Method r) (http.URL_Path r))
               (http_Error w "429 Too Many Requests" 429
                  (Header_update w (http.Header_Set "Retry-After" "1") σ1)))
        /\ (ok = false ->
            (forall next' : Handler,
               RateLimitMiddleware next' w r σ = RateLimitMiddleware next w r σ)
            /\ (http.sent (response σ) = None ->
                http.status (response (RateLimitMiddleware next w r σ))
                = Some 429)))
  /\ main_handler cfg
     = Some (AuthMiddleware cfg
               (RateLimitMiddleware
                  (CORSAMiddleware
                     (TimeoutMiddleware (3 * Time.Second)
                        (LogMiddleware (proxyHandler (config.Routes cfg)))))))
  /\ (exists h, main_handler cfg = Some h
        /\ forall reqs,
             shared_bucket_is_1_1 (serve_all h reqs (main_world cfg t0 t1 net)))
  /\ (forall g,
        let cfg' := config.loadConfig (config.set_GlobalRateLimit g parsed) in
        main_world cfg' t0 t1 net = main_world cfg t0 t1 net
        /\ main_handler cfg' = main_handler cfg).
Proof.
  intros cfg.
  assert (Hshared : forall σ r,
            routeLimiters σ !! http.URL_Path r = None ->
            limiterAllow σ r
            = (fst (Allow (globalLimiter σ) (now σ)),
               set_globalLimiter (snd (Allow (globalLimiter σ) (now σ))) σ)).
  { intros σ r Hnone. unfold limiterAllow, selectLimiter.
    rewrite findLimiter_lookup, Hnone.
    destruct (Allow (globalLimiter σ) (now σ)); reflexivity. }
  split; [reflexivity |]. split; [reflexivity |].
  split; [exact Hshared |]. split; [| split; [reflexivity |]; split].
  - intros next w σ r Hnone ok σ1.
    assert (Hstage : forall next0 : Handler,
              RateLimitMiddleware next0 w r σ
              = (if ok then next0 w r σ1
                 else
                   logPrintf
                     (LogRateLimited (http.Method r) (http.URL_Path r))
                     (http_Error w "429 Too Many Requests" 429
                        (Header_update w
                           (http.Header_Set "Retry-After" "1") σ1)))).
    { intros next0. rewrite RateLimitMiddleware_unfold.
      rewrite (Hshared σ r Hnone). reflexivity. }
    split; [apply Hstage |].
    intros Hno. split.
    + intros next'. rewrite !Hstage, Hno. reflexivity.
    + intros Hsent. rewrite Hstage, Hno. cbn [response logPrintf].
      unfold http.status. rewrite http_Error_sent; [reflexivity |].
      destruct (Header_update_fields w (http.Header_Set "Retry-After" "1") σ1)
        as (-> & _).
      subst σ1. cbn [response set_globalLimiter http.conn_mapHeader http.sent].
      exact Hsent.
  - destruct (ChainMiddleware_keeps (proxyHandler (config.Routes cfg))
                (main_middlewares cfg)) as [h [Hh Hkeeps]].
    exists h. split; [exact Hh |].
    intros reqs. apply keeps_serve_all; [| repeat split].
    apply Hkeeps.
    + apply keeps_proxyHandler.
    + unfold main_middlewares.
      apply Forall_cons_2; [exact (keeps_AuthMiddleware cfg) |].
      apply Forall_cons_2; [exact keeps_RateLimitMiddleware |].
      apply Forall_cons_2; [exact keeps_CORSAMiddleware |].
      apply Forall_cons_2;
        [exact (keeps_TimeoutMiddleware (3 * Time.Second)) |].
      apply Forall_cons_2; [exact keeps_LogMiddleware |].
      apply Forall_nil_2.
  - intros g cfg'. split; reflexivity.
Qed.

(** A request to a path with no route: in the state the server starts in
    the shared bucket decides and gives its one token; with that bucket
    emptied the stage answers 429. *)
Lemma C9_shared_bucket_is_hardcoded_witness :
  routeLimiters (main_world Example.cfg 0 0 (Example.backend 0))
    !! http.URL_Path (Example.request "/nowhere") = None
  /\ limiterAllow (main_world Example.cfg 0 0 (Example.backend 0))
       (Example.request "/nowhere")
     = (true,
        set_globalLimiter (mkTokenBucket 1 1 Time.Second 0 0)
          (main_world Example.cfg 0 0 (Example.backend 0)))
  /\ http.status
       (response
          (RateLimitMiddleware (proxyHandler []) connWriter
             (Example.request "/nowhere")
             (set_globalLimiter (mkTokenBucket 1 1 Time.Second 0 0)
                (main_world Example.cfg 0 0 (Example.backend 0)))))
     = Some 429.
Proof.
  assert (Hnone : routeLimiters (main_world Example.cfg 0 0 (Example.backend 0))
                    !! http.URL_Path (Example.request "/nowhere") = None)
    by (vm_compute; reflexivity).
  split; [exact Hnone |].
  destruct (C9_shared_bucket_is_hardcoded Example.parsed 0 0 (Example.backend 0))
    as (_ & _ & Hshared & Hstage & _).
  split; [rewrite (Hshared _ _ Hnone); reflexivity |].
  destruct (Hstage (proxyHandler []) connWriter
              (set_globalLimiter (mkTokenBucket 1 1 Time.Second 0 0)
                 (main_world Example.cfg 0 0 (Example.backend 0)))
              (Example.request "/nowhere") Hnone) as (_ & Hdenied).
  destruct Hdenied as (_ & Hstatus); [vm_compute; reflexivity |].
  apply Hstatus. reflexivity.
Defined.


(** ** Goroutines calling [Allow] on one bucket: every interleaving *)

Module ConcurrentFacts.
Import Concurrent.

Lemma count_nonneg f gs : 0 <= count f gs.
Proof. unfold count. lia. Qed.

Lemma count_cons f p gs : count f (p :: gs) = b2z (f p) + count f gs.
Proof.
  unfold count. rewrite filter_cons.
  destruct (decide (f p = true)) as [-> | Hn].
  - cbn [length b2z]. lia.
  - destruct (f p); [congruence | cbn [b2z]; lia].
Qed.

(** Replacing the statement of one goroutine moves the count by the two
    statements only. *)
Lemma count_insert f (gs : list pc) : forall i p q,
  gs !! i = Some p ->
  count f (<[i := q]> gs) = count f gs - b2z (f p) + b2z (f q).
Proof.
  induction gs as [| g gs IH]; intros [| i] p q Hi; try discriminate.
  - injection Hi as ->. change (<[0%nat := q]> (p :: gs)) with (q :: gs).
    rewrite !count_cons. lia.
  - cbn in Hi. change (<[S i := q]> (g :: gs)) with (g :: <[i := q]> gs).
    rewrite !count_cons, (IH i p q Hi). lia.
Qed.

Lemma count_replicate_atLock f n : f atLock = false ->
  count f (replicate n atLock) = 0.
Proof.
  intros Hf. induction n as [| n IH]; [reflexivity |].
  cbn [replicate]. rewrite count_cons, Hf, IH. reflexivity.
Qed.

Lemma idle_local_ok clock b p : in_critical p = false -> local_ok clock b p.
Proof. destruct p; cbn; intros H; try discriminate; exact I. Qed.

(** The goroutine in the critical section holds the mutex, alone. *)
Lemma holder_alone s i p :
  lock_inv s -> goroutines s !! i = Some p -> in_critical p = true ->
  mu s = true /\ others_idle (goroutines s) i.
Proof.
  unfold lock_inv. intros Hl Hi Hp. destruct (mu s).
  - split; [reflexivity |].
    destruct Hl as (k & q & Hk & Hq & Hidle).
    destruct (decide (i = k)) as [-> | Hne]; [exact Hidle |].
    rewrite (Hidle i p Hne Hi) in Hp. discriminate.
  - rewrite (Hl i p Hi) in Hp. discriminate.
Qed.

Lemma others_idle_insert gs i q : others_idle gs i -> others_idle (<[i := q]> gs) i.
Proof.
  intros H j p Hne Hj. rewrite list_lookup_insert_ne in Hj by congruence.
  exact (H j p Hne Hj).
Qed.

(** The mutex stays held while its holder moves inside the section. *)
Lemma lock_inv_move b b' gs i p q :
  lock_inv (mkState b true gs) -> gs !! i = Some p ->
  in_critical p = true -> in_critical q = true ->
  lock_inv (mkState b' true (<[i := q]> gs)).
Proof.
  intros Hl Hi Hp Hq.
  destruct (holder_alone _ i p Hl Hi Hp) as [_ Hidle].
  exists i, q. split; [| split; [exact Hq | apply others_idle_insert, Hidle]].
  apply list_lookup_insert_eq. eapply lookup_lt_Some, Hi.
Qed.

Lemma locals_insert clock b b' gs i p q :
  (forall j r, gs !! j = Some r -> local_ok clock b r) ->
  others_idle gs i -> gs !! i = Some p ->
  local_ok clock b' q ->
  forall j r, <[i := q]> gs !! j = Some r -> local_ok clock b' r.
Proof.
  intros Hloc Hidle Hi Hq j r Hj.
  apply list_lookup_insert_Some in Hj as [(-> & -> & _) | (Hne & Hj)];
    [exact Hq |].
  apply idle_local_ok. apply (Hidle j r); [congruence | exact Hj].
Qed.


Lemma newTokens_frame b tb0 now :
  Rate b = Rate tb0 -> interval b = interval tb0 ->
  LastCheck b = LastCheck tb0 ->
  Float64.to_int
    (Float64.div
       (Float64.mul (Time.Seconds (Time.Sub now (LastCheck b)))
          (Float64.of_int (Rate b)))
       (Time.Seconds (interval b)))
  = newTokens tb0 now.
Proof. intros -> -> ->. reflexivity. Qed.

Section Quiet.

Variable clock : Time.Time -> Prop.
Variable tb0 : TokenBucket.
Hypothesis tokens_range : 0 <= Tokens tb0 <= GoInt.max_int.
Hypothesis no_refill : forall t, clock t -> newTokens tb0 t <= 0.

(** The holder of the mutex executes a statement and stays in the section. *)
Ltac inside Hlock Hi :=
  let Hm := fresh "Hm" in
  let Hidle := fresh "Hidle" in
  destruct (holder_alone _ _ _ Hlock Hi eq_refl) as [Hm Hidle];
  cbn [mu goroutines] in Hm, Hidle; subst;
  pose proof (fun b' q => lock_inv_move _ b' _ _ _ q Hlock Hi eq_refl) as Hmove.

Lemma init_inv n : inv clock tb0 (init tb0 n).
Proof.
  unfold init. constructor; cbn [bucket mu goroutines]; try reflexivity.
  - intros j q Hj. apply lookup_replicate in Hj as [-> _]. reflexivity.
  - intros j q Hj. apply lookup_replicate in Hj as [-> _]. exact I.
  - rewrite count_replicate_atLock by reflexivity. lia.
  - lia.
  - rewrite count_replicate_atLock by reflexivity. lia.
Qed.

Lemma step_inv s s' : inv clock tb0 s -> step clock s s' -> inv clock tb0 s'.
Proof.
  intros [HC HR HI HL Hlock Hloc Hg Hn Hd] Hstep.
  destruct Hstep as
    [ i b gs Hi | i b m gs now Hi Hclock | i b m gs now Hi
    | i b m gs now duration Hi | i b m gs now tokens Hi Hpos
    | i b m gs now tokens Hi Hneg | i b m gs now tokens Hi
    | i b m gs now Hi | i b m gs Hi Hpos | i b m gs Hi Hneg
    | i b m gs Hi | i b m gs ret Hi ];
    cbn [bucket mu goroutines] in *.
  - (* Lock *)
    assert (Hidle : others_idle gs i) by (intros j q _ Hj; exact (Hlock j q Hj)).
    constructor; cbn [bucket mu goroutines]; try assumption.
    + exists i, atNow. split; [| split; [reflexivity |]].
      * apply list_lookup_insert_eq. eapply lookup_lt_Some, Hi.
      * apply others_idle_insert, Hidle.
    + eapply locals_insert; eauto. exact I.
    + rewrite (count_insert _ _ _ _ _ Hi). cbn. lia.
    + rewrite (count_insert _ _ _ _ _ Hi). cbn. rewrite Z.sub_0_r, Z.add_0_r. exact Hd.
  - (* Now *)
    inside Hlock Hi.
    constructor; cbn [bucket mu goroutines]; try assumption.
    + apply Hmove. reflexivity.
    + eapply locals_insert; eauto.
    + rewrite (count_insert _ _ _ _ _ Hi). cbn. lia.
    + rewrite (count_insert _ _ _ _ _ Hi). cbn. rewrite Z.sub_0_r, Z.add_0_r. exact Hd.
  - (* Duration *)
    inside Hlock Hi. pose proof (Hloc _ _ Hi) as Hp. cbn in Hp.
    constructor; cbn [bucket mu goroutines]; try assumption.
    + apply Hmove. reflexivity.
    + eapply locals_insert; eauto. cbn. auto.
    + rewrite (count_insert _ _ _ _ _ Hi). cbn. lia.
    + rewrite (count_insert _ _ _ _ _ Hi). cbn. rewrite Z.sub_0_r, Z.add_0_r. exact Hd.
  - (* Tokens *)
    inside Hlock Hi. pose proof (Hloc _ _ Hi) as [Hp ->].
    constructor; cbn [bucket mu goroutines]; try assumption.
    + apply Hmove. reflexivity.
    + eapply locals_insert; eauto. cbn.
      rewrite (newTokens_frame b tb0 now HR HI HL). apply no_refill, Hp.
    + rewrite (count_insert _ _ _ _ _ Hi). cbn. lia.
    + rewrite (count_insert _ _ _ _ _ Hi). cbn. rewrite Z.sub_0_r, Z.add_0_r. exact Hd.
  - (* RefillTest, tokens > 0 *)
    pose proof (Hloc _ _ Hi) as Hp. cbn in Hp. lia.
  - (* RefillTest, tokens <= 0 *)
    inside Hlock Hi.
    constructor; cbn [bucket mu goroutines]; try assumption.
    + apply Hmove. reflexivity.
    + eapply locals_insert; eauto. exact I.
    + rewrite (count_insert _ _ _ _ _ Hi). cbn. lia.
    + rewrite (count_insert _ _ _ _ _ Hi). cbn. rewrite Z.sub_0_r, Z.add_0_r. exact Hd.
  - (* RefillTokens *)
    destruct (Hloc _ _ Hi).
  - (* RefillLastCheck *)
    destruct (Hloc _ _ Hi).
  - (* TakeTest, a token is there *)
    inside Hlock Hi.
    constructor; cbn [bucket mu goroutines]; try assumption.
    + apply Hmove. reflexivity.
    + eapply locals_insert; eauto.
    + rewrite (count_insert _ _ _ _ _ Hi). cbn. lia.
    + rewrite (count_insert _ _ _ _ _ Hi). cbn. rewrite Z.sub_0_r, Z.add_0_r. exact Hd.
  - (* TakeTest, the bucket is empty *)
    inside Hlock Hi.
    constructor; cbn [bucket mu goroutines]; try assumption.
    + apply Hmove. reflexivity.
    + eapply locals_insert; eauto. exact I.
    + rewrite (count_insert _ _ _ _ _ Hi). cbn. lia.
    + intros _. lia.
  - (* Decrement *)
    inside Hlock Hi. pose proof (Hloc _ _ Hi) as Hp. cbn in Hp.
    pose proof (count_nonneg granted gs) as Hcount.
    assert (Hsub : GoInt.sub (Tokens b) 1 = Tokens b - 1).
    { unfold GoInt.sub. apply wrap_small.
      unfold GoInt.in_range, GoInt.min_int, GoInt.max_int in *. lia. }
    constructor; cbn [bucket mu goroutines set_Tokens Cap Rate interval
                        LastCheck Tokens]; try assumption.
    + apply Hmove. reflexivity.
    + eapply locals_insert; eauto. exact I.
    + rewrite (count_insert _ _ _ _ _ Hi), Hsub. cbn. lia.
    + rewrite Hsub. lia.
    + rewrite (count_insert _ _ _ _ _ Hi). cbn. rewrite Z.sub_0_r, Z.add_0_r.
      intros Hden. specialize (Hd Hden). lia.
  - (* Unlock *)
    destruct (holder_alone _ _ _ Hlock Hi eq_refl) as [Hm Hidle].
    cbn [mu goroutines] in Hm, Hidle. subst.
    constructor; cbn [bucket mu goroutines]; try assumption.
    + intros j q Hj.
      apply list_lookup_insert_Some in Hj as [(-> & <- & _) | (Hne & Hj)];
        [reflexivity |].
      apply (Hidle j q); [congruence | exact Hj].
    + eapply locals_insert; eauto. exact I.
    + rewrite (count_insert _ _ _ _ _ Hi). destruct ret; cbn; lia.
    + rewrite (count_insert _ _ _ _ _ Hi). destruct ret; cbn;
        rewrite ?Z.sub_0_r, ?Z.add_0_r; try exact Hd.
      intros Hden. apply Hd. lia.
Qed.


Lemma reachable_inv n s :
  rtc (step clock) (init tb0 n) s -> inv clock tb0 s.
Proof.
  revert s. apply rtc_ind_r.
  - apply init_inv.
  - intros s1 s2 _ Hs IH. exact (step_inv s1 s2 IH Hs).
Qed.

End Quiet.

Lemma step_length clock s s' :
  step clock s s' -> length (goroutines s') = length (goroutines s).
Proof. destruct 1; cbn [goroutines]; apply length_insert. Qed.

Lemma reachable_length clock tb n s :
  rtc (step clock) (init tb n) s -> length (goroutines s) = n.
Proof.
  revert s. apply rtc_ind_r.
  - apply length_replicate.
  - intros s1 s2 _ Hs IH. rewrite (step_length _ _ _ Hs). exact IH.
Qed.

(** When every call has returned, each one was granted or denied. *)
Lemma count_all_returned gs :
  forallb is_returned gs = true ->
  count (fun p => match p with returned true => true | _ => false end) gs
  = count granted gs
  /\ count granted gs + count denied gs = Z.of_nat (length gs).
Proof.
  induction gs as [| p gs IH]; intros Hall.
  - split; reflexivity.
  - cbn [forallb] in Hall. apply andb_prop in Hall as [Hp Hgs].
    destruct (IH Hgs) as [IH1 IH2].
    rewrite !count_cons, IH1. cbn [length]. rewrite Nat2Z.inj_succ.
    destruct p as [| | | | | | | | | | [|]]; try discriminate; cbn [b2z granted denied];
      split; lia.
Qed.

Lemma forallb_false_lookup (gs : list pc) :
  forallb is_returned gs = false ->
  exists i p, gs !! i = Some p /\ is_returned p = false.
Proof.
  induction gs as [| p gs IH]; intros H; [discriminate |].
  cbn [forallb] in H. destruct (is_returned p) eqn:Hp.
  - destruct (IH H) as (i & q & Hi & Hq). exists (S i), q. split; assumption.
  - exists 0%nat, p. split; [reflexivity | exact Hp].
Qed.

(** A run is never stuck before every call has returned: the holder of the
    mutex can execute its statement, and when the mutex is free a goroutine
    that waits for it takes it. *)
Lemma step_progress clock s :
  lock_inv s -> (exists t, clock t) -> all_returned s = false ->
  exists s', step clock s s'.
Proof.
  destruct s as [b m gs]. unfold lock_inv, all_returned. cbn [mu goroutines].
  intros Hlock [t Ht] Hall. destruct m.
  - destruct Hlock as (i & p & Hi & Hp & _).
    destruct p as [| | now | now d | now tokens | now tokens | now | | | ret | ret];
      try discriminate.
    + eexists. eapply step_Now; eassumption.
    + eexists. eapply step_Duration; eassumption.
    + eexists. eapply step_Tokens; eassumption.
    + destruct (Z_lt_le_dec 0 tokens).
      * eexists. eapply step_RefillTest_yes; eassumption.
      * eexists. eapply step_RefillTest_no; eassumption.
    + eexists. eapply step_RefillTokens; eassumption.
    + eexists. eapply step_RefillLastCheck; eassumption.
    + destruct (Z_lt_le_dec 0 (Tokens b)).
      * eexists. eapply step_TakeTest_yes; eassumption.
      * eexists. eapply step_TakeTest_no; eassumption.
    + eexists. eapply step_Decrement; eassumption.
    + eexists. eapply step_Unlock; eassumption.
  - destruct (forallb_false_lookup gs Hall) as (i & p & Hi & Hp).
    pose proof (Hlock i p Hi) as Hidle.
    destruct p; try discriminate.
    eexists. eapply step_Lock. exact Hi.
Qed.


(** Every statement executed is one statement less to execute. *)
Lemma work_insert (gs : list pc) : forall i p q,
  gs !! i = Some p ->
  (foldr (fun p n => remaining p + n) 0 (<[i := q]> gs) + remaining p
   = foldr (fun p n => remaining p + n) 0 gs + remaining q)%nat.
Proof.
  induction gs as [| g gs IH]; intros [| i] p q Hi; try discriminate.
  - injection Hi as ->. change (<[0%nat := q]> (p :: gs)) with (q :: gs).
    cbn [foldr]. lia.
  - cbn in Hi. change (<[S i := q]> (g :: gs)) with (g :: <[i := q]> gs).
    cbn [foldr]. specialize (IH i p q Hi). lia.
Qed.

Lemma step_work clock s s' : step clock s s' -> (S (work s') <= work s)%nat.
Proof.
  destruct 1 as
    [ i b gs Hi | i b m gs now Hi Hclock | i b m gs now Hi
    | i b m gs now duration Hi | i b m gs now tokens Hi Hpos
    | i b m gs now tokens Hi Hneg | i b m gs now tokens Hi
    | i b m gs now Hi | i b m gs Hi Hpos | i b m gs Hi Hneg
    | i b m gs Hi | i b m gs ret Hi ];
    unfold work; cbn [goroutines];
    match goal with
    | |- context [<[_ := ?q]> _] => pose proof (work_insert gs i _ q Hi) as H
    end; cbn [remaining] in H; lia.
Qed.

Lemma nsteps_work clock k s s' :
  nsteps (step clock) k s s' -> (k + work s' <= work s)%nat.
Proof.
  induction 1 as [| k s1 s2 s3 Hs _ IH]; [lia |].
  apply step_work in Hs. lia.
Qed.

Lemma work_init tb n : work (init tb n) = (10 * n)%nat.
Proof.
  unfold work, init. cbn [goroutines].
  induction n as [| n IH]; [reflexivity |].
  cbn [replicate foldr remaining]. lia.
Qed.

(** A goroutine that finds the mutex free executes [Allow] from its first
    statement to its last: the bucket is left as [Allow] leaves it and the
    call returns its answer. *)
Lemma one_call clock b gs i now :
  gs !! i = Some atLock ->
  clock now ->
  rtc (step clock) (mkState b false gs)
    (mkState (snd (Allow b now)) false
       (<[i := returned (fst (Allow b now))]> gs)).
Proof.
  intros Hi Hclock.
  pose proof (lookup_lt_Some _ _ _ Hi) as Hlt.
  assert (Hat : forall p, <[i := p]> gs !! i = Some p)
    by (intros p; apply list_lookup_insert_eq, Hlt).
  assert (Htake : forall b1,
            rtc (step clock) (mkState b1 true (<[i := atTakeTest]> gs))
              (mkState (snd (takeToken b1)) false
                 (<[i := returned (fst (takeToken b1))]> gs))).
  { intros b1. unfold takeToken.
    destruct (Z.ltb_spec 0 (Tokens b1)) as [Hpos | Hneg]; cbn [fst snd].
    - eapply rtc_l; [exact (step_TakeTest_yes clock i b1 true _ (Hat _) Hpos) |].
      rewrite list_insert_insert_eq.
      eapply rtc_l; [exact (step_Decrement clock i b1 true _ (Hat _)) |].
      rewrite list_insert_insert_eq.
      eapply rtc_l; [exact (step_Unlock clock i _ true _ true (Hat _)) |].
      rewrite list_insert_insert_eq. apply rtc_refl.
    - eapply rtc_l; [exact (step_TakeTest_no clock i b1 true _ (Hat _) Hneg) |].
      rewrite list_insert_insert_eq.
      eapply rtc_l; [exact (step_Unlock clock i _ true _ false (Hat _)) |].
      rewrite list_insert_insert_eq. apply rtc_refl. }
  eapply rtc_l; [exact (step_Lock clock i b gs Hi) |].
  eapply rtc_l; [exact (step_Now clock i b true _ now (Hat _) Hclock) |].
  rewrite list_insert_insert_eq.
  eapply rtc_l; [exact (step_Duration clock i b true _ now (Hat _)) |].
  rewrite list_insert_insert_eq.
  eapply rtc_l; [exact (step_Tokens clock i b true _ now _ (Hat _)) |].
  rewrite list_insert_insert_eq.
  change (Float64.to_int _) with (newTokens b now).
  unfold Allow, refill.
  destruct (Z.ltb_spec 0 (newTokens b now)) as [Hpos | Hneg].
  - eapply rtc_l;
      [exact (step_RefillTest_yes clock i b true _ now _ (Hat _) Hpos) |].
    rewrite list_insert_insert_eq.
    eapply rtc_l; [exact (step_RefillTokens clock i b true _ now _ (Hat _)) |].
    rewrite list_insert_insert_eq.
    eapply rtc_l; [exact (step_RefillLastCheck clock i _ true _ now (Hat _)) |].
    rewrite list_insert_insert_eq.
    apply Htake.
  - eapply rtc_l;
      [exact (step_RefillTest_no clock i b true _ now _ (Hat _) Hneg) |].
    rewrite list_insert_insert_eq.
    apply Htake.
Qed.

(** C10. [n] goroutines call [Allow] on one bucket that holds [T] tokens,
    and no clock reading of the run makes a refill due. Under every
    interleaving of their statements: when all calls have returned, exactly
    [min n T] of them returned [true]; at every moment the tokens left and
    the calls granted add up to [T], so no token is granted twice; two
    goroutines are never both between [Lock] and [Unlock], where all the
    statements that read or write [Tokens] and [LastCheck] are, and whoever
    is there holds the mutex; the run is never stuck before all calls have
    returned, and it has at most [10 * n] steps. *)
Theorem C10_concurrent_calls (clock : Time.Time -> Prop) (tb : TokenBucket)
  (n : nat) (s : state) :
  0 <= Tokens tb <= GoInt.max_int ->
  (forall t, clock t -> newTokens tb t <= 0) ->
  rtc (step clock) (init tb n) s ->
  (all_returned s = true -> admitted s = Z.min (Z.of_nat n) (Tokens tb))
  /\ Tokens (bucket s) + count granted (goroutines s) = Tokens tb
  /\ (forall i j p q,
        goroutines s !! i = Some p -> goroutines s !! j = Some q ->
        in_critical p = true -> in_critical q = true ->
        i = j /\ mu s = true)
  /\ (all_returned s = false -> (exists t, clock t) ->
      exists s', step clock s s')
  /\ (forall k, nsteps (step clock) k (init tb n) s -> (k <= 10 * n)%nat).
Proof.
  intros Hrange Hquiet Hrun.
  pose proof (reachable_inv clock tb Hrange Hquiet n s Hrun)
    as [_ _ _ _ Hlock _ Hg Hn Hd].
  pose proof (reachable_length clock tb n s Hrun) as Hlen.
  split; [| split; [exact Hg | split; [| split]]].
  - intros Hall. unfold all_returned in Hall. unfold admitted.
    destruct (count_all_returned _ Hall) as [-> Hsum].
    rewrite Hlen in Hsum.
    pose proof (count_nonneg granted (goroutines s)).
    pose proof (count_nonneg denied (goroutines s)).
    destruct (Z_lt_le_dec 0 (count denied (goroutines s))) as [Hden | Hden].
    + specialize (Hd Hden). lia.
    + lia.
  - intros i j p q Hi Hj Hp Hq.
    destruct (holder_alone s i p Hlock Hi Hp) as [Hmu Hidle].
    split; [| exact Hmu].
    destruct (decide (j = i)) as [-> | Hne]; [reflexivity |].
    rewrite (Hidle j q Hne Hj) in Hq. discriminate.
  - intros Hall Hclock. exact (step_progress clock s Hlock Hclock Hall).
  - intros k Hk. apply nsteps_work in Hk. rewrite work_init in Hk. lia.
Qed.

(** Two calls on a bucket of one token, the clock standing still: the second
    goroutine goes first and is granted the token, the first is denied. *)
Lemma C10_concurrent_calls_witness :
  admitted (mkState (mkTokenBucket 1 1 Time.Second 0 0) false
              [returned false; returned true])
  = Z.min (Z.of_nat 2) (Tokens (NewTokenBucket 1 1 0)).
Proof.
  refine (proj1
    (C10_concurrent_calls (fun t => t = 0) (NewTokenBucket 1 1 0) 2
       (mkState (mkTokenBucket 1 1 Time.Second 0 0) false
          [returned false; returned true])
       _ _ _) _).
  - cbn. unfold GoInt.max_int. lia.
  - intros t ->. apply (newTokens_no_elapsed (NewTokenBucket 1 1 0)). reflexivity.
  - eapply rtc_trans.
    + exact (one_call (fun t => t = 0) (NewTokenBucket 1 1 0)
               [atLock; atLock] 1 0 eq_refl eq_refl).
    + exact (one_call (fun t => t = 0) (snd (Allow (NewTokenBucket 1 1 0) 0))
               [atLock; returned true] 0 0 eq_refl eq_refl).
  - vm_compute. reflexivity.
Defined.

End ConcurrentFacts.

(** ** The proxy handler *)

Lemma lookupTarget_no_match (rest : list config.RouteConfig) (path : string) :
  forall target,
  Forall (fun route => config.Path route <> path) rest ->
  fold_left
    (fun target route =>
       if String.eqb (config.Path route) path then config.Target route
       else target) rest target = target.
Proof.
  induction rest as [| route rest IH]; intros target Hall; [reflexivity |].
  apply Forall_cons in Hall as [Hne Hall]. cbn [fold_left].
  apply String.eqb_neq in Hne. rewrite Hne. apply IH, Hall.
Qed.

(** When several routes share the path of a request, the last one listed
    gives the target. *)
Theorem lookupTarget_last_match (routes rest : list config.RouteConfig)
  (route : config.RouteConfig) (path : string) :
  config.Path route = path ->
  Forall (fun later => config.Path later <> path) rest ->
  lookupTarget (routes ++ route :: rest) path = config.Target route.
Proof.
  intros Hpath Hrest. unfold lookupTarget.
  rewrite fold_left_app. cbn [fold_left].
  apply String.eqb_eq in Hpath. rewrite Hpath.
  apply lookupTarget_no_match, Hrest.
Qed.

Lemma lookupTarget_last_match_witness :
  lookupTarget
    ([config.mkRouteConfig "/a" "http://first" 0]
       ++ config.mkRouteConfig "/a" "http://second" 0
       :: [config.mkRouteConfig "/b" "http://other" 0]) "/a"
  = "http://second".
Proof.
  apply (lookupTarget_last_match
           [config.mkRouteConfig "/a" "http://first" 0]
           [config.mkRouteConfig "/b" "http://other" 0]
           (config.mkRouteConfig "/a" "http://second" 0) "/a").
  - reflexivity.
  - repeat constructor. cbn. discriminate.
Defined.

Lemma http_Error_body w msg code σ :
  http.body (response (http_Error w msg code σ))
  = http.body (response σ) ++ [msg +:+ String (ascii_of_nat 10) EmptyString].
Proof.
  unfold http_Error.
  destruct (Write_fields w
    (msg +:+ String (ascii_of_nat 10) EmptyString)
    (WriteHeader w code
       (Header_update w (http.Header_Set "X-Content-Type-Options" "nosniff")
          (Header_update w
             (http.Header_Set "Content-Type" "text/plain; charset=utf-8")
             (Header_update w (http.Header_Del "Content-Length") σ)))))
    as (-> & _).
  destruct (WriteHeader_fields w code
    (Header_update w (http.Header_Set "X-Content-Type-Options" "nosniff")
       (Header_update w
          (http.Header_Set "Content-Type" "text/plain; charset=utf-8")
          (Header_update w (http.Header_Del "Content-Length") σ))))
    as (-> & _).
  repeat match goal with
  | |- context [response (Header_update ?w ?f ?s)] =>
      destruct (Header_update_fields w f s) as (-> & _)
  end.
  unfold http.conn_Write, http.conn_WriteHeader, http.conn_mapHeader.
  cbn [http.sent http.header http.body].
  destruct (http.sent (response σ)); reflexivity.
Qed.

Lemma Header_update_network w f net σ :
  Header_update w f (set_network net σ) = set_network net (Header_update w f σ).
Proof. induction w as [| l embedded IH]; [reflexivity | exact IH]. Qed.

Lemma WriteHeader_network w code net : forall σ,
  WriteHeader w code (set_network net σ) = set_network net (WriteHeader w code σ).
Proof.
  induction w as [| l embedded IH]; intros σ; [reflexivity |].
  cbn [WriteHeader]. rewrite <- IH. reflexivity.
Qed.

Lemma Write_network w data net σ :
  Write w data (set_network net σ) = set_network net (Write w data σ).
Proof. induction w as [| l embedded IH]; [reflexivity | exact IH]. Qed.

Lemma http_Error_network w msg code net σ :
  http_Error w msg code (set_network net σ)
  = set_network net (http_Error w msg code σ).
Proof.
  unfold http_Error.
  rewrite !Header_update_network, WriteHeader_network, Write_network.
  reflexivity.
Qed.

(** A request whose path no route lists is answered 404 by the proxy handler
    without any outbound call: the clock has not moved and the state left is
    the same whatever network is behind the gateway. *)
Theorem proxyHandler_unrouted (routes : list config.RouteConfig)
  (w : ResponseWriter) (r : http.Request) (σ : World) :
  Forall (fun route => config.Path route <> http.URL_Path r) routes ->
  http.sent (response σ) = None ->
  http.status (response (proxyHandler routes w r σ)) = Some 404
  /\ now (proxyHandler routes w r σ) = now σ
  /\ forall net,
       proxyHandler routes w r (set_network net σ)
       = set_network net (proxyHandler routes w r σ).
Proof.
  intros Hnone Hsent.
  assert (Htarget : lookupTarget routes (http.URL_Path r) = "")
    by (apply lookupTarget_no_match, Hnone).
  unfold proxyHandler. rewrite Htarget. cbn [String.eqb].
  split; [| split].
  - unfold http.status. rewrite http_Error_sent by exact Hsent. reflexivity.
  - destruct (http_Error_fields w "404 Route Not Found" http.StatusNotFound σ)
      as (-> & _). reflexivity.
  - intros net. apply http_Error_network.
Qed.

Lemma proxyHandler_unrouted_witness :
  http.status
    (response
       (proxyHandler (config.Routes Example.cfg) connWriter
          (Example.request "/nowhere")
          (main_world Example.cfg 0 0 (Example.backend 5))))
  = Some 404.
Proof.
  refine (proj1 (proxyHandler_unrouted (config.Routes Example.cfg) connWriter
                   (Example.request "/nowhere")
                   (main_world Example.cfg 0 0 (Example.backend 5)) _ _)).
  - repeat constructor; cbn; discriminate.
  - reflexivity.
Defined.

Lemma proxyHandler_relay_state (routes : list config.RouteConfig)
  (w : ResponseWriter) (r : http.Request) (σ : World)
  (resp : BackendResponse) :
  let target := lookupTarget routes (http.URL_Path r) in
  let trip := Do (network σ) (http.Method r) target (http.ReqHeader r)
                (http.Body r) in
  target <> "" ->
  newRequestFails (network σ) (http.Method r) target = false ->
  result trip = Some resp ->
  (forall d, http.ctxDeadline r = Some d -> now σ + latency trip < d) ->
  http.sent (response σ) = None ->
  http.sent (response (proxyHandler routes w r σ))
  = Some (RespStatus resp, RespHeader resp ∪ http.header (response σ))
  /\ now (proxyHandler routes w r σ) = now σ + latency trip
  /\ http.body (response (proxyHandler routes w r σ))
     = http.body (response σ) ++ [RespBody resp]
       ++ (if copyFails resp
           then ["Failed to copy response body"
                   +:+ String (ascii_of_nat 10) EmptyString]
           else []).
Proof.
  intros target trip Htarget Hnew Hres Hdead Hsent.
  unfold proxyHandler. fold target.
  apply String.eqb_neq in Htarget. rewrite Htarget, Hnew. fold trip.
  assert (Hcancel :
            match http.ctxDeadline r with
            | Some d => if d <=? now σ + latency trip then Some d else None
            | None => None
            end = None).
  { destruct (http.ctxDeadline r) as [d |]; [| reflexivity].
    specialize (Hdead d eq_refl).
    destruct (Z.leb_spec d (now σ + latency trip)); [lia | reflexivity]. }
  rewrite Hcancel, Hres.
  set (σ1 := set_now (now σ + latency trip) σ).
  set (σ2 := Header_update w (fun h => RespHeader resp ∪ h) σ1).
  set (σ3 := WriteHeader w (RespStatus resp) σ2).
  set (σ4 := Write w (RespBody resp) σ3).
  assert (H4 : response σ4
               = http.mkResponse (RespHeader resp ∪ http.header (response σ))
                   (Some (RespStatus resp,
                          RespHeader resp ∪ http.header (response σ)))
                   (http.body (response σ) ++ [RespBody resp])).
  { subst σ4 σ3 σ2 σ1.
    destruct (Write_fields w (RespBody resp)
      (WriteHeader w (RespStatus resp)
         (Header_update w (fun h => RespHeader resp ∪ h)
            (set_now (now σ + latency trip) σ)))) as (-> & _).
    destruct (WriteHeader_fields w (RespStatus resp)
      (Header_update w (fun h => RespHeader resp ∪ h)
         (set_now (now σ + latency trip) σ))) as (-> & _).
    destruct (Header_update_fields w (fun h => RespHeader resp ∪ h)
      (set_now (now σ + latency trip) σ)) as (-> & _).
    cbn [response set_now].
    unfold http.conn_Write, http.conn_WriteHeader, http.conn_mapHeader.
    cbn [http.sent http.header http.body]. rewrite Hsent.
    cbn [http.sent http.header http.body]. reflexivity. }
  assert (Hnow4 : now σ4 = now σ + latency trip).
  { subst σ4 σ3 σ2 σ1.
    destruct (Write_fields w (RespBody resp)
      (WriteHeader w (RespStatus resp)
         (Header_update w (fun h => RespHeader resp ∪ h)
            (set_now (now σ + latency trip) σ)))) as (_ & -> & _).
    destruct (WriteHeader_fields w (RespStatus resp)
      (Header_update w (fun h => RespHeader resp ∪ h)
         (set_now (now σ + latency trip) σ))) as (_ & -> & _).
    destruct (Header_update_fields w (fun h => RespHeader resp ∪ h)
      (set_now (now σ + latency trip) σ)) as (_ & -> & _).
    reflexivity. }
  destruct (copyFails resp).
  - split; [| split].
    + unfold http_Error.
      match goal with
      | |- context [Write w ?d ?s] =>
          destruct (Write_fields w d s) as (-> & _)
      end.
      match goal with
      | |- context [WriteHeader w ?c ?s] =>
          destruct (WriteHeader_fields w c s) as (-> & _)
      end.
      repeat match goal with
      | |- context [response (Header_update ?w ?f ?s)] =>
          destruct (Header_update_fields w f s) as (-> & _)
      end.
      rewrite H4.
      unfold http.conn_Write, http.conn_WriteHeader, http.conn_mapHeader.
      cbn [http.sent http.header http.body]. reflexivity.
    + destruct (http_Error_fields w "Failed to copy response body"
                  http.StatusBadGateway σ4) as (-> & _). exact Hnow4.
    + rewrite http_Error_body, H4. cbn [http.body].
      rewrite <- app_assoc. reflexivity.
  - split; [| split].
    + rewrite H4. reflexivity.
    + exact Hnow4.
    + rewrite H4. cbn [http.body]. rewrite app_nil_r. reflexivity.
Qed.

(** The relay. A request with a route, an outbound request that can be
    built, no deadline before the answer and a backend that answers: the
    client is sent the backend's status, with the backend's header over what
    the header map held, the clock has moved by the latency, and the body is
    the backend's. When copying the body breaks off, the status sent is still
    the backend's, not 502: the error text is appended to the body. *)
Theorem proxyHandler_relay (routes : list config.RouteConfig)
  (w : ResponseWriter) (r : http.Request) (σ : World)
  (resp : BackendResponse) :
  let target := lookupTarget routes (http.URL_Path r) in
  let trip := Do (network σ) (http.Method r) target (http.ReqHeader r)
                (http.Body r) in
  target <> "" ->
  newRequestFails (network σ) (http.Method r) target = false ->
  result trip = Some resp ->
  (forall d, http.ctxDeadline r = Some d -> now σ + latency trip < d) ->
  http.sent (response σ) = None ->
  http.sent (response (proxyHandler routes w r σ))
  = Some (RespStatus resp, RespHeader resp ∪ http.header (response σ))
  /\ now (proxyHandler routes w r σ) = now σ + latency trip
  /\ http.body (response (proxyHandler routes w r σ))
     = http.body (response σ) ++ [RespBody resp]
       ++ (if copyFails resp
           then ["Failed to copy response body"
                   +:+ String (ascii_of_nat 10) EmptyString]
           else []).
Proof.
  intros target trip Htarget Hnew Hres Hdead Hsent.
  exact (proxyHandler_relay_state routes w r σ resp Htarget Hnew Hres Hdead
           Hsent).
Qed.

Lemma proxyHandler_relay_witness :
  http.status
    (response
       (proxyHandler (config.Routes Example.cfg) connWriter
          (Example.request "/api/a")
          (main_world Example.cfg 0 0 (Example.backend 5))))
  = Some 200.
Proof.
  destruct (proxyHandler_relay (config.Routes Example.cfg) connWriter
              (Example.request "/api/a")
              (main_world Example.cfg 0 0 (Example.backend 5))
              (mkBackendResponse 200 ∅ "hello" false)) as (Hsent & _).
  - vm_compute. discriminate.
  - reflexivity.
  - reflexivity.
  - intros d Hd. discriminate Hd.
  - reflexivity.
  - unfold http.status. rewrite Hsent. reflexivity.
Defined.



(** ** Loading the configuration *)

(** [loadConfig] leaves no default unset: the port is not empty, and neither
    the global capacity and rate nor the timeout is zero; it changes no value
    the file gave, a negative one included, nor any list; and a configuration
    it has completed is left as it is. *)
Theorem loadConfig_defaults (parsed : config.Config) :
  let cfg := config.loadConfig parsed in
  config.Port cfg <> ""
  /\ config.Cap (config.GlobalRateLimit cfg) <> 0
  /\ config.Rate (config.GlobalRateLimit cfg) <> 0
  /\ config.Timeout cfg <> 0
  /\ (config.Port parsed <> "" -> config.Port cfg = config.Port parsed)
  /\ (config.Cap (config.GlobalRateLimit parsed) <> 0 ->
      config.Cap (config.GlobalRateLimit cfg)
      = config.Cap (config.GlobalRateLimit parsed))
  /\ (config.Rate (config.GlobalRateLimit parsed) <> 0 ->
      config.Rate (config.GlobalRateLimit cfg)
      = config.Rate (config.GlobalRateLimit parsed))
  /\ (config.Timeout parsed <> 0 -> config.Timeout cfg = config.Timeout parsed)
  /\ config.ApiKeys cfg = config.ApiKeys parsed
  /\ config.NoAuthRoutes cfg = config.NoAuthRoutes parsed
  /\ config.Routes cfg = config.Routes parsed
  /\ config.loadConfig cfg = cfg.
Proof.
  destruct parsed as [port keys open routes [cap rate] timeout].
  cbv zeta. unfold config.loadConfig.
  cbn [config.Port config.ApiKeys config.NoAuthRoutes config.Routes
       config.GlobalRateLimit config.Cap config.Rate config.Timeout].
  destruct (String.eqb_spec port "") as [Hp | Hp];
    destruct (Z.eqb_spec cap 0) as [Hc | Hc];
    destruct (Z.eqb_spec rate 0) as [Hr | Hr];
    destruct (Z.eqb_spec timeout 0) as [Ht | Ht];
    repeat match goal with
    | |- _ /\ _ => split
    | |- _ -> _ => intro
    | |- _ <> _ => first [assumption | discriminate | vm_compute; discriminate]
    end;
    try congruence; try reflexivity;
    repeat match goal with
    | |- context [String.eqb ?a ?b] =>
        destruct (String.eqb_spec a b); try congruence
    | |- context [Z.eqb ?a ?b] =>
        destruct (Z.eqb_spec a b); try congruence; try discriminate
    end; try reflexivity.
Qed.

Lemma loadConfig_defaults_witness :
  config.Timeout
    (config.loadConfig
       (config.mkConfig ":9000" [] [] []
          (config.mkGlobalRateLimitConfig (-4) 0) (-5)))
  = -5
  /\ config.GlobalRateLimit
       (config.loadConfig
          (config.mkConfig ":9000" [] [] []
             (config.mkGlobalRateLimitConfig (-4) 0) (-5)))
     = config.mkGlobalRateLimitConfig (-4) 1.
Proof.
  destruct (loadConfig_defaults
              (config.mkConfig ":9000" [] [] []
                 (config.mkGlobalRateLimitConfig (-4) 0) (-5)))
    as (_ & _ & _ & _ & _ & Hcap & _ & Htimeout & _).
  split; [apply Htimeout; discriminate |].
  specialize (Hcap ltac:(discriminate)). cbn in Hcap |- *.
  reflexivity.
Defined.

(** ** The authentication stage *)

Lemma AuthMiddleware_stops (cfg : config.Config) (next next' : Handler)
  (w : ResponseWriter) (r : http.Request) (σ : World) :
  http.URL_Path r ∉ config.NoAuthRoutes cfg ->
  http.Header_Get (http.ReqHeader r) "X-API-Key" = ""
  \/ http.Header_Get (http.ReqHeader r) "X-API-Key" ∉ config.ApiKeys cfg ->
  AuthMiddleware cfg next' w r σ = AuthMiddleware cfg next w r σ.
Proof.
  intros Hexempt Hbad. unfold AuthMiddleware.
  rewrite bool_decide_eq_false_2
    by (intros H; apply elem_of_list_to_set in H; exact (Hexempt H)).
  destruct (String.eqb_spec
              (http.Header_Get (http.ReqHeader r) "X-API-Key") "")
    as [Hempty | Hkey]; [reflexivity |].
  destruct Hbad as [Hbad | Hbad]; [contradiction |].
  rewrite bool_decide_eq_false_2
    by (intros H; apply elem_of_list_to_set in H; exact (Hbad H)).
  reflexivity.
Qed.

(** A request is let through in two cases only: its path is exempt, whatever
    key it carries; or it carries a key that is not empty and is listed. The
    second case is logged, the first is not. In every other case, a path
    that is not exempt with a key that is empty or not listed, [next] is not
    run: the state the stage leaves is the same whatever [next] is, and it
    differs from [σ] by the rejection it logs. *)
Theorem AuthMiddleware_admits (cfg : config.Config) (next : Handler)
  (w : ResponseWriter) (r : http.Request) (σ : World) :
  let apiKey := http.Header_Get (http.ReqHeader r) "X-API-Key" in
  (http.URL_Path r ∈ config.NoAuthRoutes cfg ->
   AuthMiddleware cfg next w r σ = next w r σ)
  /\ (http.URL_Path r ∉ config.NoAuthRoutes cfg ->
      apiKey <> "" ->
      apiKey ∈ config.ApiKeys cfg ->
      AuthMiddleware cfg next w r σ
      = next w r
          (logPrintf (LogAuthOK (http.Method r) (http.URL_Path r) apiKey) σ))
  /\ (http.URL_Path r ∉ config.NoAuthRoutes cfg ->
      apiKey = "" \/ apiKey ∉ config.ApiKeys cfg ->
      (forall next' : Handler,
         AuthMiddleware cfg next' w r σ = AuthMiddleware cfg next w r σ)
      /\ exists entry,
           logs (AuthMiddleware cfg next w r σ) = logs σ ++ [entry]
           /\ entry
              = (if String.eqb apiKey ""
                 then LogAuthMissing (http.Method r) (http.URL_Path r)
                 else LogAuthInvalid (http.Method r) (http.URL_Path r)
                        apiKey)).
Proof.
  intros apiKey. split; [| split].
  - intros Hexempt. unfold AuthMiddleware.
    rewrite bool_decide_eq_true_2 by (apply elem_of_list_to_set, Hexempt).
    reflexivity.
  - intros Hexempt Hkey Hlisted. unfold AuthMiddleware.
    rewrite bool_decide_eq_false_2
      by (intros H; apply elem_of_list_to_set in H; exact (Hexempt H)).
    fold apiKey. apply String.eqb_neq in Hkey. rewrite Hkey.
    rewrite bool_decide_eq_true_2 by (apply elem_of_list_to_set, Hlisted).
    reflexivity.
  - intros Hexempt Hbad. split.
    + intros next'. apply AuthMiddleware_stops; assumption.
    + unfold AuthMiddleware.
      rewrite bool_decide_eq_false_2
        by (intros H; apply elem_of_list_to_set in H; exact (Hexempt H)).
      fold apiKey.
      destruct (String.eqb_spec apiKey "") as [Hempty | Hkey].
      * eexists. split; [| reflexivity]. cbn [logs logPrintf].
        destruct (http_Error_fields w "401 Unauthorized: Missing X-API-Key"
                    http.StatusUnauthorized
                    (Header_update w
                       (http.Header_Set "WWW-Authenticate" "X-API-Key") σ))
          as (_ & _ & _ & -> & _).
        destruct (Header_update_fields w
                    (http.Header_Set "WWW-Authenticate" "X-API-Key") σ)
          as (_ & _ & _ & _ & _ & -> & _).
        reflexivity.
      * destruct Hbad as [Hbad | Hbad]; [contradiction |].
        rewrite bool_decide_eq_false_2
          by (intros H; apply elem_of_list_to_set in H; exact (Hbad H)).
        eexists. split; [| reflexivity]. cbn [logs logPrintf].
        destruct (http_Error_fields w "401 Unauthorized: Invalid X-API-Key"
                    http.StatusUnauthorized σ) as (_ & _ & _ & -> & _).
        reflexivity.
Qed.

Lemma AuthMiddleware_admits_witness :
  AuthMiddleware Example.cfg (proxyHandler []) connWriter
    (http.mkRequest "GET" "/api/open" {["X-Api-Key" := ["wrong"]]} "" None)
    (main_world Example.cfg 0 0 (Example.backend 0))
  = proxyHandler [] connWriter
      (http.mkRequest "GET" "/api/open" {["X-Api-Key" := ["wrong"]]} "" None)
      (main_world Example.cfg 0 0 (Example.backend 0)).
Proof.
  apply (proj1 (AuthMiddleware_admits Example.cfg (proxyHandler []) connWriter
                  (http.mkRequest "GET" "/api/open"
                     {["X-Api-Key" := ["wrong"]]} "" None)
                  (main_world Example.cfg 0 0 (Example.backend 0)))).
  cbn. apply list_elem_of_here.
Defined.

Lemma AuthMiddleware_reject_state (cfg : config.Config) (next : Handler)
  (w : ResponseWriter) (r : http.Request) (σ : World) :
  let apiKey := http.Header_Get (http.ReqHeader r) "X-API-Key" in
  let out := AuthMiddleware cfg next w r σ in
  http.URL_Path r ∉ config.NoAuthRoutes cfg ->
  apiKey = "" \/ apiKey ∉ config.ApiKeys cfg ->
  http.sent (response σ) = None ->
  (forall next', AuthMiddleware cfg next' w r σ = out)
  /\ routeLimiters out = routeLimiters σ
  /\ globalLimiter out = globalLimiter σ
  /\ now out = now σ
  /\ exists h,
       http.sent (response out) = Some (401, h)
       /\ h !! "Www-Authenticate"
          = (if String.eqb apiKey "" then Some ["X-API-Key"]
             else http.header (response σ) !! "Www-Authenticate")
       /\ h !! "Access-Control-Allow-Origin"
          = http.header (response σ) !! "Access-Control-Allow-Origin".
Proof.
  intros apiKey out Hexempt Hbad Hsent. subst out.
  assert (Hunfold : forall next',
    AuthMiddleware cfg next' w r σ
    = if String.eqb apiKey "" then
        logPrintf (LogAuthMissing (http.Method r) (http.URL_Path r))
          (http_Error w "401 Unauthorized: Missing X-API-Key" 401
             (Header_update w
                (http.Header_Set "WWW-Authenticate" "X-API-Key") σ))
      else
        logPrintf (LogAuthInvalid (http.Method r) (http.URL_Path r) apiKey)
          (http_Error w "401 Unauthorized: Invalid X-API-Key" 401 σ)).
  { intros next'. unfold AuthMiddleware.
    rewrite bool_decide_eq_false_2
      by (intros H; apply elem_of_list_to_set in H; exact (Hexempt H)).
    fold apiKey. destruct (String.eqb_spec apiKey "") as [Hempty | Hkey];
      [reflexivity |].
    destruct Hbad as [Hbad | Hbad]; [contradiction |].
    rewrite bool_decide_eq_false_2
      by (intros H; apply elem_of_list_to_set in H; exact (Hbad H)).
    reflexivity. }
  split; [intros next'; rewrite !Hunfold; reflexivity |].
  rewrite Hunfold. clear Hunfold.
  change (http.CanonicalMIMEHeaderKey "WWW-Authenticate")
    with "Www-Authenticate" in *.
  destruct (String.eqb apiKey "").
  - cbn [routeLimiters globalLimiter now response logPrintf].
    destruct (http_Error_fields w "401 Unauthorized: Missing X-API-Key" 401
                (Header_update w
                   (http.Header_Set "WWW-Authenticate" "X-API-Key") σ))
      as (-> & -> & -> & _).
    destruct (Header_update_fields w
                (http.Header_Set "WWW-Authenticate" "X-API-Key") σ)
      as (Hresp & -> & -> & -> & _).
    repeat split.
    rewrite http_Error_sent by (rewrite Hresp; exact Hsent).
    eexists. split; [reflexivity |]. rewrite Hresp.
    unfold http.Header_Set, http.Header_Del, http.conn_mapHeader.
    cbn [http.header].
    change (http.CanonicalMIMEHeaderKey "X-Content-Type-Options")
      with "X-Content-Type-Options".
    change (http.CanonicalMIMEHeaderKey "Content-Type") with "Content-Type".
    change (http.CanonicalMIMEHeaderKey "Content-Length")
      with "Content-Length".
    change (http.CanonicalMIMEHeaderKey "WWW-Authenticate")
      with "Www-Authenticate".
    split.
    + rewrite !lookup_insert_ne by discriminate.
      rewrite lookup_delete_ne by discriminate.
      apply lookup_insert_eq.
    + rewrite !lookup_insert_ne by discriminate.
      rewrite lookup_delete_ne by discriminate.
      rewrite lookup_insert_ne by discriminate. reflexivity.
  - cbn [routeLimiters globalLimiter now response logPrintf].
    destruct (http_Error_fields w "401 Unauthorized: Invalid X-API-Key" 401 σ)
      as (-> & -> & -> & _).
    repeat split.
    rewrite http_Error_sent by exact Hsent.
    eexists. split; [reflexivity |].
    unfold http.Header_Set, http.Header_Del.
    change (http.CanonicalMIMEHeaderKey "X-Content-Type-Options")
      with "X-Content-Type-Options".
    change (http.CanonicalMIMEHeaderKey "Content-Type") with "Content-Type".
    change (http.CanonicalMIMEHeaderKey "Content-Length")
      with "Content-Length".
    split.
    + rewrite !lookup_insert_ne by discriminate.
      rewrite lookup_delete_ne by discriminate. reflexivity.
    + rewrite !lookup_insert_ne by discriminate.
      rewrite lookup_delete_ne by discriminate. reflexivity.
Qed.

(** Any other request is answered 401 and goes no further: the state left is
    the same whatever [next] is, no bucket and no clock has changed, and an
    empty key is refused even when the list of keys holds the empty string.
    Only the answer to a missing key carries the [WWW-Authenticate] hint. *)
Theorem AuthMiddleware_rejects (cfg : config.Config) (next : Handler)
  (w : ResponseWriter) (r : http.Request) (σ : World) :
  let apiKey := http.Header_Get (http.ReqHeader r) "X-API-Key" in
  let out := AuthMiddleware cfg next w r σ in
  http.URL_Path r ∉ config.NoAuthRoutes cfg ->
  apiKey = "" \/ apiKey ∉ config.ApiKeys cfg ->
  http.sent (response σ) = None ->
  (forall next', AuthMiddleware cfg next' w r σ = out)
  /\ routeLimiters out = routeLimiters σ
  /\ globalLimiter out = globalLimiter σ
  /\ now out = now σ
  /\ exists h,
       http.sent (response out) = Some (401, h)
       /\ h !! "Www-Authenticate"
          = (if String.eqb apiKey "" then Some ["X-API-Key"]
             else http.header (response σ) !! "Www-Authenticate").
Proof.
  intros apiKey out Hexempt Hbad Hsent.
  destruct (AuthMiddleware_reject_state cfg next w r σ Hexempt Hbad Hsent)
    as (Hnext & Hroute & Hglobal & Hnow & h & Hh & Hhint & _).
  repeat split; try assumption.
  exists h. split; assumption.
Qed.

(** A key of the right letters in the wrong list: the empty key is refused
    though the list holds the empty string. *)
Lemma AuthMiddleware_rejects_witness :
  exists h,
    http.sent
      (response
         (AuthMiddleware
            (config.mkConfig ":1" [""; "k1"] [] []
               (config.mkGlobalRateLimitConfig 3 1) 1)
            (proxyHandler []) connWriter
            (http.mkRequest "GET" "/api/a" ∅ "" None)
            (main_world Example.cfg 0 0 (Example.backend 0))))
    = Some (401, h)
    /\ h !! "Www-Authenticate" = Some ["X-API-Key"].
Proof.
  destruct (AuthMiddleware_rejects
              (config.mkConfig ":1" [""; "k1"] [] []
                 (config.mkGlobalRateLimitConfig 3 1) 1)
              (proxyHandler []) connWriter
              (http.mkRequest "GET" "/api/a" ∅ "" None)
              (main_world Example.cfg 0 0 (Example.backend 0)))
    as (_ & _ & _ & _ & h & Hh & Hhint).
  - cbn. apply not_elem_of_nil.
  - left. reflexivity.
  - reflexivity.
  - exists h. split; [exact Hh | exact Hhint].
Defined.

Lemma AuthMiddleware_pass cfg next w r σ :
  authorized cfg r = true ->
  AuthMiddleware cfg next w r σ = next w r (afterAuth cfg r σ).
Proof.
  unfold authorized, afterAuth, AuthMiddleware. intros Hauth.
  assert (Hset : forall (x : string) (l : list string),
            bool_decide (x ∈ (list_to_set l : gset string))
            = bool_decide (x ∈ l)).
  { intros x l. apply bool_decide_ext, elem_of_list_to_set. }
  rewrite !Hset.
  destruct (bool_decide (http.URL_Path r ∈ config.NoAuthRoutes cfg));
    [reflexivity |].
  cbn [orb] in Hauth. apply andb_prop in Hauth as [Hkey Hin].
  apply negb_true_iff in Hkey. rewrite Hkey, Hin. reflexivity.
Qed.

Lemma afterAuth_fields cfg r σ :
  response (afterAuth cfg r σ) = response σ
  /\ now (afterAuth cfg r σ) = now σ
  /\ routeLimiters (afterAuth cfg r σ) = routeLimiters σ
  /\ globalLimiter (afterAuth cfg r σ) = globalLimiter σ
  /\ wrappers (afterAuth cfg r σ) = wrappers σ
  /\ network (afterAuth cfg r σ) = network σ.
Proof. unfold afterAuth. destruct (bool_decide _); repeat split. Qed.

(** ** The CORS stage *)

Lemma corsHeader_lookup (h : http.Header) :
  corsHeader h !! "Access-Control-Allow-Origin" = Some ["*"]
  /\ corsHeader h !! "Access-Control-Allow-Methods"
     = Some ["GET, POST, PUT, DELETE, OPTIONS"]
  /\ corsHeader h !! "Access-Control-Allow-Headers"
     = Some ["Content-Type, Authorization"].
Proof.
  unfold corsHeader, http.Header_Set.
  change (http.CanonicalMIMEHeaderKey "Access-Control-Allow-Origin")
    with "Access-Control-Allow-Origin".
  change (http.CanonicalMIMEHeaderKey "Access-Control-Allow-Methods")
    with "Access-Control-Allow-Methods".
  change (http.CanonicalMIMEHeaderKey "Access-Control-Allow-Headers")
    with "Access-Control-Allow-Headers".
  repeat split.
  - rewrite !lookup_insert_ne by discriminate. apply lookup_insert_eq.
  - rewrite lookup_insert_ne by discriminate. apply lookup_insert_eq.
  - apply lookup_insert_eq.
Qed.

Lemma CORSAMiddleware_unfold next w r σ :
  CORSAMiddleware next w r σ
  = if String.eqb (http.Method r) http.MethodOptions
    then WriteHeader w http.StatusOK (corsState w σ)
    else next w r (corsState w σ).
Proof. reflexivity. Qed.

Lemma corsState_fields w σ :
  response (corsState w σ) = http.conn_mapHeader corsHeader (response σ)
  /\ now (corsState w σ) = now σ
  /\ routeLimiters (corsState w σ) = routeLimiters σ
  /\ globalLimiter (corsState w σ) = globalLimiter σ
  /\ wrappers (corsState w σ) = wrappers σ
  /\ logs (corsState w σ) = logs σ
  /\ network (corsState w σ) = network σ.
Proof.
  unfold corsState.
  repeat match goal with
  | |- context [Header_update ?w ?f ?s] =>
      destruct (Header_update_fields w f s) as (-> & -> & -> & -> & -> & -> & ->)
  end.
  repeat split.
Qed.

(** The CORS stage answers a preflight itself: an [OPTIONS] request gets
    status 200 with the three [Access-Control-Allow-*] headers and no body,
    [next] is not invoked and neither clock nor bucket changes. Any other
    request is handed to [next] with the three headers in the header map. *)
Theorem CORSAMiddleware_preflight (next : Handler) (w : ResponseWriter)
  (r : http.Request) (σ : World) :
  (http.Method r = "OPTIONS" ->
   (forall next', CORSAMiddleware next' w r σ = CORSAMiddleware next w r σ)
   /\ (http.sent (response σ) = None ->
       http.sent (response (CORSAMiddleware next w r σ))
       = Some (200, corsHeader (http.header (response σ))))
   /\ http.body (response (CORSAMiddleware next w r σ))
      = http.body (response σ)
   /\ now (CORSAMiddleware next w r σ) = now σ
   /\ routeLimiters (CORSAMiddleware next w r σ) = routeLimiters σ
   /\ globalLimiter (CORSAMiddleware next w r σ) = globalLimiter σ)
  /\ (http.Method r <> "OPTIONS" ->
      CORSAMiddleware next w r σ = next w r (corsState w σ)
      /\ response (corsState w σ)
         = http.conn_mapHeader corsHeader (response σ))
  /\ corsHeader (http.header (response σ)) !! "Access-Control-Allow-Origin"
     = Some ["*"]
  /\ corsHeader (http.header (response σ)) !! "Access-Control-Allow-Methods"
     = Some ["GET, POST, PUT, DELETE, OPTIONS"]
  /\ corsHeader (http.header (response σ)) !! "Access-Control-Allow-Headers"
     = Some ["Content-Type, Authorization"].
Proof.
  split; [| split; [| apply corsHeader_lookup]].
  - intros Hm. rewrite CORSAMiddleware_unfold.
    split; [intros next'; rewrite CORSAMiddleware_unfold |];
      unfold http.MethodOptions; rewrite Hm;
      cbn [String.eqb Ascii.eqb Bool.eqb]; [reflexivity |].
    destruct (WriteHeader_fields w http.StatusOK (corsState w σ))
      as (-> & -> & -> & -> & _).
    destruct (corsState_fields w σ) as (-> & -> & -> & -> & _).
    unfold http.conn_WriteHeader, http.conn_mapHeader.
    cbn [http.sent http.header http.body].
    repeat split.
    + intros Hsent. rewrite Hsent. reflexivity.
    + destruct (http.sent (response σ)); reflexivity.
  - intros Hm. rewrite CORSAMiddleware_unfold.
    apply String.eqb_neq in Hm. unfold http.MethodOptions. rewrite Hm.
    split; [reflexivity | apply corsState_fields].
Qed.

Lemma CORSAMiddleware_preflight_witness :
  http.sent
    (response
       (CORSAMiddleware (proxyHandler []) connWriter
          (http.mkRequest "OPTIONS" "/x" ∅ "" None)
          (main_world Example.cfg 0 0 (Example.backend 0))))
  = Some (200, corsHeader ∅).
Proof.
  destruct (CORSAMiddleware_preflight (proxyHandler []) connWriter
              (http.mkRequest "OPTIONS" "/x" ∅ "" None)
              (main_world Example.cfg 0 0 (Example.backend 0)))
    as (Hopt & _).
  destruct (Hopt eq_refl) as (_ & Hsent & _).
  apply Hsent. reflexivity.
Defined.

(** ** The gateway as [main] builds it *)

Lemma main_handler_stages cfg :
  main_handler cfg
  = Some (AuthMiddleware cfg
            (RateLimitMiddleware
               (CORSAMiddleware
                  (TimeoutMiddleware (3 * Time.Second)
                     (LogMiddleware (proxyHandler (config.Routes cfg))))))).
Proof. reflexivity. Qed.

Lemma limiterAllow_afterAuth cfg r σ :
  limiterAllow (afterAuth cfg r σ) r
  = (fst (limiterAllow σ r), afterAuth cfg r (snd (limiterAllow σ r))).
Proof.
  unfold afterAuth. destruct (bool_decide _); [apply surjective_pairing |].
  unfold limiterAllow, selectLimiter. cbn [routeLimiters globalLimiter logPrintf now].
  destruct (findLimiter (routeLimiters σ) (http.URL_Path r)) as [tb |];
    match goal with
    | |- context [Allow ?b ?t] => destruct (Allow b t)
    end; reflexivity.
Qed.

(** An unauthenticated request never gets past the first stage of the
    gateway: it is answered 401, no bucket is charged for it, the backend is
    not called (the clock has not moved), and the answer carries no CORS
    header, the CORS stage coming later in the chain. *)
Theorem gateway_unauthenticated (cfg : config.Config) (r : http.Request)
  (t : Time.Time) (σ : World) :
  let apiKey := http.Header_Get (http.ReqHeader r) "X-API-Key" in
  http.URL_Path r ∉ config.NoAuthRoutes cfg ->
  apiKey = "" \/ apiKey ∉ config.ApiKeys cfg ->
  exists h, main_handler cfg = Some h
    /\ (exists hd,
          http.sent (response (serve h r t σ)) = Some (401, hd)
          /\ hd !! "Access-Control-Allow-Origin" = None)
    /\ routeLimiters (serve h r t σ) = routeLimiters σ
    /\ globalLimiter (serve h r t σ) = globalLimiter σ
    /\ now (serve h r t σ) = t.
Proof.
  intros apiKey Hexempt Hbad. eexists. split; [apply main_handler_stages |].
  unfold serve.
  edestruct (AuthMiddleware_reject_state cfg) as
    (_ & Hroute & Hglobal & Hnow & hd & Hsent & _ & Hcors);
    [exact Hexempt | exact Hbad | | ].
  2: { rewrite Hroute, Hglobal, Hnow. split; [| repeat split].
       exists hd. split; [exact Hsent |].
       rewrite Hcors. reflexivity. }
  reflexivity.
Qed.

Lemma gateway_unauthenticated_witness :
  exists h, main_handler Example.cfg = Some h
    /\ http.status
         (response
            (serve h (http.mkRequest "OPTIONS" "/api/a" ∅ "" None) 9
               (main_world Example.cfg 0 0 (Example.backend 0))))
       = Some 401.
Proof.
  destruct (gateway_unauthenticated Example.cfg
              (http.mkRequest "OPTIONS" "/api/a" ∅ "" None) 9
              (main_world Example.cfg 0 0 (Example.backend 0)))
    as (h & Hh & (hd & Hsent & _) & _).
  - cbn. intros H. apply list_elem_of_singleton in H. discriminate H.
  - left. reflexivity.
  - exists h. split; [exact Hh |]. unfold http.status. rewrite Hsent. reflexivity.
Defined.

(** A request that is let through and then denied by its bucket is answered
    429 with [Retry-After: 1] by the gateway, without any CORS header and
    without a call to the backend. *)
Theorem gateway_rate_limited (cfg : config.Config) (r : http.Request)
  (t : Time.Time) (σ : World) :
  authorized cfg r = true ->
  fst (limiterAllow (arrival t σ) r) = false ->
  exists h, main_handler cfg = Some h
    /\ (exists hd,
          http.sent (response (serve h r t σ)) = Some (429, hd)
          /\ hd !! "Retry-After" = Some ["1"]
          /\ hd !! "Access-Control-Allow-Origin" = None)
    /\ now (serve h r t σ) = t.
Proof.
  intros Hauth Hdenied. eexists. split; [apply main_handler_stages |].
  unfold serve. fold (arrival t σ).
  rewrite (AuthMiddleware_pass _ _ _ _ _ Hauth).
  rewrite RateLimitMiddleware_unfold, limiterAllow_afterAuth.
  cbn [fst snd]. rewrite Hdenied.
  set (σ1 := afterAuth cfg r (snd (limiterAllow (arrival t σ) r))).
  assert (Hresp1 : response σ1 = http.newResponse).
  { subst σ1. destruct (afterAuth_fields cfg r (snd (limiterAllow (arrival t σ) r)))
      as (-> & _).
    destruct (limiterAllow_fields (arrival t σ) r) as (-> & _). reflexivity. }
  assert (Hnow1 : now σ1 = t).
  { subst σ1. destruct (afterAuth_fields cfg r (snd (limiterAllow (arrival t σ) r)))
      as (_ & -> & _).
    destruct (limiterAllow_fields (arrival t σ) r) as (_ & -> & _). reflexivity. }
  cbn [response now logPrintf].
  destruct (http_Error_fields connWriter "429 Too Many Requests"
              http.StatusTooManyRequests
              (Header_update connWriter (http.Header_Set "Retry-After" "1") σ1))
    as (-> & _).
  split; [| cbn [Header_update now set_response]; exact Hnow1].
  rewrite http_Error_sent; cbn [Header_update response set_response];
    rewrite Hresp1; [| reflexivity].
  eexists. split; [reflexivity |].
  cbn [http.conn_mapHeader http.header http.newResponse].
  unfold http.Header_Set, http.Header_Del.
  change (http.CanonicalMIMEHeaderKey "X-Content-Type-Options")
    with "X-Content-Type-Options".
  change (http.CanonicalMIMEHeaderKey "Content-Type") with "Content-Type".
  change (http.CanonicalMIMEHeaderKey "Content-Length") with "Content-Length".
  change (http.CanonicalMIMEHeaderKey "Retry-After") with "Retry-After".
  split.
  - rewrite !lookup_insert_ne by discriminate.
    rewrite lookup_delete_ne by discriminate. apply lookup_insert_eq.
  - rewrite !lookup_insert_ne by discriminate.
    rewrite lookup_delete_ne by discriminate.
    rewrite lookup_insert_ne by discriminate. apply lookup_empty.
Qed.

(** A request the shared bucket denies: no key is needed on the exempt path,
    and the bucket, made at clock 0 with one token, was emptied. *)
Lemma gateway_rate_limited_witness :
  exists h, main_handler Example.cfg = Some h
    /\ http.status
         (response
            (serve h (Example.request "/api/open") 9
               (set_globalLimiter (mkTokenBucket 1 1 Time.Second 0 0)
                  (main_world Example.cfg 0 0 (Example.backend 0)))))
       = Some 429.
Proof.
  destruct (gateway_rate_limited Example.cfg (Example.request "/api/open") 9
              (set_globalLimiter (mkTokenBucket 1 1 Time.Second 0 0)
                 (main_world Example.cfg 0 0 (Example.backend 0))))
    as (h & Hh & (hd & Hsent & _) & _).
  - vm_compute. reflexivity.
  - vm_compute. reflexivity.
  - exists h. split; [exact Hh |]. unfold http.status. rewrite Hsent. reflexivity.
Defined.

(** A preflight goes through authentication and the rate limit before the
    CORS stage answers it: an [OPTIONS] request that is let through and
    allowed by its bucket is answered 200 with the CORS headers and no body,
    the backend is not called, and the bucket is charged for it. *)
Theorem gateway_preflight (cfg : config.Config) (r : http.Request)
  (t : Time.Time) (σ : World) :
  authorized cfg r = true ->
  fst (limiterAllow (arrival t σ) r) = true ->
  http.Method r = "OPTIONS" ->
  exists h, main_handler cfg = Some h
    /\ http.sent (response (serve h r t σ)) = Some (200, corsHeader ∅)
    /\ http.body (response (serve h r t σ)) = []
    /\ now (serve h r t σ) = t
    /\ routeLimiters (serve h r t σ)
       = routeLimiters (snd (limiterAllow (arrival t σ) r))
    /\ globalLimiter (serve h r t σ)
       = globalLimiter (snd (limiterAllow (arrival t σ) r)).
Proof.
  intros Hauth Hallowed Hm. eexists. split; [apply main_handler_stages |].
  unfold serve. fold (arrival t σ).
  rewrite (AuthMiddleware_pass _ _ _ _ _ Hauth).
  rewrite RateLimitMiddleware_unfold, limiterAllow_afterAuth.
  cbn [fst snd]. rewrite Hallowed.
  set (σ1 := afterAuth cfg r (snd (limiterAllow (arrival t σ) r))).
  rewrite CORSAMiddleware_unfold. unfold http.MethodOptions. rewrite Hm.
  cbn [String.eqb Ascii.eqb Bool.eqb].
  destruct (WriteHeader_fields connWriter http.StatusOK (corsState connWriter σ1))
    as (-> & -> & -> & -> & _).
  destruct (corsState_fields connWriter σ1) as (-> & -> & -> & -> & _).
  subst σ1.
  destruct (afterAuth_fields cfg r (snd (limiterAllow (arrival t σ) r)))
    as (-> & -> & -> & -> & _).
  destruct (limiterAllow_fields (arrival t σ) r) as (-> & -> & _).
  repeat split.
Qed.

Lemma gateway_preflight_witness :
  exists h, main_handler Example.cfg = Some h
    /\ http.sent
         (response
            (serve h (http.mkRequest "OPTIONS" "/api/open" ∅ "" None) 9
               (main_world Example.cfg 0 0 (Example.backend 0))))
       = Some (200, corsHeader ∅)
    /\ Tokens
         (globalLimiter
            (serve h (http.mkRequest "OPTIONS" "/api/open" ∅ "" None) 9
               (main_world Example.cfg 0 0 (Example.backend 0))))
       = 0.
Proof.
  destruct (gateway_preflight Example.cfg
              (http.mkRequest "OPTIONS" "/api/open" ∅ "" None) 9
              (main_world Example.cfg 0 0 (Example.backend 0)))
    as (h & Hh & Hsent & _ & _ & _ & Hglobal).
  - vm_compute. reflexivity.
  - vm_compute. reflexivity.
  - reflexivity.
  - exists h. split; [exact Hh |]. split; [exact Hsent |].
    rewrite Hglobal. vm_compute. reflexivity.
Defined.

(** End to end. A request that is let through, allowed by its bucket, not a
    preflight, with a route, whose backend answers within the three seconds
    of the timeout stage: the client is sent the backend's status and the
    backend's header laid over the CORS headers, when the backend has
    answered; and the access log entry, written last, records status 0. *)
Theorem gateway_forward (cfg : config.Config) (r : http.Request)
  (t : Time.Time) (σ : World) (resp : BackendResponse) :
  let target := lookupTarget (config.Routes cfg) (http.URL_Path r) in
  let trip := Do (network σ) (http.Method r) target (http.ReqHeader r)
                (http.Body r) in
  authorized cfg r = true ->
  fst (limiterAllow (arrival t σ) r) = true ->
  http.Method r <> "OPTIONS" ->
  target <> "" ->
  newRequestFails (network σ) (http.Method r) target = false ->
  result trip = Some resp ->
  latency trip < 3 * Time.Second ->
  exists h, main_handler cfg = Some h
    /\ http.sent (response (serve h r t σ))
       = Some (RespStatus resp, RespHeader resp ∪ corsHeader ∅)
    /\ now (serve h r t σ) = t + latency trip
    /\ exists cost,
         last (logs (serve h r t σ))
         = Some (LogAccess (http.Method r) (http.URL_Path r) 0 cost).
Proof.
  intros target trip Hauth Hallowed Hm Htarget Hnew Hres Hlat.
  eexists. split; [apply main_handler_stages |].
  unfold serve. fold (arrival t σ).
  rewrite (AuthMiddleware_pass _ _ _ _ _ Hauth).
  rewrite RateLimitMiddleware_unfold, limiterAllow_afterAuth.
  cbn [fst snd]. rewrite Hallowed.
  set (σ1 := afterAuth cfg r (snd (limiterAllow (arrival t σ) r))).
  rewrite CORSAMiddleware_unfold. unfold http.MethodOptions.
  apply String.eqb_neq in Hm. rewrite Hm.
  set (σc := corsState connWriter σ1).
  assert (Hc : response σc = http.conn_mapHeader corsHeader http.newResponse
               /\ now σc = t /\ network σc = network σ).
  { subst σc σ1.
    destruct (corsState_fields connWriter
                (afterAuth cfg r (snd (limiterAllow (arrival t σ) r))))
      as (-> & -> & _ & _ & _ & _ & ->).
    destruct (afterAuth_fields cfg r (snd (limiterAllow (arrival t σ) r)))
      as (-> & -> & _ & _ & _ & ->).
    destruct (limiterAllow_fields (arrival t σ) r)
      as (-> & -> & _ & _ & ->).
    repeat split. }
  destruct Hc as (Hrespc & Hnowc & Hnetc).
  unfold TimeoutMiddleware, LogMiddleware, newResponseWriterWrapper.
  set (r1 := http.WithDeadline (now σc + 3 * Time.Second) r).
  set (σw := set_wrappers (wrappers σc ++ [0]) σc).
  cbn [now logPrintf].
  destruct (proxyHandler_relay_state (config.Routes cfg) connWriter r1 σw resp)
    as (Hsent & Hnow & _).
  - exact Htarget.
  - subst σw. cbn [network set_wrappers]. rewrite Hnetc. exact Hnew.
  - subst σw. cbn [network set_wrappers]. rewrite Hnetc. exact Hres.
  - intros d Hd. subst r1 σw.
    change (Some (now σc + 3 * Time.Second) = Some d) in Hd.
    injection Hd as <-.
    cbn [network set_wrappers now http.WithDeadline http.Method
         http.URL_Path http.ReqHeader http.Body].
    rewrite Hnetc. fold target trip.
    destruct (corsState_fields connWriter σ1) as (_ & Hn & _).
    fold σc in Hn. lia.
  - subst σw. cbn [response set_wrappers]. rewrite Hrespc. reflexivity.
  - assert (Hnow' : now (proxyHandler (config.Routes cfg) connWriter r1 σw)
                    = t + latency trip).
    { rewrite Hnow. subst σw r1.
      cbn [network set_wrappers now http.WithDeadline http.Method
           http.URL_Path http.ReqHeader http.Body].
      rewrite Hnetc, Hnowc. reflexivity. }
    rewrite Hnow', Hnowc.
    destruct (Z.ltb_spec (t + latency trip) (t + 3 * Time.Second)); [| lia].
    cbn [response logs now logPrintf].
    split; [| split; [exact Hnow' |]].
    + rewrite Hsent. subst σw. cbn [response set_wrappers]. rewrite Hrespc.
      reflexivity.
    + eexists. rewrite last_snoc. do 2 f_equal.
      rewrite proxyHandler_wrappers. subst σw. cbn [wrappers set_wrappers].
      rewrite lookup_app_r by lia. rewrite Nat.sub_diag. reflexivity.
Qed.

Lemma gateway_forward_witness :
  exists h, main_handler Example.cfg = Some h
    /\ http.sent
         (response
            (serve h (Example.request "/api/b") 9
               (main_world Example.cfg 0 0 (Example.backend 2000000000))))
       = Some (200, ∅ ∪ corsHeader ∅).
Proof.
  destruct (gateway_forward Example.cfg (Example.request "/api/b") 9
              (main_world Example.cfg 0 0 (Example.backend 2000000000))
              (mkBackendResponse 200 ∅ "hello" false))
    as (h & Hh & Hsent & _).
  - vm_compute. reflexivity.
  - vm_compute. reflexivity.
  - discriminate.
  - vm_compute. discriminate.
  - reflexivity.
  - reflexivity.
  - vm_compute. reflexivity.
  - exists h. split; [exact Hh | exact Hsent].
Defined.

(** ** Goroutines calling [Allow] on one bucket: serial order *)

Module SerialFacts.
Import Concurrent.

Lemma serial_snoc (calls : list (nat * Time.Time)) : forall tb i now,
  serial tb (calls ++ [(i, now)])
  = (fst (serial tb calls)
       ++ [(i, fst (Allow (snd (serial tb calls)) now))],
     snd (Allow (snd (serial tb calls)) now)).
Proof.
  induction calls as [| [j t] calls IH]; intros tb i now.
  - cbn. destruct (Allow tb now); reflexivity.
  - cbn [app serial]. destruct (Allow tb t) as [ok tb1].
    rewrite IH. destruct (serial tb1 calls) as [answers tb2]. reflexivity.
Qed.

Lemma serial_ids (calls : list (nat * Time.Time)) : forall tb,
  fst <$> fst (serial tb calls) = fst <$> calls.
Proof.
  induction calls as [| [j t] calls IH]; intros tb; [reflexivity |].
  cbn [serial]. destruct (Allow tb t) as [ok tb1].
  specialize (IH tb1). destruct (serial tb1 calls) as [answers tb2].
  cbn in *. rewrite IH. reflexivity.
Qed.

Lemma init_serial_inv clock tb n : serial_inv clock tb (init tb n) [].
Proof.
  unfold serial_inv, init. cbn [goroutines mu bucket serial fst snd fmap list_fmap].
  split; [constructor |]. split; [constructor |]. split; [| split; [| split]].
  - intros j a. split.
    + intros H. apply elem_of_nil in H. destruct H.
    + intros H. apply lookup_replicate in H as [H _]. discriminate H.
  - intros j _. apply not_elem_of_nil.
  - reflexivity.
  - intros j q H. apply lookup_replicate in H as [-> _]. reflexivity.
Qed.


(** The goroutine in the critical section is the holder the invariant
    names. *)
Lemma serial_holder clock tb0 b m gs calls i p :
  serial_inv clock tb0 (mkState b m gs) calls ->
  gs !! i = Some p -> in_critical p = true ->
  m = true
  /\ (i ∉ (fst <$> calls))
  /\ (exists now, in_call clock (snd (serial tb0 calls)) b p now)
  /\ others_idle gs i.
Proof.
  intros (_ & _ & _ & _ & Hmu) Hi Hp. cbn [mu goroutines bucket] in Hmu.
  destruct m.
  - destruct Hmu as (k & q & now & Hk & Hq & Hfresh & Hcall & Hidle).
    destruct (decide (i = k)) as [-> | Hne].
    + rewrite Hi in Hk. injection Hk as <-. eauto 6.
    + rewrite (Hidle i p Hne Hi) in Hp. discriminate.
  - destruct Hmu as [_ Hidle]. rewrite (Hidle i p Hi) in Hp. discriminate.
Qed.

(** The holder executes a statement inside the critical section. *)
Lemma serial_move clock tb0 b b' gs calls i p q now :
  serial_inv clock tb0 (mkState b true gs) calls ->
  gs !! i = Some p -> in_critical p = true -> in_critical q = true ->
  in_call clock (snd (serial tb0 calls)) b' q now ->
  serial_inv clock tb0 (mkState b' true (<[i := q]> gs)) calls.
Proof.
  intros Hinv Hi Hp Hq Hcall.
  destruct (serial_holder _ _ _ _ _ _ _ _ Hinv Hi Hp)
    as (_ & Hfresh & _ & Hidle).
  destruct Hinv as (Hnodup & Hclock & Hans & Hlock & _).
  unfold serial_inv. cbn [mu goroutines bucket] in *.
  split; [exact Hnodup |]. split; [exact Hclock |].
  split; [| split].
  - intros j a. split.
    + intros Hj. apply list_lookup_insert_Some. right.
      split; [| apply Hans, Hj].
      intros <-. apply Hfresh. rewrite <- (serial_ids calls tb0).
      apply list_elem_of_fmap. exists (i, a). split; [reflexivity | exact Hj].
    + intros Hj. apply list_lookup_insert_Some in Hj
        as [(_ & Heq & _) | (_ & Hj)]; [subst q; discriminate Hq |].
      apply Hans, Hj.
  - intros j Hj. apply list_lookup_insert_Some in Hj
      as [(_ & Heq & _) | (_ & Hj)]; [subst q; discriminate Hq |].
    apply Hlock, Hj.
  - exists i, q, now. split; [| split; [exact Hq | split; [exact Hfresh |]]].
    + apply list_lookup_insert_eq. eapply lookup_lt_Some, Hi.
    + split; [exact Hcall |]. intros j r Hne Hj.
      rewrite list_lookup_insert_ne in Hj by congruence.
      exact (Hidle j r Hne Hj).
Qed.


Ltac holder_at Hinv Hi :=
  let Hm := fresh "Hm" in
  let Hfresh := fresh "Hfresh" in
  let now0 := fresh "now0" in
  let Hcall := fresh "Hcall" in
  let Hidle := fresh "Hidle" in
  destruct (serial_holder _ _ _ _ _ _ _ _ Hinv Hi eq_refl)
    as (Hm & Hfresh & (now0 & Hcall) & Hidle);
  cbn [in_call] in Hcall; subst.

(** Every statement keeps the state that of a serial run; [Unlock] adds the
    call of its goroutine to it. *)
Lemma step_serial_inv clock tb0 s s' calls :
  serial_inv clock tb0 s calls -> step clock s s' ->
  exists calls', serial_inv clock tb0 s' calls'.
Proof.
  intros Hinv Hstep.
  destruct Hstep as
    [ i b gs Hi | i b m gs now Hi Hclock | i b m gs now Hi
    | i b m gs now duration Hi | i b m gs now tokens Hi Hpos
    | i b m gs now tokens Hi Hneg | i b m gs now tokens Hi
    | i b m gs now Hi | i b m gs Hi Hpos | i b m gs Hi Hneg
    | i b m gs Hi | i b m gs ret Hi ].
  - (* Lock *)
    exists calls. destruct Hinv as (Hnodup & Hcl & Hans & Hlock & Hb & Hidle).
    cbn [mu goroutines bucket] in *. unfold serial_inv.
    cbn [mu goroutines bucket].
    split; [exact Hnodup |]. split; [exact Hcl |]. split; [| split].
    + intros j a. split.
      * intros Hj. apply list_lookup_insert_Some. right.
        split; [| apply Hans, Hj].
        intros <-. apply Hans in Hj. congruence.
      * intros Hj. apply list_lookup_insert_Some in Hj
          as [(_ & Heq & _) | (_ & Hj)]; [discriminate Heq |].
        apply Hans, Hj.
    + intros j Hj. apply list_lookup_insert_Some in Hj
        as [(_ & Heq & _) | (_ & Hj)]; [discriminate Heq |].
      apply Hlock, Hj.
    + exists i, atNow, 0. split; [| split; [reflexivity | split; [| split]]].
      * apply list_lookup_insert_eq. eapply lookup_lt_Some, Hi.
      * apply Hlock, Hi.
      * exact Hb.
      * intros j q Hne Hj. rewrite list_lookup_insert_ne in Hj by congruence.
        exact (Hidle j q Hj).
  - (* Now *)
    holder_at Hinv Hi. exists calls.
    eapply (serial_move _ _ _ _ _ _ _ _ _ now Hinv Hi); cbn; auto.
  - (* Duration *)
    holder_at Hinv Hi. exists calls. destruct Hcall as (Hc & -> & ->).
    eapply (serial_move _ _ _ _ _ _ _ _ _ now0 Hinv Hi); cbn; auto.
  - (* Tokens *)
    holder_at Hinv Hi. exists calls. destruct Hcall as (Hc & -> & -> & ->).
    eapply (serial_move _ _ _ _ _ _ _ _ _ now0 Hinv Hi); cbn; auto.
  - (* RefillTest, tokens > 0 *)
    holder_at Hinv Hi. exists calls. destruct Hcall as (Hc & -> & -> & ->).
    eapply (serial_move _ _ _ _ _ _ _ _ _ now0 Hinv Hi); cbn; auto.
  - (* RefillTest, tokens <= 0 *)
    holder_at Hinv Hi. exists calls. destruct Hcall as (Hc & -> & -> & ->).
    eapply (serial_move _ _ _ _ _ _ _ _ _ now0 Hinv Hi); cbn; auto.
    split; [exact Hc |]. unfold refill.
    destruct (Z.ltb_spec 0 (newTokens (snd (serial tb0 calls)) now0));
      [lia | reflexivity].
  - (* RefillTokens *)
    holder_at Hinv Hi. exists calls.
    destruct Hcall as (Hc & -> & -> & -> & Hpos).
    eapply (serial_move _ _ _ _ _ _ _ _ _ now0 Hinv Hi); cbn; auto.
  - (* RefillLastCheck *)
    holder_at Hinv Hi. exists calls. destruct Hcall as (Hc & -> & Hpos & ->).
    eapply (serial_move _ _ _ _ _ _ _ _ _ now0 Hinv Hi); cbn; auto.
    split; [exact Hc |]. unfold refill.
    apply Z.ltb_lt in Hpos. rewrite Hpos. reflexivity.
  - (* TakeTest, a token is there *)
    holder_at Hinv Hi. exists calls. destruct Hcall as (Hc & ->).
    eapply (serial_move _ _ _ _ _ _ _ _ _ now0 Hinv Hi); cbn; auto.
  - (* TakeTest, the bucket is empty *)
    holder_at Hinv Hi. exists calls. destruct Hcall as (Hc & ->).
    eapply (serial_move _ _ _ _ _ _ _ _ _ now0 Hinv Hi); cbn; auto.
    split; [exact Hc |]. unfold Allow. rewrite takeToken_empty by exact Hneg.
    split; reflexivity.
  - (* Decrement *)
    holder_at Hinv Hi. exists calls. destruct Hcall as (Hc & -> & Hpos).
    eapply (serial_move _ _ _ _ _ _ _ _ _ now0 Hinv Hi); cbn; auto.
    split; [exact Hc |]. unfold Allow, takeToken.
    apply Z.ltb_lt in Hpos. rewrite Hpos. split; reflexivity.
  - (* Unlock *)
    holder_at Hinv Hi. destruct Hcall as (Hc & -> & ->).
    exists (calls ++ [(i, now0)]).
    destruct Hinv as (Hnodup & Hcl & Hans & Hlock & _).
    cbn [mu goroutines bucket] in *. unfold serial_inv.
    cbn [mu goroutines bucket]. rewrite serial_snoc. cbn [fst snd].
    rewrite fmap_app. cbn [fmap list_fmap fst].
    split; [| split; [| split; [| split; [| split]]]].
    + apply NoDup_app. split; [exact Hnodup |]. split.
      * intros j Hj Hj'. apply list_elem_of_singleton in Hj'. subst j.
        exact (Hfresh Hj).
      * apply NoDup_singleton.
    + apply Forall_app. split; [exact Hcl |]. repeat constructor. exact Hc.
    + intros j a. rewrite elem_of_app, list_elem_of_singleton. split.
      * intros [Hj | Heq]; apply list_lookup_insert_Some.
        -- right. split; [| apply Hans, Hj].
           intros <-. apply Hans in Hj. rewrite Hi in Hj. discriminate Hj.
        -- injection Heq as -> ->. left.
           split; [reflexivity | split; [reflexivity |]].
           eapply lookup_lt_Some, Hi.
      * intros Hj. apply list_lookup_insert_Some in Hj
          as [(<- & Heq & _) | (_ & Hj)].
        -- injection Heq as <-. right. reflexivity.
        -- left. apply Hans, Hj.
    + intros j Hj. apply list_lookup_insert_Some in Hj
        as [(_ & Heq & _) | (Hne & Hj)]; [discriminate Heq |].
      rewrite elem_of_app, list_elem_of_singleton.
      intros [Hin | ->]; [exact (Hlock j Hj Hin) | congruence].
    + reflexivity.
    + intros j q Hj. apply list_lookup_insert_Some in Hj
        as [(_ & <- & _) | (Hne & Hj)]; [reflexivity |].
      apply (Hidle j q); [congruence | exact Hj].
Qed.


Lemma reachable_serial_inv clock tb n s :
  rtc (step clock) (init tb n) s ->
  exists calls, serial_inv clock tb s calls.
Proof.
  revert s. apply rtc_ind_r.
  - exists []. apply init_serial_inv.
  - intros s1 s2 _ Hs [calls Hinv]. exact (step_serial_inv _ _ _ _ _ Hinv Hs).
Qed.

(** Every run of [n] goroutines calling [Allow] on one bucket is a serial
    run. When all calls have returned there is an order of the goroutines,
    each with a clock reading it was given, such that calling [Allow] in
    that order, one call after the other, leaves the very bucket the run
    left and gives every goroutine the very answer it got. No assumption is
    made on the clock. *)
Theorem concurrent_runs_are_serial (clock : Time.Time -> Prop)
  (tb : TokenBucket) (n : nat) (s : state) :
  rtc (step clock) (init tb n) s ->
  all_returned s = true ->
  exists calls : list (nat * Time.Time),
    fst <$> calls ≡ₚ seq 0 n
    /\ Forall (fun c => clock (snd c)) calls
    /\ bucket s = snd (serial tb calls)
    /\ forall j a,
         goroutines s !! j = Some (returned a)
         <-> (j, a) ∈ fst (serial tb calls).
Proof.
  intros Hrun Hall.
  destruct (reachable_serial_inv clock tb n s Hrun) as [calls Hinv].
  pose proof (ConcurrentFacts.reachable_length clock tb n s Hrun) as Hlen.
  destruct Hinv as (Hnodup & Hclock & Hans & Hlock & Hmu).
  unfold all_returned in Hall.
  assert (Hret : forall j q, goroutines s !! j = Some q -> is_returned q = true).
  { intros j q Hj. rewrite forallb_forall in Hall. apply Hall.
    apply list_elem_of_In, list_elem_of_lookup. eauto. }
  exists calls. split; [| split; [exact Hclock | split]].
  - apply NoDup_Permutation; [exact Hnodup | apply NoDup_seq |].
    intros j. rewrite elem_of_seq. split.
    + intros Hj. rewrite <- (serial_ids calls tb) in Hj.
      apply list_elem_of_fmap in Hj as ([j' a] & -> & Hj).
      apply Hans, lookup_lt_Some in Hj. cbn. lia.
    + intros Hj.
      destruct (lookup_lt_is_Some_2 (goroutines s) j ltac:(lia)) as [q Hq].
      pose proof (Hret j q Hq) as Hr. destruct q; try discriminate Hr.
      apply Hans in Hq. rewrite <- (serial_ids calls tb).
      apply list_elem_of_fmap. exists (j, ret). split; [reflexivity | exact Hq].
  - destruct (mu s); [| apply Hmu].
    destruct Hmu as (i & p & _ & Hi & Hp & _).
    pose proof (Hret i p Hi) as Hr. destruct p; discriminate.
  - intros j a. symmetry. apply Hans.
Qed.

(** Two goroutines on a bucket of one token, the second one going first: the
    run is the serial run of goroutine 1 and then goroutine 0. *)
Lemma concurrent_runs_are_serial_witness :
  exists calls : list (nat * Time.Time),
    fst <$> calls ≡ₚ seq 0 2
    /\ mkTokenBucket 1 1 Time.Second 0 0 = snd (serial (NewTokenBucket 1 1 0) calls).
Proof.
  destruct (concurrent_runs_are_serial (fun t => t = 0) (NewTokenBucket 1 1 0) 2
              (mkState (mkTokenBucket 1 1 Time.Second 0 0) false
                 [returned false; returned true]))
    as (calls & Hperm & _ & Hbucket & _).
  - eapply rtc_trans.
    + exact (ConcurrentFacts.one_call (fun t => t = 0) (NewTokenBucket 1 1 0)
               [atLock; atLock] 1 0 eq_refl eq_refl).
    + exact (ConcurrentFacts.one_call (fun t => t = 0)
               (snd (Allow (NewTokenBucket 1 1 0) 0))
               [atLock; returned true] 0 0 eq_refl eq_refl).
  - reflexivity.
  - exists calls. split; [exact Hperm | exact Hbucket].
Defined.


Lemma serial_cons tb i now calls :
  serial tb ((i, now) :: calls)
  = ((i, fst (Allow tb now)) :: fst (serial (snd (Allow tb now)) calls),
     snd (serial (snd (Allow tb now)) calls)).
Proof.
  cbn [serial]. destruct (Allow tb now) as [ok tb1]. cbn [fst snd].
  destruct (serial tb1 calls); reflexivity.
Qed.

Lemma serial_run clock (calls : list (nat * Time.Time)) : forall b gs,
  NoDup (fst <$> calls) ->
  Forall (fun c => gs !! fst c = Some atLock /\ clock (snd c)) calls ->
  rtc (step clock) (mkState b false gs)
    (mkState (snd (serial b calls)) false
       (answered gs (fst (serial b calls)))).
Proof.
  induction calls as [| [i now] calls IH]; intros b gs Hnodup Hcalls.
  - apply rtc_refl.
  - rewrite serial_cons. cbn [fst snd answered foldl].
    apply Forall_cons in Hcalls as [[Hi Hclock] Hcalls].
    cbn [fmap list_fmap fst] in Hnodup. apply NoDup_cons in Hnodup as [Hfresh Hnodup].
    eapply rtc_trans; [exact (ConcurrentFacts.one_call clock b gs i now Hi Hclock) |].
    apply IH; [exact Hnodup |].
    apply Forall_forall. intros [j t] Hj.
    rewrite Forall_forall in Hcalls. destruct (Hcalls _ Hj) as [Hlock Hc].
    split; [| exact Hc]. cbn [fst] in *.
    rewrite list_lookup_insert_ne; [exact Hlock |].
    intros ->. apply Hfresh. apply list_elem_of_fmap.
    exists (j, t). split; [reflexivity | exact Hj].
Qed.

(** Conversely every serial order is a run: whatever goroutines are called
    in whatever order, each at a reading the clock may give, the goroutines
    can execute their statements so that the bucket and the answers are
    those of [Allow] called in that order, the others still waiting for the
    mutex. *)
Theorem serial_runs_are_runs (clock : Time.Time -> Prop) (tb : TokenBucket)
  (n : nat) (calls : list (nat * Time.Time)) :
  NoDup (fst <$> calls) ->
  Forall (fun c => (fst c < n)%nat /\ clock (snd c)) calls ->
  rtc (step clock) (init tb n)
    (mkState (snd (serial tb calls)) false
       (answered (replicate n atLock) (fst (serial tb calls)))).
Proof.
  intros Hnodup Hcalls. apply serial_run; [exact Hnodup |].
  eapply Forall_impl; [exact Hcalls |].
  intros [i t] [Hi Hc]. split; [| exact Hc].
  apply lookup_replicate. split; [reflexivity | exact Hi].
Qed.

Lemma serial_runs_are_runs_witness :
  rtc (step (fun t => t = 0 \/ t = 3000000000)) (init (NewTokenBucket 1 1 0) 3)
    (mkState (mkTokenBucket 1 1 Time.Second 0 3000000000) false
       [returned true; atLock; returned true]).
Proof.
  exact (serial_runs_are_runs (fun t => t = 0 \/ t = 3000000000)
           (NewTokenBucket 1 1 0) 3 [(2%nat, 0); (0%nat, 3000000000)]
           ltac:(apply NoDup_cons; split;
                   [intros H; apply list_elem_of_singleton in H; discriminate H
                   | apply NoDup_singleton])
           ltac:(repeat constructor; cbn; lia)).
Defined.

End SerialFacts.

(** ** The buckets of the rate-limit stage *)

(** In whatever order the [range] visits the map, the handler finds the
    bucket stored under the path of the request, or none when there is
    none. *)
Theorem searchLimiters_any_order (routeLimiters : gmap string TokenBucket)
  (entries : list (string * TokenBucket)) (path : string) :
  entries ≡ₚ map_to_list routeLimiters ->
  searchLimiters entries path = routeLimiters !! path.
Proof.
  intros Hperm. unfold searchLimiters.
  destruct (find _ _) as [[k tb] |] eqn:Hfind; cbn.
  - apply find_some in Hfind as [Hin Heq]. cbn in Heq.
    apply String.eqb_eq in Heq. subst k.
    apply list_elem_of_In in Hin. rewrite Hperm in Hin.
    apply elem_of_map_to_list in Hin. symmetry. exact Hin.
  - destruct (routeLimiters !! path) as [tb |] eqn:Hlook; [| reflexivity].
    apply elem_of_map_to_list in Hlook. rewrite <- Hperm in Hlook.
    apply list_elem_of_In in Hlook.
    apply (find_none _ _ Hfind) in Hlook. cbn in Hlook.
    rewrite String.eqb_refl in Hlook. discriminate.
Qed.

Lemma searchLimiters_any_order_witness :
  searchLimiters
    (reverse (map_to_list
                (<["/a" := NewTokenBucket 2 1 0]>
                   ({["/b" := NewTokenBucket 4 2 0]}
                    : gmap string TokenBucket))))
    "/b"
  = (<["/a" := NewTokenBucket 2 1 0]>
       ({["/b" := NewTokenBucket 4 2 0]} : gmap string TokenBucket)) !! "/b".
Proof.
  apply searchLimiters_any_order. apply reverse_Permutation.
Defined.

Lemma limiters_Header_update w f σ : limiters (Header_update w f σ) = limiters σ.
Proof.
  unfold limiters.
  destruct (Header_update_fields w f σ) as (_ & _ & -> & -> & _). reflexivity.
Qed.

Lemma limiters_WriteHeader w code σ : limiters (WriteHeader w code σ) = limiters σ.
Proof.
  unfold limiters.
  destruct (WriteHeader_fields w code σ) as (_ & _ & -> & -> & _). reflexivity.
Qed.

Lemma limiters_Write w data σ : limiters (Write w data σ) = limiters σ.
Proof.
  unfold limiters.
  destruct (Write_fields w data σ) as (_ & _ & -> & -> & _). reflexivity.
Qed.

Lemma limiters_http_Error w msg code σ :
  limiters (http_Error w msg code σ) = limiters σ.
Proof.
  unfold limiters.
  destruct (http_Error_fields w msg code σ) as (_ & -> & -> & _). reflexivity.
Qed.

Lemma limiters_proxyHandler routes w r σ :
  limiters (proxyHandler routes w r σ) = limiters σ.
Proof.
  unfold proxyHandler.
  repeat match goal with
  | |- context [if ?b then _ else _] => destruct b
  | |- context [match ?o with Some _ => _ | None => _ end] => destruct o
  end;
  rewrite ?limiters_http_Error, ?limiters_Write, ?limiters_WriteHeader,
    ?limiters_Header_update; reflexivity.
Qed.

(** The stages after the rate limit leave every bucket as it is. *)
Lemma limiters_downstream routes w r σ :
  limiters
    (CORSAMiddleware
       (TimeoutMiddleware (3 * Time.Second)
          (LogMiddleware (proxyHandler routes))) w r σ)
  = limiters σ.
Proof.
  rewrite CORSAMiddleware_unfold.
  assert (Hcors : limiters (corsState w σ) = limiters σ).
  { unfold limiters. destruct (corsState_fields w σ) as (_ & _ & -> & -> & _).
    reflexivity. }
  destruct (String.eqb _ _); [rewrite limiters_WriteHeader; exact Hcors |].
  rewrite <- Hcors. generalize (corsState w σ). clear. intros σ.
  unfold TimeoutMiddleware.
  assert (Hlog : forall r σ,
            limiters (LogMiddleware (proxyHandler routes) w r σ) = limiters σ).
  { intros r0 σ0. unfold LogMiddleware, newResponseWriterWrapper.
    change (limiters (logPrintf ?e ?s)) with (limiters s).
    rewrite limiters_proxyHandler. reflexivity. }
  destruct (_ <? _); [apply Hlog |].
  change (limiters (logPrintf ?e ?s)) with (limiters s).
  rewrite limiters_http_Error. reflexivity.
Qed.

Lemma authorized_false cfg r :
  authorized cfg r = false ->
  (http.URL_Path r ∉ config.NoAuthRoutes cfg)
  /\ (http.Header_Get (http.ReqHeader r) "X-API-Key" = ""
      \/ http.Header_Get (http.ReqHeader r) "X-API-Key" ∉ config.ApiKeys cfg).
Proof.
  unfold authorized. intros H. apply orb_false_iff in H as [Hexempt Hkey].
  apply bool_decide_eq_false in Hexempt. split; [exact Hexempt |].
  apply andb_false_iff in Hkey as [Hkey | Hkey].
  - left. apply negb_false_iff, String.eqb_eq in Hkey. exact Hkey.
  - right. apply bool_decide_eq_false in Hkey. exact Hkey.
Qed.

Lemma gateway_limiters cfg r t σ :
  exists h, main_handler cfg = Some h
    /\ limiters (serve h r t σ)
       = if authorized cfg r
         then limiters (snd (limiterAllow (arrival t σ) r))
         else limiters σ.
Proof.
  eexists. split; [apply main_handler_stages |].
  unfold serve. fold (arrival t σ).
  destruct (authorized cfg r) eqn:Hauth.
  - rewrite (AuthMiddleware_pass _ _ _ _ _ Hauth).
    rewrite RateLimitMiddleware_unfold, limiterAllow_afterAuth. cbn [fst snd].
    assert (Hafter : forall s, limiters (afterAuth cfg r s) = limiters s).
    { intros s. unfold limiters.
      destruct (afterAuth_fields cfg r s) as (_ & _ & -> & -> & _).
      reflexivity. }
    destruct (fst (limiterAllow (arrival t σ) r)).
    + rewrite limiters_downstream. apply Hafter.
    + change (limiters (logPrintf ?e ?s)) with (limiters s).
      rewrite limiters_http_Error, limiters_Header_update. apply Hafter.
  - apply authorized_false in Hauth as [Hexempt Hbad].
    edestruct (AuthMiddleware_reject_state cfg) as
      (_ & Hroute & Hglobal & _); [exact Hexempt | exact Hbad | |].
    2: { unfold limiters. rewrite Hroute, Hglobal. reflexivity. }
    reflexivity.
Qed.

(** Every request the gateway serves calls [Allow] at most once: exactly
    once, on the bucket of its path, when it passes authentication, whatever
    happens to it afterwards (no route, backend failure, timeout), and not
    at all when it does not. Nothing else touches a bucket. *)
Theorem gateway_charges_once (cfg : config.Config) (r : http.Request)
  (t : Time.Time) (σ : World) :
  exists h, main_handler cfg = Some h
    /\ limiters (serve h r t σ)
       = if authorized cfg r
         then limiters (snd (limiterAllow (arrival t σ) r))
         else limiters σ.
Proof. exact (gateway_limiters cfg r t σ). Qed.

Lemma limiterAllow_lookup σ r :
  limiterAllow σ r
  = match routeLimiters σ !! http.URL_Path r with
    | Some tb =>
        (fst (Allow tb (now σ)),
         set_routeLimiters
           (<[http.URL_Path r := snd (Allow tb (now σ))]> (routeLimiters σ)) σ)
    | None =>
        (fst (Allow (globalLimiter σ) (now σ)),
         set_globalLimiter (snd (Allow (globalLimiter σ) (now σ))) σ)
    end.
Proof.
  unfold limiterAllow, selectLimiter. rewrite findLimiter_lookup.
  destruct (routeLimiters σ !! http.URL_Path r) as [tb |];
    match goal with
    | |- context [Allow ?b ?t] => destruct (Allow b t)
    end; reflexivity.
Qed.

(** The check of a request charges one bucket and no other: the bucket
    stored under its path when there is one, the shared bucket otherwise.
    It makes and removes no bucket, and traffic on one path leaves the bucket
    of every other path, and in the first case the shared one, as it was. *)
Theorem limiterAllow_isolation (σ : World) (r : http.Request) :
  let out := snd (limiterAllow σ r) in
  dom (routeLimiters out) = dom (routeLimiters σ)
  /\ (forall path, path <> http.URL_Path r ->
        routeLimiters out !! path = routeLimiters σ !! path)
  /\ (forall tb, routeLimiters σ !! http.URL_Path r = Some tb ->
        fst (limiterAllow σ r) = fst (Allow tb (now σ))
        /\ routeLimiters out !! http.URL_Path r
           = Some (snd (Allow tb (now σ)))
        /\ globalLimiter out = globalLimiter σ)
  /\ (routeLimiters σ !! http.URL_Path r = None ->
      fst (limiterAllow σ r) = fst (Allow (globalLimiter σ) (now σ))
      /\ globalLimiter out = snd (Allow (globalLimiter σ) (now σ))
      /\ routeLimiters out = routeLimiters σ).
Proof.
  cbv zeta. rewrite limiterAllow_lookup.
  destruct (routeLimiters σ !! http.URL_Path r) as [tb |] eqn:Hlook;
    cbn [fst snd routeLimiters globalLimiter set_routeLimiters
         set_globalLimiter].
  - split; [| split; [| split]].
    + rewrite dom_insert_L. apply subseteq_union_1_L.
      apply singleton_subseteq_l, elem_of_dom. eauto.
    + intros path Hne. apply lookup_insert_ne. congruence.
    + intros tb' Heq. injection Heq as <-.
      split; [reflexivity |]. split; [apply lookup_insert_eq | reflexivity].
    + discriminate.
  - split; [reflexivity |]. split; [reflexivity |]. split; [discriminate |].
    intros _. repeat split.
Qed.

Lemma limiterAllow_isolation_witness :
  routeLimiters
    (snd (limiterAllow (main_world Example.cfg 0 0 (Example.backend 0))
            (Example.request "/api/a"))) !! "/api/a"
  = Some (mkTokenBucket 10 5 Time.Second 9 0)
  /\ globalLimiter
       (snd (limiterAllow (main_world Example.cfg 0 0 (Example.backend 0))
               (Example.request "/api/a")))
     = NewTokenBucket 1 1 0.
Proof.
  destruct (limiterAllow_isolation
              (main_world Example.cfg 0 0 (Example.backend 0))
              (Example.request "/api/a")) as (_ & _ & Hown & _).
  destruct (Hown (NewTokenBucket 10 5 0)) as (_ & Hbucket & Hshared).
  - vm_compute. reflexivity.
  - split; [| exact Hshared].
    etransitivity; [exact Hbucket |]. vm_compute. reflexivity.
Defined.

Lemma same_shape_Allow tb now : same_shape tb (snd (Allow tb now)).
Proof.
  unfold same_shape.
  rewrite Allow_Cap, Allow_Rate, Allow_interval. repeat split.
Qed.

Lemma same_buckets_refl σ : same_buckets σ σ.
Proof.
  split; [repeat split |].
  intros path. destruct (routeLimiters σ !! path); [repeat split | exact I].
Qed.

Lemma same_buckets_trans σ1 σ2 σ3 :
  same_buckets σ1 σ2 -> same_buckets σ2 σ3 -> same_buckets σ1 σ3.
Proof.
  unfold same_buckets, same_shape.
  intros [(H1 & H2 & H3) Hr] [(H4 & H5 & H6) Hr'].
  split; [repeat split; congruence |].
  intros path. specialize (Hr path). specialize (Hr' path).
  destruct (routeLimiters σ1 !! path), (routeLimiters σ2 !! path),
    (routeLimiters σ3 !! path); try contradiction; try exact I.
  destruct Hr as (? & ? & ?), Hr' as (? & ? & ?). repeat split; congruence.
Qed.

Lemma same_buckets_limiters σ σ' σ'' :
  limiters σ'' = limiters σ' -> same_buckets σ σ' -> same_buckets σ σ''.
Proof.
  unfold limiters, same_buckets. intros Heq. injection Heq as -> ->. auto.
Qed.

Lemma same_buckets_limiterAllow σ r :
  same_buckets σ (snd (limiterAllow σ r)).
Proof.
  rewrite limiterAllow_lookup.
  destruct (routeLimiters σ !! http.URL_Path r) as [tb |] eqn:Hlook;
    cbn [snd]; unfold same_buckets;
    cbn [routeLimiters globalLimiter set_routeLimiters set_globalLimiter].
  - split; [repeat split |]. intros path.
    destruct (decide (path = http.URL_Path r)) as [-> | Hne].
    + rewrite Hlook, lookup_insert_eq. apply same_shape_Allow.
    + rewrite lookup_insert_ne by congruence.
      destruct (routeLimiters σ !! path); [repeat split | exact I].
  - split; [apply same_shape_Allow |]. intros path.
    destruct (routeLimiters σ !! path); [repeat split | exact I].
Qed.

(** The buckets are fixed when the server starts: over every run of
    requests, whatever they are, the gateway has the same dedicated paths,
    and every bucket, the shared one included, keeps its capacity, rate and
    interval. Only tokens and refill times change. *)
Theorem gateway_buckets_fixed (cfg : config.Config)
  (reqs : list (http.Request * Time.Time)) (σ : World) :
  exists h, main_handler cfg = Some h
    /\ same_buckets σ (serve_all h reqs σ)
    /\ dom (routeLimiters (serve_all h reqs σ)) = dom (routeLimiters σ).
Proof.
  eexists. split; [apply main_handler_stages |].
  assert (Hsame : same_buckets σ
    (serve_all
       (AuthMiddleware cfg
          (RateLimitMiddleware
             (CORSAMiddleware
                (TimeoutMiddleware (3 * Time.Second)
                   (LogMiddleware (proxyHandler (config.Routes cfg)))))))
       reqs σ)).
  { revert σ. induction reqs as [| [r t] reqs IH]; intros σ;
      [apply same_buckets_refl |].
    cbn [serve_all]. eapply same_buckets_trans; [| apply IH].
    destruct (gateway_limiters cfg r t σ) as (h & Hh & Hlim).
    rewrite main_handler_stages in Hh. injection Hh as <-.
    destruct (authorized cfg r);
      (eapply same_buckets_limiters; [exact Hlim |]);
      [| apply same_buckets_refl].
    eapply same_buckets_trans; [| apply same_buckets_limiterAllow].
    split; [repeat split |]. intros path. cbn.
    destruct (routeLimiters σ !! path); [repeat split | exact I]. }
  split; [exact Hsame |].
  destruct Hsame as [_ Hsame]. apply set_eq. intros path.
  rewrite !elem_of_dom. specialize (Hsame path).
  destruct (routeLimiters σ !! path), (routeLimiters (serve_all _ reqs σ) !! path);
    try contradiction; split; intros [? ?]; try discriminate; eauto.
Qed.

(** ** The token bucket: accounting *)

Lemma allowed_cons ok answers :
  allowed (ok :: answers) = (if ok then 1 else 0) + allowed answers.
Proof.
  unfold allowed. rewrite filter_cons.
  destruct ok; [rewrite decide_True by reflexivity
               | rewrite decide_False by discriminate];
    cbn [length]; lia.
Qed.

Lemma Allow_seq_cons tb now rest :
  Allow_seq tb (now :: rest)
  = (fst (Allow tb now) :: fst (Allow_seq (snd (Allow tb now)) rest),
     snd (Allow_seq (snd (Allow tb now)) rest)).
Proof.
  cbn [Allow_seq]. destruct (Allow tb now) as [ok tb1]. cbn [fst snd].
  destruct (Allow_seq tb1 rest); reflexivity.
Qed.

(** One call: the token it takes comes out of what the bucket held and what
    the refill computed. *)
Lemma Allow_accounting tb now :
  tokens_in_bounds tb -> Cap tb <= GoInt.max_int ->
  (0 < newTokens tb now -> Tokens tb + newTokens tb now <= GoInt.max_int) ->
  (if fst (Allow tb now) then 1 else 0) + Tokens (snd (Allow tb now))
  <= Tokens tb + Z.max 0 (newTokens tb now).
Proof.
  intros [Hlo Hhi] Hcap Hfit.
  assert (Hrefill : 0 <= Tokens (refill tb now) <= Cap tb
                    /\ Tokens (refill tb now)
                       <= Tokens tb + Z.max 0 (newTokens tb now)).
  { unfold refill.
    destruct (Z.ltb_spec 0 (newTokens tb now)) as [Hpos | Hneg];
      cbn [Tokens set_Tokens set_LastCheck]; [| lia].
    unfold GoInt.add. rewrite wrap_small
      by (specialize (Hfit Hpos);
          unfold GoInt.in_range, GoInt.min_int, GoInt.max_int in *; lia).
    lia. }
  unfold Allow, takeToken.
  destruct (Z.ltb_spec 0 (Tokens (refill tb now))) as [Hpos | Hneg];
    cbn [fst snd Tokens set_Tokens]; [| lia].
  unfold GoInt.sub. rewrite wrap_small
    by (unfold GoInt.in_range, GoInt.min_int, GoInt.max_int in *; lia).
  lia.
Qed.

(** In any run of calls in which no refill wraps around, the calls allowed
    and the tokens left are together at most the tokens the bucket held at
    the start and what the refills computed: no call is allowed without a
    token that was there or was added for elapsed time. *)
Theorem Allow_seq_accounting (times : list Time.Time) : forall tb,
  tokens_in_bounds tb ->
  Cap tb <= GoInt.max_int ->
  refill_fits tb times = true ->
  allowed (fst (Allow_seq tb times)) + Tokens (snd (Allow_seq tb times))
  <= Tokens tb + refill_total tb times
  /\ 0 <= Tokens (snd (Allow_seq tb times)).
Proof.
  induction times as [| now rest IH]; intros tb Hb Hcap Hfit.
  - cbn [Allow_seq fst snd refill_total]. unfold allowed.
    rewrite filter_nil. cbn [length]. unfold tokens_in_bounds in Hb. lia.
  - cbn [refill_fits] in Hfit. apply andb_prop in Hfit as [Hnow Hrest].
    assert (Hfit : 0 < newTokens tb now ->
                   Tokens tb + newTokens tb now <= GoInt.max_int).
    { intros Hpos. apply Z.ltb_lt in Hpos. rewrite Hpos in Hnow.
      apply Z.leb_le, Hnow. }
    rewrite Allow_seq_cons. cbn [fst snd refill_total].
    rewrite allowed_cons.
    pose proof (Allow_accounting tb now Hb Hcap Hfit) as Hone.
    destruct (IH (snd (Allow tb now))) as [Hsum Hleft];
      [apply Allow_in_bounds; assumption
      | rewrite Allow_Cap; exact Hcap | exact Hrest |].
    lia.
Qed.

Lemma Allow_seq_accounting_witness :
  allowed (fst (Allow_seq (NewTokenBucket 3 1 0)
                  [0; 0; 0; 0; 2500000000; 2600000000; 2700000000]))
  + Tokens (snd (Allow_seq (NewTokenBucket 3 1 0)
                   [0; 0; 0; 0; 2500000000; 2600000000; 2700000000]))
  <= 3 + refill_total (NewTokenBucket 3 1 0)
           [0; 0; 0; 0; 2500000000; 2600000000; 2700000000].
Proof.
  refine (proj1 (Allow_seq_accounting
                   [0; 0; 0; 0; 2500000000; 2600000000; 2700000000]
                   (NewTokenBucket 3 1 0) _ _ _)).
  - unfold tokens_in_bounds. cbn. lia.
  - cbn. unfold GoInt.max_int. lia.
  - vm_compute. reflexivity.
Defined.

(** ** The status code wrapper *)

Lemma WriteHeader_wrappers_other w code : forall σ l,
  writer_below l w = true ->
  wrappers (WriteHeader w code σ) !! l = wrappers σ !! l
  /\ length (wrappers (WriteHeader w code σ)) = length (wrappers σ).
Proof.
  induction w as [| l0 embedded IH]; intros σ l Hbelow; cbn [WriteHeader].
  - split; reflexivity.
  - cbn [writer_below] in Hbelow. apply andb_prop in Hbelow as [Hlt Hbelow].
    apply Nat.ltb_lt in Hlt.
    destruct (IH (set_wrappers (<[l0:=code]> (wrappers σ)) σ) l Hbelow)
      as [-> ->].
    cbn [wrappers set_wrappers]. rewrite length_insert.
    split; [| reflexivity]. apply list_lookup_insert_ne. lia.
Qed.

(** A wrapper made around a writer records the code of every [WriteHeader]
    call made through it, the last one standing, even a call the server
    ignores because a status was sent before; and it records nothing for
    the status 200 that a first [Write] sends by itself. So its
    [StatusCode] is not always the status the client got. *)
Theorem wrapper_records_calls (w : ResponseWriter) (σ : World)
  (first second : Z) (data : string) :
  let wrapped := fst (newResponseWriterWrapper w σ) in
  let σ1 := snd (newResponseWriterWrapper w σ) in
  let l := length (wrappers σ) in
  writer_below l w = true ->
  http.sent (response σ) = None ->
  wrappers (WriteHeader wrapped first σ1) !! l = Some first
  /\ http.status (response (WriteHeader wrapped first σ1)) = Some first
  /\ wrappers (WriteHeader wrapped second (WriteHeader wrapped first σ1)) !! l
     = Some second
  /\ http.status
       (response (WriteHeader wrapped second (WriteHeader wrapped first σ1)))
     = Some first
  /\ wrappers (Write wrapped data σ1) !! l = Some 0
  /\ http.status (response (Write wrapped data σ1)) = Some 200.
Proof.
  intros wrapped σ1 l Hbelow Hsent. subst wrapped σ1 l.
  unfold newResponseWriterWrapper. cbn [fst snd WriteHeader Write].
  set (l := length (wrappers σ)).
  set (σ1 := set_wrappers (wrappers σ ++ [0]) σ).
  assert (Hl : forall c (ws : list Z), length ws = S l -> <[l := c]> ws !! l = Some c).
  { intros c ws Hlen. apply list_lookup_insert_eq. lia. }
  assert (Hlen1 : length (wrappers σ1) = S l)
    by (subst σ1 l; cbn; rewrite length_app; cbn; lia).
  split; [| split; [| split; [| split; [| split]]]].
  - destruct (WriteHeader_wrappers_other w first
                (set_wrappers (<[l:=first]> (wrappers σ1)) σ1) l Hbelow)
      as [-> _].
    cbn [wrappers set_wrappers]. apply Hl, Hlen1.
  - destruct (WriteHeader_fields w first
                (set_wrappers (<[l:=first]> (wrappers σ1)) σ1)) as (-> & _).
    subst σ1. cbn [response set_wrappers].
    unfold http.status, http.conn_WriteHeader. rewrite Hsent. reflexivity.
  - match goal with
    | |- wrappers (WriteHeader w second ?s) !! l = _ =>
        destruct (WriteHeader_wrappers_other w second s l Hbelow) as [-> _]
    end.
    cbn [wrappers set_wrappers]. apply Hl.
    destruct (WriteHeader_wrappers_other w first
                (set_wrappers (<[l:=first]> (wrappers σ1)) σ1) l Hbelow)
      as [_ ->].
    cbn [wrappers set_wrappers]. rewrite length_insert. exact Hlen1.
  - match goal with
    | |- context [response (WriteHeader w second ?s)] =>
        destruct (WriteHeader_fields w second s) as (-> & _)
    end.
    cbn [response set_wrappers].
    destruct (WriteHeader_fields w first
                (set_wrappers (<[l:=first]> (wrappers σ1)) σ1)) as (-> & _).
    subst σ1. cbn [response set_wrappers].
    unfold http.status, http.conn_WriteHeader. rewrite Hsent.
    cbn [http.sent]. reflexivity.
  - destruct (Write_fields w data σ1) as (_ & _ & _ & _ & -> & _).
    subst σ1 l. cbn [wrappers set_wrappers].
    rewrite lookup_app_r by lia. rewrite Nat.sub_diag. reflexivity.
  - destruct (Write_fields w data σ1) as (-> & _).
    subst σ1. cbn [response set_wrappers].
    unfold http.status, http.conn_Write, http.conn_WriteHeader.
    rewrite Hsent. reflexivity.
Qed.

Lemma wrapper_records_calls_witness :
  wrappers
    (WriteHeader (wrapperWriter 0 connWriter) 500
       (WriteHeader (wrapperWriter 0 connWriter) 200
          (set_wrappers [0] (main_world Example.cfg 0 0 (Example.backend 0)))))
    !! 0%nat = Some 500
  /\ http.status
       (response
          (WriteHeader (wrapperWriter 0 connWriter) 500
             (WriteHeader (wrapperWriter 0 connWriter) 200
                (set_wrappers [0]
                   (main_world Example.cfg 0 0 (Example.backend 0))))))
     = Some 200.
Proof.
  destruct (wrapper_records_calls connWriter
              (main_world Example.cfg 0 0 (Example.backend 0)) 200 500 "")
    as (_ & _ & Hcode & Hstatus & _).
  - reflexivity.
  - reflexivity.
  - split; [exact Hcode | exact Hstatus].
Defined.

(** ** [float64] arithmetic: the error of one operation *)

Lemma digits2_pos_bounds (p : positive) :
  2 ^ (Zpos (digits2_pos p) - 1) <= Zpos p < 2 ^ Zpos (digits2_pos p).
Proof.
  induction p as [p IH | p IH |]; cbn [digits2_pos].
  - rewrite Pos2Z.inj_succ.
    replace (Z.succ (Zpos (digits2_pos p)) - 1) with (Z.succ (Zpos (digits2_pos p) - 1)) by lia.
    rewrite !Z.pow_succ_r by lia. lia.
  - rewrite Pos2Z.inj_succ.
    replace (Z.succ (Zpos (digits2_pos p)) - 1) with (Z.succ (Zpos (digits2_pos p) - 1)) by lia.
    rewrite !Z.pow_succ_r by lia. lia.
  - cbn. lia.
Qed.

Lemma digits2_pos_unique (p : positive) (n : Z) :
  2 ^ (n - 1) <= Zpos p < 2 ^ n -> Zpos (digits2_pos p) = n.
Proof.
  intros [Hlo Hhi]. pose proof (digits2_pos_bounds p) as [Hlo' Hhi'].
  assert (Hn : 0 < n).
  { destruct (Z.ltb_spec 0 n) as [| Hle]; [assumption |].
    destruct (Z.eq_dec n 0) as [-> |]; [cbn in Hhi; lia |].
    rewrite Z.pow_neg_r in Hhi by lia. lia. }
  assert (H1 : n - 1 < Zpos (digits2_pos p)).
  { apply (Z.pow_lt_mono_r_iff 2); lia. }
  assert (H2 : Zpos (digits2_pos p) - 1 < n).
  { apply (Z.pow_lt_mono_r_iff 2); lia. }
  lia.
Qed.

Lemma shr_1_m r : 0 <= shr_m r -> shr_m (shr_1 r) = shr_m r / 2.
Proof.
  destruct r as [m r s]. cbn [shr_m]. intros Hm.
  destruct m as [| [p | p |] |]; cbn [shr_1 shr_m]; try lia.
  - reflexivity.
  - apply Z.div_unique with 1; lia.
  - apply Z.div_unique with 0; lia.
  - reflexivity.
Qed.

Lemma iter_shr_1_m (p : positive) : forall r,
  0 <= shr_m r -> shr_m (SpecFloat.iter_pos shr_1 p r) = shr_m r / 2 ^ Zpos p.
Proof.
  induction p as [p IH | p IH |]; intros r Hr; cbn [SpecFloat.iter_pos].
  - assert (H1 : 0 <= shr_m (shr_1 r))
      by (rewrite shr_1_m by assumption; apply Z.div_pos; lia).
    assert (H2 : 0 <= shr_m (SpecFloat.iter_pos shr_1 p (shr_1 r)))
      by (rewrite IH by assumption; apply Z.div_pos; lia).
    rewrite IH, IH, shr_1_m by assumption.
    rewrite !Z.div_div by lia. f_equal.
    change (Zpos p~1) with (2 * Zpos p + 1).
    replace (2 * Zpos p + 1) with (Zpos p + Zpos p + 1) by lia.
    rewrite !Z.pow_add_r by lia. change (2 ^ 1) with 2. ring.
  - assert (H2 : 0 <= shr_m (SpecFloat.iter_pos shr_1 p r))
      by (rewrite IH by assumption; apply Z.div_pos; lia).
    rewrite IH, IH by assumption.
    rewrite !Z.div_div by lia. f_equal.
    change (Zpos p~0) with (2 * Zpos p).
    replace (2 * Zpos p) with (Zpos p + Zpos p) by lia.
    rewrite !Z.pow_add_r by lia. ring.
  - rewrite shr_1_m by assumption. reflexivity.
Qed.

Lemma round_nearest_even_bounds m l :
  m <= round_nearest_even m l <= m + 1.
Proof.
  unfold round_nearest_even. destruct l as [| []]; try lia.
  destruct (Z.even m); lia.
Qed.

Lemma shr_record_of_loc_m m l : shr_m (shr_record_of_loc m l) = m.
Proof. destruct l as [| []]; reflexivity. Qed.

Lemma fexp_normal e : -1074 <= e - 53 -> fexp 53 1024 e = e - 53.
Proof. unfold fexp, emin. intros H. apply Z.max_l. lia. Qed.

Lemma shr_spec r e k :
  0 <= k -> 0 <= shr_m r ->
  snd (shr r e k) = e + k /\ shr_m (fst (shr r e k)) = shr_m r / 2 ^ k.
Proof.
  intros Hk Hm. destruct k as [| p | p]; cbn [shr fst snd]; [| | lia].
  - rewrite Z.div_1_r. split; [lia | reflexivity].
  - split; [reflexivity | apply iter_shr_1_m; exact Hm].
Qed.

Lemma shift_bounds (mx : positive) :
  let d := Zpos (digits2_pos mx) in
  53 <= d ->
  2 ^ 52 <= Zpos mx / 2 ^ (d - 53) < 2 ^ 53.
Proof.
  intros d Hd. pose proof (digits2_pos_bounds mx) as [Hlo Hhi]. fold d in Hlo, Hhi.
  assert (Hk : 0 < 2 ^ (d - 53)) by (apply Z.pow_pos_nonneg; lia).
  assert (E1 : 2 ^ (d - 1) = 2 ^ (d - 53) * 2 ^ 52)
    by (rewrite <- Z.pow_add_r by lia; f_equal; lia).
  assert (E2 : 2 ^ d = 2 ^ (d - 53) * 2 ^ 53)
    by (rewrite <- Z.pow_add_r by lia; f_equal; lia).
  split.
  - apply Z.div_le_lower_bound; [exact Hk | lia].
  - apply Z.div_lt_upper_bound; [exact Hk | lia].
Qed.

(** The shape of a rounded result in the normal range: the mantissa is the
    53 leading bits of the input, or one more. *)
Lemma binary_round_aux_shape (mx : positive) (ex : Z) (lx : location) :
  let d := Zpos (digits2_pos mx) in
  53 <= d -> -1074 <= ex + d - 53 -> ex + d <= 1023 ->
  exists m e,
    binary_round_aux 53 1024 false (Zpos mx) ex lx = S754_finite false m e
    /\ 2 ^ 52 <= Zpos m < 2 ^ 53
    /\ ex + d - 53 <= e <= ex + d - 52
    /\ let m1 := Zpos mx / 2 ^ (d - 53) in
       (e = ex + (d - 53) /\ m1 <= Zpos m <= m1 + 1
        \/ e = ex + (d - 53) + 1 /\ Zpos m = 2 ^ 52 /\ m1 = 2 ^ 53 - 1).
Proof.
  intros d Hd Hlo Hhi.
  pose proof (shift_bounds mx Hd) as Hm1. fold d in Hm1.
  set (m1 := Zpos mx / 2 ^ (d - 53)) in *.
  unfold binary_round_aux, shr_fexp.
  change (Zdigits2 (Zpos mx)) with d.
  rewrite fexp_normal by lia.
  replace (d + ex - 53 - ex) with (d - 53) by lia.
  destruct (shr_spec (shr_record_of_loc (Zpos mx) lx) ex (d - 53))
    as [He' Hm']; [lia | rewrite shr_record_of_loc_m; lia |].
  rewrite shr_record_of_loc_m in Hm'. fold m1 in Hm'.
  destruct (shr (shr_record_of_loc (Zpos mx) lx) ex (d - 53)) as [mrs' e'].
  cbn [fst snd] in He', Hm'. subst e'. rewrite Hm'.
  pose proof (round_nearest_even_bounds m1 (loc_of_shr_record mrs')) as Hr.
  set (r1 := round_nearest_even m1 (loc_of_shr_record mrs')) in *.
  destruct r1 as [| pr | pr] eqn:Er1; [lia | | lia].
  destruct (Z.eq_dec (Zpos pr) (2 ^ 53)) as [Hcarry | Hno].
  - assert (Hdig : Zdigits2 (Zpos pr) = 54).
    { cbn [Zdigits2]. apply digits2_pos_unique. rewrite Hcarry.
      change (54 - 1) with 53. split; [lia |]. apply Z.pow_lt_mono_r; lia. }
    rewrite Hdig, fexp_normal by lia.
    replace (54 + (ex + (d - 53)) - 53 - (ex + (d - 53))) with 1 by lia.
    destruct (shr_spec (shr_record_of_loc (Zpos pr) loc_Exact)
                (ex + (d - 53)) 1) as [He'' Hm''];
      [lia | rewrite shr_record_of_loc_m; lia |].
    rewrite shr_record_of_loc_m in Hm''.
    destruct (shr (shr_record_of_loc (Zpos pr) loc_Exact) (ex + (d - 53)) 1)
      as [mrs'' e''].
    cbn [fst snd] in He'', Hm''. subst e''. rewrite Hm'', Hcarry.
    change (2 ^ 53 / 2 ^ 1) with (Zpos (2 ^ 52)).
    replace (ex + (d - 53) + 1 <=? 1024 - 53) with true
      by (symmetry; apply Z.leb_le; lia).
    exists (2 ^ 52)%positive, (ex + (d - 53) + 1).
    split; [reflexivity |]. split; [split; [reflexivity | reflexivity] |].
    split; [lia |]. right. split; [reflexivity |]. split; [reflexivity | lia].
  - assert (Hdig : Zdigits2 (Zpos pr) = 53).
    { cbn [Zdigits2]. apply digits2_pos_unique.
      change (53 - 1) with 52. lia. }
    rewrite Hdig, fexp_normal by lia.
    replace (53 + (ex + (d - 53)) - 53 - (ex + (d - 53))) with 0 by lia.
    cbn [shr shr_record_of_loc shr_m].
    replace (ex + (d - 53) <=? 1024 - 53) with true
      by (symmetry; apply Z.leb_le; lia).
    exists pr, (ex + (d - 53)).
    split; [reflexivity |]. split; [lia |]. split; [lia |].
    left. split; [reflexivity | lia].
Qed.

Lemma binary_round_aux_exact (mx : positive) (ex : Z) :
  Zpos (digits2_pos mx) = 53 -> -1074 <= ex <= 971 ->
  binary_round_aux 53 1024 false (Zpos mx) ex loc_Exact
  = S754_finite false mx ex.
Proof.
  intros Hd He. unfold binary_round_aux, shr_fexp.
  cbn [Zdigits2]. rewrite Hd, fexp_normal by lia.
  replace (53 + ex - 53 - ex) with 0 by lia.
  cbn [shr shr_record_of_loc shr_m loc_of_shr_record round_nearest_even Zdigits2].
  rewrite Hd, fexp_normal by lia.
  replace (53 + ex - 53 - ex) with 0 by lia.
  cbn [shr shr_record_of_loc shr_m].
  replace (ex <=? 1024 - 53) with true by (symmetry; apply Z.leb_le; lia).
  reflexivity.
Qed.

Lemma two_neq_0 : ~ (2 == 0)%Q.
Proof. discriminate. Qed.

Lemma pow2_pos e : (0 < 2 ^ e)%Q.
Proof. apply Qpower_0_lt. reflexivity. Qed.

Lemma pow2_add a b : (2 ^ (a + b) == 2 ^ a * 2 ^ b)%Q.
Proof. apply Qpower_plus, two_neq_0. Qed.

Lemma pow2_inject k : 0 <= k -> (2 ^ k == inject_Z (2 ^ k))%Q.
Proof. intros Hk. rewrite Zpower_Qpower by exact Hk. reflexivity. Qed.

(** Rounding a positive quantity in the normal range moves it by at most
    one unit in the last place. *)
Lemma binary_round_aux_faithful (mx : positive) (ex : Z) (lx : location) (V : Q) :
  let d := Zpos (digits2_pos mx) in
  53 <= d -> -1074 <= ex + d - 53 -> ex + d <= 1023 ->
  (inject_Z (Zpos mx) * 2 ^ ex <= V)%Q ->
  (V < inject_Z (Zpos mx + 1) * 2 ^ ex)%Q ->
  exists m e,
    binary_round_aux 53 1024 false (Zpos mx) ex lx = S754_finite false m e
    /\ 2 ^ 52 <= Zpos m < 2 ^ 53
    /\ ex + d - 53 <= e <= ex + d - 52
    /\ (V * (1 - ulp) <= inject_Z (Zpos m) * 2 ^ e)%Q
    /\ (inject_Z (Zpos m) * 2 ^ e <= V * (1 + ulp))%Q.
Proof.
  intros d Hd Hlo Hhi HVlo HVhi.
  destruct (binary_round_aux_shape mx ex lx Hd Hlo Hhi)
    as (m & e & Hres & Hm & He & Hshape).
  fold d in Hshape, He.
  exists m, e. split; [exact Hres |]. split; [exact Hm |]. split; [exact He |].
  pose proof (shift_bounds mx Hd) as Hm1. fold d in Hm1.
  set (k := d - 53) in *. set (m1 := Zpos mx / 2 ^ k) in *.
  assert (Hk : 0 <= k) by (subst k; lia).
  pose proof (Z.div_mod (Zpos mx) (2 ^ k)) as Hdm.
  pose proof (Z.mod_pos_bound (Zpos mx) (2 ^ k)) as Hrem.
  assert (H2k : 0 < 2 ^ k) by (apply Z.pow_pos_nonneg; lia).
  specialize (Hdm ltac:(lia)). specialize (Hrem H2k). fold m1 in Hdm.
  set (rem := Zpos mx mod 2 ^ k) in *.
  (* the quantities as rationals *)
  set (P := (2 ^ ex)%Q) in *.
  set (a := (inject_Z (2 ^ k) * P)%Q).
  assert (HP : (0 < P)%Q) by apply pow2_pos.
  assert (Ha : (0 < a)%Q).
  { unfold a. apply Qmult_lt_0_compat; [| exact HP].
    change 0%Q with (inject_Z 0). rewrite <- Zlt_Qlt. exact H2k. }
  assert (Hmx : (inject_Z (Zpos mx) * P == inject_Z m1 * a + inject_Z rem * P)%Q).
  { rewrite Hdm at 1. rewrite inject_Z_plus, inject_Z_mult. unfold a. ring. }
  assert (Hmx1 : (inject_Z (Zpos mx + 1) * P
                  == inject_Z m1 * a + inject_Z rem * P + P)%Q).
  { rewrite inject_Z_plus, Qmult_plus_distr_l, Hmx.
    change (inject_Z 1) with 1%Q. ring. }
  assert (Hb : (0 <= inject_Z rem * P /\ inject_Z rem * P + P <= a)%Q).
  { split.
    - apply Qmult_le_0_compat; [| apply Qlt_le_weak, HP].
      change 0%Q with (inject_Z 0). rewrite <- Zle_Qle. lia.
    - unfold a.
      setoid_replace (inject_Z rem * P + P)%Q with (inject_Z (rem + 1) * P)%Q
        using relation Qeq
        by (rewrite inject_Z_plus; change (inject_Z 1) with 1%Q; ring).
      apply Qmult_le_compat_r; [| apply Qlt_le_weak, HP].
      rewrite <- Zle_Qle. lia. }
  assert (Hbig : (inject_Z (2 ^ 52) * a <= inject_Z m1 * a)%Q).
  { apply Qmult_le_compat_r; [| apply Qlt_le_weak, Ha].
    rewrite <- Zle_Qle. lia. }
  assert (Hval : (inject_Z m1 * a <= inject_Z (Zpos m) * 2 ^ e
                  /\ inject_Z (Zpos m) * 2 ^ e <= inject_Z m1 * a + a)%Q).
  { destruct Hshape as [(-> & Hmm) | (-> & Hmm & Hm1')].
    - rewrite pow2_add, (pow2_inject k Hk). fold P.
      setoid_replace (inject_Z (Zpos m) * (P * inject_Z (2 ^ k)))%Q
        with (inject_Z (Zpos m) * a)%Q using relation Qeq by (unfold a; ring).
      split.
      + apply Qmult_le_compat_r; [| apply Qlt_le_weak, Ha].
        rewrite <- Zle_Qle. lia.
      + setoid_replace (inject_Z m1 * a + a)%Q with (inject_Z (m1 + 1) * a)%Q
          using relation Qeq
          by (rewrite inject_Z_plus; change (inject_Z 1) with 1%Q; ring).
        apply Qmult_le_compat_r; [| apply Qlt_le_weak, Ha].
        rewrite <- Zle_Qle. lia.
    - rewrite !pow2_add, (pow2_inject k Hk). fold P.
      rewrite Hmm, Hm1'.
      setoid_replace (inject_Z (2 ^ 52) * (P * inject_Z (2 ^ k) * 2 ^ 1))%Q
        with (inject_Z (2 ^ 53 - 1) * a + a)%Q using relation Qeq.
      + split; [| apply Qle_refl].
        assert (0 <= a)%Q by (apply Qlt_le_weak, Ha). lra.
      + unfold a. change (2 ^ 1)%Q with 2%Q.
        change (inject_Z (2 ^ 52)) with (4503599627370496 # 1)%Q.
        change (inject_Z (2 ^ 53 - 1)) with (9007199254740991 # 1)%Q.
        ring. }
  rewrite Hmx in HVlo. rewrite Hmx1 in HVhi.
  destruct Hval as [Hv1 Hv2]. destruct Hb as [Hb1 Hb2].
  change (inject_Z (2 ^ 52)) with (4503599627370496 # 1)%Q in Hbig.
  unfold ulp.
  set (X := (inject_Z (Zpos m) * 2 ^ e)%Q) in *.
  set (Y := (inject_Z m1 * a)%Q) in *.
  set (B := (inject_Z rem * P)%Q) in *.
  split; lra.
Qed.

Lemma value_finite m e :
  (value (S754_finite false m e) == inject_Z (Zpos m) * 2 ^ e)%Q.
Proof. unfold value. ring. Qed.

Lemma pos_iter_xO (p n : positive) :
  Zpos (Pos.iter xO p n) = Zpos p * 2 ^ Zpos n.
Proof.
  induction n as [| n IH] using Pos.peano_ind.
  - cbn [Pos.iter]. change (2 ^ 1) with 2. lia.
  - rewrite Pos.iter_succ, Pos2Z.inj_succ, Z.pow_succ_r by lia.
    change (Zpos (Pos.iter xO p n)~0) with (2 * Zpos (Pos.iter xO p n)).
    rewrite IH. ring.
Qed.

Lemma shl_align_spec (mx : positive) (ex ez : Z) :
  ez <= ex ->
  Zpos (fst (shl_align mx ex ez)) = Zpos mx * 2 ^ (ex - ez)
  /\ snd (shl_align mx ex ez) = ez.
Proof.
  intros Hle. unfold shl_align.
  destruct (ez - ex) as [| q | q] eqn:Hs; cbn [fst snd]; [| lia |].
  - replace (ex - ez) with 0 by lia. split; lia.
  - rewrite pos_iter_xO. replace (ex - ez) with (Zpos q) by lia.
    split; reflexivity.
Qed.

(** A quantity of at most 53 bits is represented as it is. *)
Lemma binary_round_exact (p : positive) (e : Z) :
  let d := Zpos (digits2_pos p) in
  d <= 53 -> -1074 <= e + d - 53 <= 971 ->
  exists m,
    binary_round 53 1024 false p e = S754_finite false m (e + d - 53)
    /\ Zpos m = Zpos p * 2 ^ (53 - d).
Proof.
  intros d Hd He. unfold binary_round.
  fold d. rewrite fexp_normal by lia.
  destruct (shl_align_spec p e (d + e - 53)) as [Hm Hez]; [lia |].
  destruct (shl_align p e (d + e - 53)) as [mz ez].
  cbn [fst snd] in Hm, Hez. subst ez.
  replace (e - (d + e - 53)) with (53 - d) in Hm by lia.
  exists mz. split; [| exact Hm].
  replace (e + d - 53) with (d + e - 53) by lia.
  apply binary_round_aux_exact; [| lia].
  apply digits2_pos_unique. rewrite Hm.
  pose proof (digits2_pos_bounds p) as [Hlo Hhi]. fold d in Hlo, Hhi.
  assert (H2 : 0 < 2 ^ (53 - d)) by (apply Z.pow_pos_nonneg; lia).
  assert (E1 : 2 ^ (53 - 1) = 2 ^ (d - 1) * 2 ^ (53 - d))
    by (rewrite <- Z.pow_add_r by lia; f_equal; lia).
  assert (E2 : 2 ^ 53 = 2 ^ d * 2 ^ (53 - d))
    by (rewrite <- Z.pow_add_r by lia; f_equal; lia).
  rewrite E1, E2. split.
  - apply Z.mul_le_mono_nonneg_r; lia.
  - apply Z.mul_lt_mono_pos_r; lia.
Qed.

(** A quantity of 53 bits or more is rounded by at most one unit in the last
    place. *)
Lemma binary_round_faithful (p : positive) (e : Z) :
  let d := Zpos (digits2_pos p) in
  53 <= d -> -1074 <= e + d - 53 -> e + d <= 1023 ->
  exists f,
    binary_round 53 1024 false p e = f
    /\ normal f
    /\ e + d - 53 <= exponent f <= e + d - 52
    /\ (inject_Z (Zpos p) * 2 ^ e * (1 - ulp) <= value f)%Q
    /\ (value f <= inject_Z (Zpos p) * 2 ^ e * (1 + ulp))%Q.
Proof.
  intros d Hd Hlo Hhi. unfold binary_round.
  fold d. rewrite fexp_normal by lia.
  unfold shl_align.
  destruct (d + e - 53 - e) as [| q | q] eqn:Hs; [| | lia].
  - destruct (binary_round_aux_faithful p e loc_Exact
                (inject_Z (Zpos p) * 2 ^ e)%Q Hd Hlo Hhi)
      as (m & e' & Hres & Hm & He' & Hv1 & Hv2).
    + apply Qle_refl.
    + apply Qmult_lt_compat_r; [apply pow2_pos |].
      rewrite <- Zlt_Qlt. lia.
    + exists (S754_finite false m e'). split; [exact Hres |].
      split; [cbn; lia |]. split; [exact He' |].
      rewrite value_finite. split; assumption.
  - destruct (binary_round_aux_faithful p e loc_Exact
                (inject_Z (Zpos p) * 2 ^ e)%Q Hd Hlo Hhi)
      as (m & e' & Hres & Hm & He' & Hv1 & Hv2).
    + apply Qle_refl.
    + apply Qmult_lt_compat_r; [apply pow2_pos |].
      rewrite <- Zlt_Qlt. lia.
    + exists (S754_finite false m e'). split; [exact Hres |].
      split; [cbn; lia |]. split; [exact He' |].
      rewrite value_finite. split; assumption.
Qed.

(** [float64(n)] is exact for a positive [n] below [2^53]. *)
Lemma of_int_exact (n : Z) :
  0 < n < 2 ^ 53 ->
  exists f,
    Float64.of_int n = f /\ normal f /\ -52 <= exponent f <= 0
    /\ (value f == inject_Z n)%Q.
Proof.
  intros Hn. destruct n as [| p | p]; [lia | | lia].
  unfold Float64.of_int, binary_normalize.
  pose proof (digits2_pos_bounds p) as [Hlo Hhi].
  set (d := Zpos (digits2_pos p)) in *.
  assert (Hd : 1 <= d <= 53).
  { split; [subst d; lia |].
    assert (d - 1 < 53); [| lia].
    apply (Z.pow_lt_mono_r_iff 2); lia. }
  destruct (binary_round_exact p 0) as (m & Hres & Hm);
    [fold d; lia | fold d; lia |]. fold d in Hres, Hm.
  exists (S754_finite false m (0 + d - 53)). split; [exact Hres |].
  assert (H2 : 0 < 2 ^ (53 - d)) by (apply Z.pow_pos_nonneg; lia).
  assert (E1 : 2 ^ 52 = 2 ^ (d - 1) * 2 ^ (53 - d))
    by (rewrite <- Z.pow_add_r by lia; f_equal; lia).
  assert (E2 : 2 ^ 53 = 2 ^ d * 2 ^ (53 - d))
    by (rewrite <- Z.pow_add_r by lia; f_equal; lia).
  split; [| split].
  - cbn [normal]. rewrite Hm. split; [| lia]. rewrite E1, E2. split.
    + apply Z.mul_le_mono_nonneg_r; lia.
    + apply Z.mul_lt_mono_pos_r; lia.
  - cbn [exponent]. lia.
  - rewrite value_finite, Hm, inject_Z_mult.
    rewrite <- (pow2_inject (53 - d)) by lia.
    rewrite <- Qmult_assoc, <- pow2_add.
    replace (53 - d + (0 + d - 53)) with 0 by lia.
    change (2 ^ 0)%Q with 1%Q. ring.
Qed.

Lemma normal_inv f :
  normal f ->
  exists m e, f = S754_finite false m e
              /\ 2 ^ 52 <= Zpos m < 2 ^ 53 /\ -1074 <= e <= 971.
Proof.
  destruct f as [| | | [] m e]; cbn [normal]; try contradiction.
  intros [Hm He]. exists m, e. split; [reflexivity | split; assumption].
Qed.

Lemma normal_digits m : 2 ^ 52 <= Zpos m < 2 ^ 53 -> Zpos (digits2_pos m) = 53.
Proof. intros H. apply digits2_pos_unique. exact H. Qed.

Lemma normal_value_pos f : normal f -> (0 < value f)%Q.
Proof.
  intros (m & e & -> & Hm & He)%normal_inv. rewrite value_finite.
  apply Qmult_lt_0_compat; [| apply pow2_pos].
  change 0%Q with (inject_Z 0). rewrite <- Zlt_Qlt. lia.
Qed.

(** The product of two normal numbers is off by at most one unit in the
    last place. *)
Lemma mul_faithful (x y : Float64.float64) :
  normal x -> normal y ->
  -1126 <= exponent x + exponent y <= 917 ->
  exists f,
    Float64.mul x y = f /\ normal f
    /\ exponent x + exponent y + 52 <= exponent f
       <= exponent x + exponent y + 54
    /\ (value x * value y * (1 - ulp) <= value f)%Q
    /\ (value f <= value x * value y * (1 + ulp))%Q.
Proof.
  intros (mx & ex & -> & Hmx & Hex)%normal_inv
         (my & ey & -> & Hmy & Hey)%normal_inv He.
  cbn [exponent] in *. unfold Float64.mul, SFmul. cbn [xorb].
  fold Float64.prec Float64.emax.
  change Float64.prec with 53. change Float64.emax with 1024.
  set (p := (mx * my)%positive).
  assert (Hp : 2 ^ 104 <= Zpos p < 2 ^ 106).
  { subst p. rewrite Pos2Z.inj_mul.
    change (2 ^ 104) with (2 ^ 52 * 2 ^ 52).
    change (2 ^ 106) with (2 ^ 53 * 2 ^ 53). nia. }
  pose proof (digits2_pos_bounds p) as [Hlo Hhi].
  set (d := Zpos (digits2_pos p)) in *.
  assert (Hd : 105 <= d <= 106).
  { assert (104 < d) by (apply (Z.pow_lt_mono_r_iff 2); lia).
    assert (d - 1 < 106) by (apply (Z.pow_lt_mono_r_iff 2); lia). lia. }
  destruct (binary_round_aux_faithful p (ex + ey) loc_Exact
              (inject_Z (Zpos p) * 2 ^ (ex + ey))%Q)
    as (m & e' & Hres & Hm & He' & Hv1 & Hv2); fold d; try lia.
  - apply Qle_refl.
  - apply Qmult_lt_compat_r; [apply pow2_pos |]. rewrite <- Zlt_Qlt. lia.
  - fold d in He'.
    exists (S754_finite false m e'). split; [exact Hres |].
    split; [cbn; lia |]. split; [cbn [exponent]; lia |].
    assert (E : (value (S754_finite false mx ex) * value (S754_finite false my ey)
                 == inject_Z (Zpos p) * 2 ^ (ex + ey))%Q).
    { rewrite !value_finite, pow2_add. subst p.
      rewrite Pos2Z.inj_mul, inject_Z_mult. ring. }
    rewrite E, value_finite. split; assumption.
Qed.

Lemma SFdiv_core_normal (mx my : positive) (ex ey : Z) :
  2 ^ 52 <= Zpos mx < 2 ^ 53 -> 2 ^ 52 <= Zpos my < 2 ^ 53 ->
  -1074 <= ex - ey - 53 ->
  SFdiv_core_binary 53 1024 (Zpos mx) ex (Zpos my) ey
  = ((Zpos mx * 2 ^ 53) / Zpos my, ex - ey - 53,
     new_location (Zpos my) ((Zpos mx * 2 ^ 53) mod Zpos my)).
Proof.
  intros Hmx Hmy He. unfold SFdiv_core_binary. cbn [Zdigits2].
  rewrite !normal_digits by assumption.
  replace (53 + ex - (53 + ey)) with (ex - ey) by lia.
  rewrite fexp_normal by lia. rewrite Z.min_l by lia.
  replace (ex - ey - (ex - ey - 53)) with 53 by lia.
  rewrite Z.shiftl_mul_pow2 by lia.
  unfold Z.div, Z.modulo.
  destruct (Z.div_eucl (Zpos mx * 2 ^ 53) (Zpos my)) as [q r]. reflexivity.
Qed.

(** The quotient of two normal numbers is off by at most one unit in the
    last place. *)
Lemma div_faithful (x y : Float64.float64) :
  normal x -> normal y ->
  -1021 <= exponent x - exponent y <= 1020 ->
  exists f,
    Float64.div x y = f /\ normal f
    /\ exponent x - exponent y - 53 <= exponent f
       <= exponent x - exponent y - 51
    /\ (value x / value y * (1 - ulp) <= value f)%Q
    /\ (value f <= value x / value y * (1 + ulp))%Q.
Proof.
  intros (mx & ex & -> & Hmx & Hex)%normal_inv
         (my & ey & -> & Hmy & Hey)%normal_inv He.
  cbn [exponent] in *. unfold Float64.div, SFdiv. cbn [xorb].
  change Float64.prec with 53. change Float64.emax with 1024.
  rewrite SFdiv_core_normal by (assumption || lia).
  set (q := Zpos mx * 2 ^ 53 / Zpos my).
  set (r := (Zpos mx * 2 ^ 53) mod Zpos my).
  pose proof (Z.div_mod (Zpos mx * 2 ^ 53) (Zpos my) ltac:(lia)) as Hdm.
  pose proof (Z.mod_pos_bound (Zpos mx * 2 ^ 53) (Zpos my) ltac:(lia)) as Hr.
  fold q r in Hdm, Hr.
  assert (Hq : 2 ^ 52 <= q < 2 ^ 54).
  { split.
    - apply Z.div_le_lower_bound; [lia |].
      change (2 ^ 53) with (2 * 2 ^ 52) in *. nia.
    - apply Z.div_lt_upper_bound; [lia |].
      change (2 ^ 54) with (2 * 2 ^ 53) in *.
      change (2 ^ 53) with (2 * 2 ^ 52) in *. nia. }
  destruct q as [| pq | pq] eqn:Eq; [lia | | lia].
  pose proof (digits2_pos_bounds pq) as [Hlo Hhi].
  set (d := Zpos (digits2_pos pq)) in *.
  assert (Hd : 53 <= d <= 54).
  { assert (52 < d) by (apply (Z.pow_lt_mono_r_iff 2); lia).
    assert (d - 1 < 54) by (apply (Z.pow_lt_mono_r_iff 2); lia). lia. }
  set (e' := ex - ey - 53) in *.
  set (V := (value (S754_finite false mx ex) / value (S754_finite false my ey))%Q).
  (* the exact quotient lies between [q] and [q + 1] units *)
  assert (HMY : (0 < inject_Z (Zpos my))%Q)
    by (change 0%Q with (inject_Z 0); rewrite <- Zlt_Qlt; lia).
  assert (HP : (0 < 2 ^ e')%Q) by apply pow2_pos.
  assert (HPy : (0 < 2 ^ ey)%Q) by apply pow2_pos.
  assert (EV : (V * inject_Z (Zpos my)
                == (inject_Z (Zpos pq) * inject_Z (Zpos my) + inject_Z r)
                   * 2 ^ e')%Q).
  { unfold V. rewrite !value_finite.
    assert (Eex : (2 ^ ex == 2 ^ e' * 2 ^ 53 * 2 ^ ey)%Q).
    { rewrite <- !pow2_add. replace (e' + 53 + ey) with ex by (subst e'; lia).
      reflexivity. }
    rewrite Eex.
    assert (Ez : (inject_Z (Zpos pq) * inject_Z (Zpos my) + inject_Z r
                  == inject_Z (Zpos mx) * 2 ^ 53)%Q).
    { rewrite (pow2_inject 53) by lia.
      rewrite <- !inject_Z_mult, <- inject_Z_plus.
      apply inject_Z_injective. lia. }
    rewrite Ez. field. split; apply Qnot_eq_sym, Qlt_not_eq; assumption. }
  assert (Hr1 : (0 <= inject_Z r * 2 ^ e')%Q).
  { apply Qmult_le_0_compat; [| apply Qlt_le_weak, HP].
    change 0%Q with (inject_Z 0). rewrite <- Zle_Qle. lia. }
  assert (Hr2 : (inject_Z r * 2 ^ e' < inject_Z (Zpos my) * 2 ^ e')%Q).
  { apply Qmult_lt_compat_r; [exact HP |]. rewrite <- Zlt_Qlt. lia. }
  assert (HV1 : (inject_Z (Zpos pq) * 2 ^ e' <= V)%Q).
  { apply Qmult_le_r with (z := inject_Z (Zpos my)); [exact HMY |].
    rewrite EV. ring_simplify.
    set (A := (inject_Z (Zpos pq) * 2 ^ e' * inject_Z (Zpos my))%Q).
    set (B := (inject_Z (Zpos pq) * inject_Z (Zpos my) * 2 ^ e')%Q).
    assert (A == B)%Q by (unfold A, B; ring). lra. }
  assert (HV2 : (V < inject_Z (Zpos pq + 1) * 2 ^ e')%Q).
  { apply Qmult_lt_r with (z := inject_Z (Zpos my)); [exact HMY |].
    rewrite EV, inject_Z_plus. change (inject_Z 1) with 1%Q.
    set (A := (inject_Z (Zpos pq) * inject_Z (Zpos my))%Q) in *.
    setoid_replace ((A + inject_Z r) * 2 ^ e')%Q
      with (A * 2 ^ e' + inject_Z r * 2 ^ e')%Q using relation Qeq by ring.
    setoid_replace ((inject_Z (Zpos pq) + 1) * 2 ^ e' * inject_Z (Zpos my))%Q
      with (A * 2 ^ e' + inject_Z (Zpos my) * 2 ^ e')%Q
      using relation Qeq by (unfold A; ring).
    lra. }
  destruct (binary_round_aux_faithful pq e'
              (new_location (Zpos my) r) V)
    as (m & e'' & Hres & Hm & He'' & Hv1 & Hv2); fold d; try lia;
    try assumption.
  fold d in He''.
  exists (S754_finite false m e''). split; [exact Hres |].
  split; [cbn; lia |]. split; [cbn [exponent]; lia |].
  rewrite value_finite. split; assumption.
Qed.

(** The sum of two normal numbers is off by at most one unit in the last
    place. *)
Lemma add_faithful (x y : Float64.float64) :
  normal x -> normal y ->
  exponent x <= 960 -> exponent y <= 960 ->
  exists f,
    Float64.add x y = f /\ normal f
    /\ Z.max (exponent x) (exponent y) <= exponent f
       <= Z.max (exponent x) (exponent y) + 2
    /\ ((value x + value y) * (1 - ulp) <= value f)%Q
    /\ (value f <= (value x + value y) * (1 + ulp))%Q.
Proof.
  intros (mx & ex & -> & Hmx & Hex)%normal_inv
         (my & ey & -> & Hmy & Hey)%normal_inv Hx Hy.
  cbn [exponent] in *. unfold Float64.add, SFadd.
  change Float64.prec with 53. change Float64.emax with 1024.
  cbn [cond_Zopp].
  set (ez := Z.min ex ey). set (M := Z.max ex ey).
  destruct (shl_align_spec mx ex ez) as [Hax _]; [subst ez; lia |].
  destruct (shl_align_spec my ey ez) as [Hay _]; [subst ez; lia |].
  set (ax := fst (shl_align mx ex ez)) in *.
  set (ay := fst (shl_align my ey ez)) in *.
  change (Zpos ax + Zpos ay) with (Zpos (ax + ay)).
  cbn [binary_normalize].
  set (p := (ax + ay)%positive).
  assert (Ep : Zpos p = Zpos mx * 2 ^ (ex - ez) + Zpos my * 2 ^ (ey - ez))
    by (subst p; rewrite Pos2Z.inj_add; lia).
  assert (Hx2 : 0 < 2 ^ (ex - ez)) by (apply Z.pow_pos_nonneg; subst ez; lia).
  assert (Hy2 : 0 < 2 ^ (ey - ez)) by (apply Z.pow_pos_nonneg; subst ez; lia).
  assert (HxM : 2 ^ (ex - ez) <= 2 ^ (M - ez))
    by (apply Z.pow_le_mono_r; subst ez M; lia).
  assert (HyM : 2 ^ (ey - ez) <= 2 ^ (M - ez))
    by (apply Z.pow_le_mono_r; subst ez M; lia).
  assert (HM : 2 ^ (ex - ez) = 2 ^ (M - ez) \/ 2 ^ (ey - ez) = 2 ^ (M - ez))
    by (destruct (Z.max_spec ex ey) as [[_ E] | [_ E]]; fold M in E;
        rewrite E; auto).
  assert (Hp : 2 ^ (52 + (M - ez)) <= Zpos p < 2 ^ (54 + (M - ez))).
  { rewrite !Z.pow_add_r by (subst ez M; lia).
    change (2 ^ 54) with (2 * 2 ^ 53). change (2 ^ 53) with (2 * 2 ^ 52) in *.
    set (T := 2 ^ 52) in *. assert (0 < T) by (subst T; lia).
    set (A := 2 ^ (ex - ez)) in *. set (B := 2 ^ (ey - ez)) in *.
    set (C := 2 ^ (M - ez)) in *. rewrite Ep. nia. }
  pose proof (digits2_pos_bounds p) as [Hlo Hhi].
  set (d := Zpos (digits2_pos p)) in *.
  assert (Hd : 53 + (M - ez) <= d <= 54 + (M - ez)).
  { assert (52 + (M - ez) < d) by (apply (Z.pow_lt_mono_r_iff 2); lia).
    assert (d - 1 < 54 + (M - ez))
      by (apply (Z.pow_lt_mono_r_iff 2); subst ez M; lia).
    lia. }
  destruct (binary_round_faithful p ez)
    as (f & Hres & Hn & He & Hv1 & Hv2); fold d; try (subst ez M; lia).
  fold d in He.
  exists f. split; [exact Hres |]. split; [exact Hn |].
  split; [lia |].
  assert (E : (value (S754_finite false mx ex) + value (S754_finite false my ey)
               == inject_Z (Zpos p) * 2 ^ ez)%Q).
  { rewrite !value_finite, Ep, inject_Z_plus, !inject_Z_mult.
    rewrite <- !pow2_inject by (subst ez; lia).
    rewrite Qmult_plus_distr_l, <- !Qmult_assoc, <- !pow2_add.
    replace (ex - ez + ez) with ex by lia.
    replace (ey - ez + ez) with ey by lia. reflexivity. }
  rewrite E. split; assumption.
Qed.

(** [int(f)] of a normal number below [2^63] is its integer part. *)
Lemma to_int_floor (f : Float64.float64) :
  normal f -> exponent f <= 10 ->
  (inject_Z (Float64.to_int f) <= value f)%Q
  /\ (value f < inject_Z (Float64.to_int f) + 1)%Q.
Proof.
  intros (m & e & -> & Hm & He)%normal_inv Hexp. cbn [exponent] in Hexp.
  rewrite value_finite. unfold Float64.to_int, Float64.truncate.
  destruct e as [| pe | pe].
  - rewrite Z.shiftl_0_r.
    replace ((GoInt.min_int <=? Zpos m) && (Zpos m <=? GoInt.max_int))
      with true
      by (symmetry; apply andb_true_intro;
          unfold GoInt.min_int, GoInt.max_int;
          split; [apply Z.leb_le | apply Z.leb_le]; lia).
    change (2 ^ 0)%Q with 1%Q. split; lra.
  - rewrite Z.shiftl_mul_pow2 by lia.
    assert (H2 : 1 <= 2 ^ Zpos pe <= 2 ^ 10).
    { split; [| apply Z.pow_le_mono_r; lia].
      pose proof (Z.pow_pos_nonneg 2 (Zpos pe)). lia. }
    replace ((GoInt.min_int <=? Zpos m * 2 ^ Zpos pe)
             && (Zpos m * 2 ^ Zpos pe <=? GoInt.max_int)) with true.
    + rewrite inject_Z_mult, <- pow2_inject by lia. split; lra.
    + symmetry. apply andb_true_intro.
      unfold GoInt.min_int, GoInt.max_int.
      change (2 ^ 63) with (2 ^ 53 * 2 ^ 10).
      split; apply Z.leb_le; nia.
  - rewrite Z.shiftr_div_pow2 by lia.
    set (k := Zpos pe).
    assert (H2 : 0 < 2 ^ k) by (apply Z.pow_pos_nonneg; lia).
    pose proof (Z.div_mod (Zpos m) (2 ^ k) ltac:(lia)) as Hdm.
    pose proof (Z.mod_pos_bound (Zpos m) (2 ^ k) H2) as Hr.
    set (q := Zpos m / 2 ^ k) in *. set (r := Zpos m mod 2 ^ k) in *.
    assert (Hq : 0 <= q <= Zpos m).
    { split; [apply Z.div_pos; lia |]. subst q.
      apply Z.div_le_upper_bound; [lia |]. nia. }
    replace ((GoInt.min_int <=? q) && (q <=? GoInt.max_int)) with true
      by (symmetry; apply andb_true_intro;
          unfold GoInt.min_int, GoInt.max_int;
          change (2 ^ 63) with (2 ^ 53 * 2 ^ 10);
          split; apply Z.leb_le; lia).
    assert (HK : (0 < 2 ^ k)%Q) by apply pow2_pos.
    assert (Einv : (2 ^ Zneg pe * 2 ^ k == 1)%Q).
    { rewrite <- pow2_add. replace (Zneg pe + k) with 0 by (subst k; lia).
      reflexivity. }
    assert (Em : (inject_Z (Zpos m) * 2 ^ Zneg pe
                  == inject_Z q + inject_Z r * 2 ^ Zneg pe)%Q).
    { rewrite Hdm at 1. rewrite inject_Z_plus, inject_Z_mult.
      rewrite <- (pow2_inject k) by (subst k; lia).
      rewrite Qmult_plus_distr_l.
      setoid_replace (2 ^ k * inject_Z q * 2 ^ Zneg pe)%Q
        with (inject_Z q * (2 ^ Zneg pe * 2 ^ k))%Q using relation Qeq by ring.
      rewrite Einv. ring. }
    assert (HN : (0 < 2 ^ Zneg pe)%Q) by apply pow2_pos.
    assert (Hr1 : (0 <= inject_Z r * 2 ^ Zneg pe)%Q).
    { apply Qmult_le_0_compat; [| apply Qlt_le_weak, HN].
      change 0%Q with (inject_Z 0). rewrite <- Zle_Qle. lia. }
    assert (Hr2 : (inject_Z r * 2 ^ Zneg pe < 1)%Q).
    { rewrite <- Einv, (Qmult_comm (2 ^ Zneg pe)).
      apply Qmult_lt_compat_r; [exact HN |].
      rewrite (pow2_inject k) by (subst k; lia). rewrite <- Zlt_Qlt. lia. }
    rewrite Em. split; lra.
Qed.

Lemma normal_exponent_small (f : Float64.float64) :
  normal f -> (value f < 2 ^ 62)%Q -> exponent f <= 10.
Proof.
  intros (m & e & -> & Hm & He)%normal_inv Hv. cbn [exponent].
  rewrite value_finite in Hv.
  destruct (Z.le_gt_cases e 10) as [| Hbig]; [assumption | exfalso].
  assert (H1 : (2 ^ 10 <= 2 ^ e)%Q)
    by (apply Qpower_le_compat_l; [lia | discriminate]).
  assert (H2 : (inject_Z (2 ^ 52) * 2 ^ e <= inject_Z (Zpos m) * 2 ^ e)%Q).
  { apply Qmult_le_compat_r; [| apply Qlt_le_weak, pow2_pos].
    rewrite <- Zle_Qle. lia. }
  change (inject_Z (2 ^ 52)) with (4503599627370496 # 1)%Q in H2.
  change (2 ^ 10)%Q with (1024 # 1)%Q in H1.
  change (2 ^ 62)%Q with (4611686018427387904 # 1)%Q in Hv.
  set (X := (2 ^ e)%Q) in *. set (Y := (inject_Z (Zpos m) * X)%Q) in *.
  lra.
Qed.

(** [d.Seconds()] of a positive duration: the quotient [d / 1e9] after two
    roundings. *)
Lemma Seconds_value (d : Time.Duration) :
  0 < d <= GoInt.max_int ->
  exists f,
    Time.Seconds d = f /\ normal f /\ -110 <= exponent f <= 5
    /\ (inject_Z d / 1000000000 * ((1 - ulp) * (1 - ulp)) <= value f)%Q
    /\ (value f <= inject_Z d / 1000000000 * ((1 + ulp) * (1 + ulp)))%Q.
Proof.
  intros Hd. unfold Time.Seconds, Time.Second.
  rewrite Z.quot_div_nonneg, Z.rem_mod_nonneg by lia.
  pose proof (Z.div_mod d 1000000000 ltac:(lia)) as Hdm.
  pose proof (Z.mod_pos_bound d 1000000000 ltac:(lia)) as Hr.
  set (sec := d / 1000000000) in *. set (nsec := d mod 1000000000) in *.
  assert (Hsec : 0 <= sec < 2 ^ 34).
  { unfold GoInt.max_int in Hd. split; [apply Z.div_pos; lia |].
    apply Z.div_lt_upper_bound; lia. }
  assert (ED : (inject_Z d / 1000000000
                == inject_Z sec + inject_Z nsec / 1000000000)%Q).
  { rewrite Hdm at 1. rewrite inject_Z_plus, inject_Z_mult.
    change (inject_Z 1000000000) with 1000000000%Q. field. }
  destruct (of_int_exact 1000000000) as (g & Hg & Hgn & Hge & Hgv); [lia |].
  change (inject_Z 1000000000) with 1000000000%Q in Hgv.
  rewrite Hg.
  assert (Hfrac : 0 < nsec ->
            exists q, Float64.div (Float64.of_int nsec) g = q /\ normal q
              /\ -105 <= exponent q <= 1
              /\ (inject_Z nsec / 1000000000 * (1 - ulp) <= value q)%Q
              /\ (value q <= inject_Z nsec / 1000000000 * (1 + ulp))%Q).
  { intros Hn.
    destruct (of_int_exact nsec) as (a & Ha & Han & Hae & Hav); [lia |].
    rewrite Ha.
    destruct (div_faithful a g Han Hgn) as (q & Hq & Hqn & Hqe & Hq1 & Hq2);
      [lia |].
    exists q. split; [exact Hq |]. split; [exact Hqn |]. split; [lia |].
    rewrite Hav, Hgv in Hq1, Hq2. split; assumption. }
  assert (Hu : (0 < 1 - ulp /\ 1 - ulp <= 1 /\ 1 <= 1 + ulp)%Q)
    by (unfold ulp; repeat split; lra).
  destruct (Z.eq_dec nsec 0) as [Hn0 | Hn0].
  - (* whole seconds *)
    assert (Hs : 0 < sec) by lia.
    destruct (of_int_exact sec) as (a & Ha & Han & Hae & Hav); [lia |].
    rewrite Hn0. change (Float64.of_int 0) with (S754_zero false).
    rewrite Ha.
    apply normal_inv in Hgn as Hg'. destruct Hg' as (mg & eg & -> & _).
    apply normal_inv in Han as Ha'. destruct Ha' as (ma & ea & Ea & _).
    exists a. split; [rewrite Ea; reflexivity |].
    split; [exact Han |]. split; [lia |].
    rewrite ED, Hn0, Hav. change (inject_Z 0) with 0%Q.
    assert (0 <= inject_Z sec)%Q
      by (change 0%Q with (inject_Z 0); rewrite <- Zle_Qle; lia).
    unfold ulp in *. set (S := inject_Z sec) in *.
    split; [| ].
    + setoid_replace (0 / 1000000000)%Q with 0%Q using relation Qeq
        by reflexivity.
      nra.
    + setoid_replace (0 / 1000000000)%Q with 0%Q using relation Qeq
        by reflexivity.
      nra.
  - destruct Hfrac as (q & Hq & Hqn & Hqe & Hq1 & Hq2); [lia |].
    rewrite Hq.
    assert (Hqpos : (0 <= inject_Z nsec / 1000000000)%Q).
    { apply Qle_shift_div_l; [reflexivity |]. rewrite Qmult_0_l.
      change 0%Q with (inject_Z 0). rewrite <- Zle_Qle. lia. }
    destruct (Z.eq_dec sec 0) as [Hs0 | Hs0].
    + (* less than a second *)
      rewrite Hs0. change (Float64.of_int 0) with (S754_zero false).
      apply normal_inv in Hqn as Hq'. destruct Hq' as (mq & eq & Eq & _).
      exists q. split; [rewrite Eq; reflexivity |].
      split; [exact Hqn |]. split; [lia |].
      rewrite ED, Hs0. change (inject_Z 0) with 0%Q.
      unfold ulp in *. set (N := (inject_Z nsec / 1000000000)%Q) in *.
      split; nra.
    + assert (Hs : 0 < sec) by lia.
      destruct (of_int_exact sec) as (a & Ha & Han & Hae & Hav); [lia |].
      rewrite Ha.
      destruct (add_faithful a q Han Hqn) as (f & Hf & Hfn & Hfe & Hf1 & Hf2);
        [lia | lia |].
      exists f. split; [exact Hf |]. split; [exact Hfn |]. split; [lia |].
      rewrite ED. rewrite Hav in Hf1, Hf2.
      assert (0 <= inject_Z sec)%Q
        by (change 0%Q with (inject_Z 0); rewrite <- Zle_Qle; lia).
      unfold ulp in *. set (S := inject_Z sec) in *.
      set (N := (inject_Z nsec / 1000000000)%Q) in *.
      set (Vq := value q) in *. set (Vf := value f) in *.
      split; nra.
Qed.

(** The refill amount of [Allow] against the exact quotient: the four
    roundings of the [float64] computation move it by a factor within
    [(1 - 2^-52)^4 .. (1 + 2^-52)^4] before the fraction is cut off. *)
Lemma newTokens_enclosure (tb : TokenBucket) (now : Time.Time) :
  interval tb = 1 * Time.Second ->
  0 < Rate tb ->
  0 < Time.Sub now (LastCheck tb) ->
  Time.Sub now (LastCheck tb) * Rate tb < 250000 * Time.Second ->
  let X := (inject_Z (Time.Sub now (LastCheck tb) * Rate tb) / 1000000000)%Q in
  (inject_Z (newTokens tb now)
   <= X * ((1 + ulp) * (1 + ulp) * (1 + ulp) * (1 + ulp)))%Q
  /\ (X * ((1 - ulp) * (1 - ulp) * (1 - ulp) * (1 - ulp))
      < inject_Z (newTokens tb now) + 1)%Q.
Proof.
  intros Hi HR Hd Hx X. unfold newTokens. rewrite Hi, Seconds_Second.
  set (d := Time.Sub now (LastCheck tb)) in *.
  set (R := Rate tb) in *. unfold Time.Second in Hx.
  assert (Hd' : d < 250000 * 1000000000) by nia.
  assert (HR' : R < 250000 * 1000000000) by nia.
  destruct (Seconds_value d) as (S & -> & HSn & HSe & HS1 & HS2);
    [unfold GoInt.max_int; lia |].
  destruct (of_int_exact R) as (r & -> & Hrn & Hre & Hrv); [lia |].
  destruct (mul_faithful S r HSn Hrn) as (P & -> & HPn & HPe & HP1 & HP2);
    [lia |].
  set (one := S754_finite false 4503599627370496 (-52)).
  assert (Hone : normal one) by (cbn; lia).
  assert (Hv1 : (value one == 1)%Q) by reflexivity.
  destruct (div_faithful P one HPn Hone) as (F & -> & HFn & HFe & HF1 & HF2);
    [cbn [exponent one]; lia |].
  rewrite Hv1 in HF1, HF2. rewrite Hrv in HP1, HP2.
  (* the exact quotient *)
  assert (HRq : (0 < inject_Z R)%Q)
    by (change 0%Q with (inject_Z 0); rewrite <- Zlt_Qlt; lia).
  assert (EX : (X == inject_Z d / 1000000000 * inject_Z R)%Q).
  { unfold X. rewrite inject_Z_mult. field. }
  assert (HX : (0 <= X /\ X < 250000)%Q).
  { unfold X. split.
    - apply Qle_shift_div_l; [reflexivity |]. rewrite Qmult_0_l.
      change 0%Q with (inject_Z 0). rewrite <- Zle_Qle. nia.
    - apply Qlt_shift_div_r; [reflexivity |].
      change (250000 * 1000000000)%Q with (inject_Z (250000 * 1000000000)).
      rewrite <- Zlt_Qlt. exact Hx. }
  set (Dq := (inject_Z d / 1000000000)%Q) in *.
  assert (HSR1 : (Dq * ((1 - ulp) * (1 - ulp)) * inject_Z R
                  <= value S * inject_Z R)%Q)
    by (apply Qmult_le_compat_r; [exact HS1 | apply Qlt_le_weak, HRq]).
  assert (HSR2 : (value S * inject_Z R
                  <= Dq * ((1 + ulp) * (1 + ulp)) * inject_Z R)%Q)
    by (apply Qmult_le_compat_r; [exact HS2 | apply Qlt_le_weak, HRq]).
  assert (E1 : (Dq * ((1 - ulp) * (1 - ulp)) * inject_Z R
                == X * ((1 - ulp) * (1 - ulp)))%Q) by (rewrite EX; ring).
  assert (E2 : (Dq * ((1 + ulp) * (1 + ulp)) * inject_Z R
                == X * ((1 + ulp) * (1 + ulp)))%Q) by (rewrite EX; ring).
  rewrite E1 in HSR1. rewrite E2 in HSR2.
  set (W := (value S * inject_Z R)%Q) in *.
  set (VP := value P) in *.
  assert (HF1' : (VP * (1 - ulp) <= value F)%Q).
  { setoid_replace (VP * (1 - ulp))%Q with (VP / 1 * (1 - ulp))%Q
      using relation Qeq by field. exact HF1. }
  assert (HF2' : (value F <= VP * (1 + ulp))%Q).
  { setoid_replace (VP * (1 + ulp))%Q with (VP / 1 * (1 + ulp))%Q
      using relation Qeq by field. exact HF2. }
  assert (Hlow : (X * ((1 - ulp) * (1 - ulp) * (1 - ulp) * (1 - ulp))
                  <= value F)%Q)
    by (unfold ulp in *; destruct HX; lra).
  assert (Hhigh : (value F
                   <= X * ((1 + ulp) * (1 + ulp) * (1 + ulp) * (1 + ulp)))%Q)
    by (unfold ulp in *; destruct HX; lra).
  assert (Hsmall : (value F < 2 ^ 62)%Q).
  { change (2 ^ 62)%Q with (4611686018427387904 # 1)%Q.
    unfold ulp in *. destruct HX. lra. }
  destruct (to_int_floor F HFn (normal_exponent_small F HFn Hsmall))
    as [Hz1 Hz2].
  split; lra.
Qed.

Lemma Sub_elapsed (now last : Time.Time) :
  0 <= now - last <= GoInt.max_int -> Time.Sub now last = now - last.
Proof.
  intros H. unfold Time.Sub, Time.maxDuration, Time.minDuration.
  unfold GoInt.max_int, GoInt.min_int in *.
  destruct (Z.ltb_spec (2 ^ 63 - 1) (now - last)); [lia |].
  destruct (Z.ltb_spec (now - last) (- 2 ^ 63)); [lia | reflexivity].
Qed.

Lemma inject_Z_succ_le (a b : Z) : a + 1 <= b -> (inject_Z a + 1 <= inject_Z b)%Q.
Proof.
  intros H. change 1%Q with (inject_Z 1). rewrite <- inject_Z_plus.
  rewrite <- Zle_Qle. exact H.
Qed.

(** The refill amount never exceeds the whole tokens of the exact product. *)
Lemma newTokens_upper (tb : TokenBucket) (now : Time.Time) :
  interval tb = 1 * Time.Second ->
  0 < Rate tb ->
  LastCheck tb <= now ->
  (now - LastCheck tb) * Rate tb < 250000 * Time.Second ->
  newTokens tb now <= spec_refill_amount tb now.
Proof.
  intros Hi HR Hle Hx. unfold spec_refill_amount.
  assert (Hsub : Time.Sub now (LastCheck tb) = now - LastCheck tb).
  { apply Sub_elapsed. unfold GoInt.max_int, Time.Second in *. nia. }
  destruct (Z.eq_dec now (LastCheck tb)) as [-> | Hne].
  - rewrite Z.sub_diag, Z.mul_0_l. change (0 / 1000000000) with 0.
    apply newTokens_no_elapsed, Hi.
  - pose proof (newTokens_enclosure tb now Hi HR) as He.
    rewrite Hsub in He. specialize (He ltac:(lia) Hx).
    cbv zeta in He. destruct He as [Hhigh _].
    set (x := (now - LastCheck tb) * Rate tb) in *.
    pose proof (Z.div_mod x 1000000000 ltac:(lia)) as Hdm.
    pose proof (Z.mod_pos_bound x 1000000000 ltac:(lia)) as Hr.
    set (n := x / 1000000000) in *. set (r := x mod 1000000000) in *.
    destruct (Z.le_gt_cases (newTokens tb now) n) as [| Hgt]; [assumption |].
    exfalso. apply Z.le_succ_l in Hgt. unfold Z.succ in Hgt.
    apply inject_Z_succ_le in Hgt.
    assert (EX : (inject_Z x / 1000000000
                  == inject_Z n + inject_Z r * (1 # 1000000000))%Q).
    { rewrite Hdm at 1. rewrite inject_Z_plus, inject_Z_mult.
      change (inject_Z 1000000000) with 1000000000%Q. field. }
    rewrite EX in Hhigh.
    assert (Hrq : (inject_Z r <= 999999999)%Q)
      by (change 999999999%Q with (inject_Z 999999999);
          rewrite <- Zle_Qle; lia).
    assert (Hxq : (1000000000 * inject_Z n + inject_Z r
                   < 250000000000000)%Q).
    { change 1000000000%Q with (inject_Z 1000000000).
      change 250000000000000%Q with (inject_Z 250000000000000).
      rewrite <- inject_Z_mult, <- inject_Z_plus, <- Zlt_Qlt.
      unfold Time.Second in Hx. lia. }
    assert (Hnq : (0 <= inject_Z n)%Q).
    { change 0%Q with (inject_Z 0). rewrite <- Zle_Qle.
      subst n. apply Z.div_pos; [subst x; nia | lia]. }
    unfold ulp in *.
    set (N := inject_Z n) in *. set (Rq := inject_Z r) in *.
    set (T := inject_Z (newTokens tb now)) in *.
    lra.
Qed.

(** The refill amount is never negative, is at most one short of the whole
    tokens of the exact product, and is not short at all unless the product
    is a whole number of tokens. *)
Lemma newTokens_lower (tb : TokenBucket) (now : Time.Time) :
  interval tb = 1 * Time.Second ->
  0 < Rate tb ->
  LastCheck tb < now ->
  (now - LastCheck tb) * Rate tb < 250000 * Time.Second ->
  0 <= newTokens tb now
  /\ spec_refill_amount tb now - 1 <= newTokens tb now
  /\ (((now - LastCheck tb) * Rate tb) mod 1000000000 <> 0 ->
      spec_refill_amount tb now <= newTokens tb now).
Proof.
  intros Hi HR Hlt Hx. unfold spec_refill_amount.
  assert (Hsub : Time.Sub now (LastCheck tb) = now - LastCheck tb).
  { apply Sub_elapsed. unfold GoInt.max_int, Time.Second in *. nia. }
  pose proof (newTokens_enclosure tb now Hi HR) as He.
  rewrite Hsub in He. specialize (He ltac:(lia) Hx).
  cbv zeta in He. destruct He as [_ Hlow].
  set (x := (now - LastCheck tb) * Rate tb) in *.
  pose proof (Z.div_mod x 1000000000 ltac:(lia)) as Hdm.
  pose proof (Z.mod_pos_bound x 1000000000 ltac:(lia)) as Hr.
  set (n := x / 1000000000) in *. set (r := x mod 1000000000) in *.
  assert (EX : (inject_Z x / 1000000000
                == inject_Z n + inject_Z r * (1 # 1000000000))%Q).
  { rewrite Hdm at 1. rewrite inject_Z_plus, inject_Z_mult.
    change (inject_Z 1000000000) with 1000000000%Q. field. }
  rewrite EX in Hlow.
  assert (Hrq : (0 <= inject_Z r)%Q)
    by (change 0%Q with (inject_Z 0); rewrite <- Zle_Qle; lia).
  assert (Hxq : (1000000000 * inject_Z n + inject_Z r < 250000000000000)%Q).
  { change 1000000000%Q with (inject_Z 1000000000).
    change 250000000000000%Q with (inject_Z 250000000000000).
    rewrite <- inject_Z_mult, <- inject_Z_plus, <- Zlt_Qlt.
    unfold Time.Second in Hx. lia. }
  assert (Hn : 0 <= n) by (subst n; apply Z.div_pos; [subst x; nia | lia]).
  assert (Hnq : (0 <= inject_Z n)%Q)
    by (change 0%Q with (inject_Z 0); rewrite <- Zle_Qle; exact Hn).
  set (z := newTokens tb now) in *.
  split; [| split].
  - destruct (Z.le_gt_cases 0 z) as [| Hneg]; [assumption | exfalso].
    assert (Hz : (inject_Z z + 1 <= 0)%Q)
      by (change 0%Q with (inject_Z 0); apply inject_Z_succ_le; lia).
    unfold ulp in *.
    set (N := inject_Z n) in *. set (Rq := inject_Z r) in *.
    set (T := inject_Z z) in *. lra.
  - destruct (Z.le_gt_cases (n - 1) z) as [| Hneg]; [assumption | exfalso].
    assert (Hz : (inject_Z z + 1 <= inject_Z n - 1)%Q).
    { change 1%Q with (inject_Z 1) at 2. unfold Qminus.
      rewrite <- inject_Z_opp, <- inject_Z_plus.
      apply inject_Z_succ_le. lia. }
    unfold ulp in *.
    set (N := inject_Z n) in *. set (Rq := inject_Z r) in *.
    set (T := inject_Z z) in *. lra.
  - intros Hr0.
    destruct (Z.le_gt_cases n z) as [| Hneg]; [assumption | exfalso].
    assert (Hz : (inject_Z z + 1 <= inject_Z n)%Q)
      by (apply inject_Z_succ_le; lia).
    assert (Hr1 : (1 <= inject_Z r)%Q)
      by (change 1%Q with (inject_Z 1); rewrite <- Zle_Qle; lia).
    unfold ulp in *.
    set (N := inject_Z n) in *. set (Rq := inject_Z r) in *.
    set (T := inject_Z z) in *. lra.
Qed.

(** C3, as the code has it. In every call of [Allow] on a bucket with the
    interval of one second and a positive rate, when less than 250000
    tokens' worth of time has elapsed since [LastCheck], the refill amount,
    computed in [float64], is never more than the whole tokens in
    [elapsed seconds * rate]; once time has elapsed it is never negative and
    never less than that number minus one, and it is that number whenever
    [elapsed nanoseconds * rate] is not a multiple of [1e9]: the rounding can
    lose one token, at a whole number of tokens only. When the amount is
    positive the refill step sets the tokens to the smaller of
    [tokens + amount] (Go's [int] sum, the exact sum whenever that is an
    [int]) and the capacity, and [LastCheck] to the current time; otherwise
    the step changes nothing, as it does when no time has elapsed. After it
    only the tokens change, by the one token taken. Capacity, rate and
    interval are never written. *)
Theorem C3_refill_step (tb : TokenBucket) (now : Time.Time) :
  let amount := newTokens tb now in
  let refilled := refill tb now in
  let whole := ((now - LastCheck tb) * Rate tb) / 1000000000 in
  (interval tb = 1 * Time.Second ->
   0 < Rate tb ->
   LastCheck tb <= now ->
   (now - LastCheck tb) * Rate tb < 250000 * Time.Second ->
   amount <= whole
   /\ (LastCheck tb < now ->
       0 <= amount
       /\ whole - 1 <= amount
       /\ (((now - LastCheck tb) * Rate tb) mod 1000000000 <> 0 ->
           amount = whole)))
  /\ (0 < amount ->
      Tokens refilled = Z.min (GoInt.add (Tokens tb) amount) (Cap tb)
      /\ (GoInt.in_range (Tokens tb + amount) ->
          Tokens refilled = Z.min (Tokens tb + amount) (Cap tb))
      /\ LastCheck refilled = now)
  /\ (amount <= 0 -> refilled = tb)
  /\ (now = LastCheck tb -> interval tb = 1 * Time.Second -> refilled = tb)
  /\ Allow tb now = takeToken refilled
  /\ fst (Allow tb now) = (0 <? Tokens refilled)
  /\ Tokens (snd (Allow tb now))
     = (if 0 <? Tokens refilled then GoInt.sub (Tokens refilled) 1
        else Tokens refilled)
  /\ LastCheck (snd (Allow tb now)) = LastCheck refilled
  /\ Cap (snd (Allow tb now)) = Cap tb
  /\ Rate (snd (Allow tb now)) = Rate tb
  /\ interval (snd (Allow tb now)) = interval tb.
Proof.
  intros amount refilled whole. subst amount refilled whole.
  split; [| split; [| split]].
  - intros Hi HR Hle Hx.
    pose proof (newTokens_upper tb now Hi HR Hle Hx) as Hup.
    unfold spec_refill_amount in Hup. split; [exact Hup |].
    intros Hlt.
    destruct (newTokens_lower tb now Hi HR Hlt Hx) as (H0 & Hlow & Hexact).
    unfold spec_refill_amount in Hlow, Hexact.
    split; [exact H0 |]. split; [exact Hlow |].
    intros Hrem. specialize (Hexact Hrem). lia.
  - intros Hpos. apply Z.ltb_lt in Hpos.
    unfold refill. rewrite Hpos. cbn [Tokens LastCheck set_Tokens set_LastCheck].
    split; [reflexivity |]. split; [| reflexivity].
    intros Hfit. unfold GoInt.add. rewrite wrap_small by exact Hfit. reflexivity.
  - intros Hneg. unfold refill.
    destruct (Z.ltb_spec 0 (newTokens tb now)); [lia | reflexivity].
  - split; [intros -> Hi; apply refill_no_elapsed, Hi |].
    split; [reflexivity |].
    unfold Allow.
    rewrite takeToken_answer, takeToken_Tokens, takeToken_LastCheck.
    repeat split.
    + apply (Allow_Cap tb now).
    + apply (Allow_Rate tb now).
    + apply (Allow_interval tb now).
Qed.

(** At concrete calls: 0.57 seconds at rate 100, a whole number of tokens,
    where the amount is 56 or 57; and 2.5 seconds and a nanosecond after a
    bucket of rate 3 was emptied, where it is the 7 whole tokens of 7.5. *)
Lemma C3_refill_step_witness :
  56 <= newTokens (mkTokenBucket 100 100 (1 * Time.Second) 0 0) 570000000
     <= 57
  /\ newTokens (mkTokenBucket 10 3 (1 * Time.Second) 0 0) 2500000001 = 7
  /\ Tokens (refill (mkTokenBucket 10 3 (1 * Time.Second) 0 0) 2500000001)
     = Z.min (0 + 7) 10
  /\ LastCheck (refill (mkTokenBucket 10 3 (1 * Time.Second) 0 0) 2500000001)
     = 2500000001.
Proof.
  pose proof (C3_refill_step (mkTokenBucket 100 100 (1 * Time.Second) 0 0)
                570000000) as (Hacc1 & _).
  pose proof (C3_refill_step (mkTokenBucket 10 3 (1 * Time.Second) 0 0)
                2500000001) as (Hacc2 & Hpos & _).
  cbv zeta in Hacc1, Hacc2, Hpos.
  destruct Hacc1 as (Hup1 & Hlow1);
    [reflexivity | cbn; lia | cbn; lia | cbn; unfold Time.Second; lia |].
  destruct Hlow1 as (_ & Hlow1 & _); [cbn; lia |].
  destruct Hacc2 as (_ & Hlow2);
    [reflexivity | cbn; lia | cbn; lia | cbn; unfold Time.Second; lia |].
  destruct Hlow2 as (_ & _ & Hexact2); [cbn; lia |].
  assert (H7 : newTokens (mkTokenBucket 10 3 (1 * Time.Second) 0 0) 2500000001
               = 7).
  { etransitivity; [apply Hexact2; vm_compute; discriminate |].
    vm_compute. reflexivity. }
  split; [split; [exact Hlow1 | exact Hup1] |].
  split; [exact H7 |].
  destruct Hpos as (_ & Hsum & Hlast); [rewrite H7; lia |].
  split; [| exact Hlast].
  rewrite Hsum by (rewrite H7; vm_compute; split; discriminate).
  rewrite H7. reflexivity.
Defined.

(** C3 as stated fails on the amount: 0.57 seconds at rate 100 are 57 tokens,
    the [float64] product is just below 57 and the code adds 56. *)
Lemma C3_counterexample :
  spec_refill_amount (mkTokenBucket 100 100 Time.Second 0 0) 570000000 = 57
  /\ newTokens (mkTokenBucket 100 100 Time.Second 0 0) 570000000 = 56
  /\ Tokens (refill (mkTokenBucket 100 100 Time.Second 0 0) 570000000) = 56
  /\ Float64.mul (Time.Seconds 570000000) (Float64.of_int 100)
     = S754_finite false 8022036836253695 (-47).
Proof. repeat split; vm_compute; reflexivity. Qed.

(** With an interval of one second and a positive rate, and when less than
    250000 tokens' worth of time has elapsed since the last refill, the
    refill amount that [Allow] computes in [float64] is never negative and
    is the whole number of tokens in [elapsed * rate / 1e9], except that it
    can be one less when that quotient is itself a whole number (as for
    0.57 s at rate 100, where it is 56). It is never more. *)
Theorem refill_amount_accuracy (tb : TokenBucket) (now : Time.Time) :
  interval tb = 1 * Time.Second ->
  0 < Rate tb ->
  LastCheck tb < now ->
  (now - LastCheck tb) * Rate tb < 250000 * Time.Second ->
  0 <= newTokens tb now
  /\ spec_refill_amount tb now - 1 <= newTokens tb now
                                   <= spec_refill_amount tb now
  /\ (((now - LastCheck tb) * Rate tb) mod 1000000000 <> 0 ->
      newTokens tb now = spec_refill_amount tb now).
Proof.
  intros Hi HR Hlt Hx.
  destruct (newTokens_lower tb now Hi HR Hlt Hx) as (H0 & Hlow & Hexact).
  pose proof (newTokens_upper tb now Hi HR ltac:(lia) Hx) as Hup.
  split; [exact H0 |]. split; [split; assumption |].
  intros Hr. specialize (Hexact Hr). lia.
Qed.

Lemma refill_amount_accuracy_witness :
  55 <= newTokens (mkTokenBucket 100 100 (1 * Time.Second) 0 0) 560000001
     <= 56
  /\ newTokens (NewTokenBucket 3 1 0) 2500000000 = 2.
Proof.
  split.
  - destruct (refill_amount_accuracy
                (mkTokenBucket 100 100 (1 * Time.Second) 0 0) 560000001)
      as (_ & H & _).
    + reflexivity.
    + cbn. lia.
    + cbn. lia.
    + cbn. unfold Time.Second. lia.
    + exact H.
  - destruct (refill_amount_accuracy (NewTokenBucket 3 1 0) 2500000000)
      as (_ & _ & H).
    + reflexivity.
    + cbn. lia.
    + cbn. lia.
    + cbn. unfold Time.Second. lia.
    + apply H. vm_compute. discriminate.
Defined.

(** The refill step waits for a whole token: while [elapsed * rate] is below
    [1e9] the step changes nothing, so [LastCheck] stays and the elapsed
    time keeps adding up; once it is above [1e9] the step adds at least one
    token's worth and moves [LastCheck] to the current time. *)
Theorem refill_threshold (tb : TokenBucket) (now : Time.Time) :
  interval tb = 1 * Time.Second ->
  0 < Rate tb ->
  LastCheck tb <= now ->
  (now - LastCheck tb) * Rate tb < 250000 * Time.Second ->
  ((now - LastCheck tb) * Rate tb < Time.Second -> refill tb now = tb)
  /\ (Time.Second < (now - LastCheck tb) * Rate tb ->
      1 <= newTokens tb now /\ LastCheck (refill tb now) = now).
Proof.
  intros Hi HR Hle Hx. split.
  - intros Hsmall.
    pose proof (newTokens_upper tb now Hi HR Hle Hx) as Hup.
    unfold spec_refill_amount in Hup.
    rewrite Z.div_small in Hup by (unfold Time.Second in Hsmall; nia).
    unfold refill. destruct (Z.ltb_spec 0 (newTokens tb now)); [lia |].
    reflexivity.
  - intros Hbig.
    assert (Hlt : LastCheck tb < now) by (unfold Time.Second in Hbig; nia).
    destruct (newTokens_lower tb now Hi HR Hlt Hx) as (_ & Hlow & Hexact).
    unfold spec_refill_amount in *. unfold Time.Second in Hbig.
    set (x := (now - LastCheck tb) * Rate tb) in *.
    pose proof (Z.div_mod x 1000000000 ltac:(lia)) as Hdm.
    pose proof (Z.mod_pos_bound x 1000000000 ltac:(lia)) as Hr.
    assert (Hpos : 1 <= newTokens tb now).
    { destruct (Z.eq_dec (x mod 1000000000) 0) as [Hr0 | Hr0].
      - assert (2 <= x / 1000000000) by lia. lia.
      - specialize (Hexact Hr0).
        assert (1 <= x / 1000000000) by lia. lia. }
    split; [exact Hpos |].
    unfold refill. destruct (Z.ltb_spec 0 (newTokens tb now)); [| lia].
    reflexivity.
Qed.

Lemma refill_threshold_witness :
  refill (NewTokenBucket 3 1 0) 999999999 = NewTokenBucket 3 1 0
  /\ LastCheck (refill (NewTokenBucket 3 1 0) 1000000001) = 1000000001.
Proof.
  split.
  - refine (proj1 (refill_threshold (NewTokenBucket 3 1 0) 999999999 _ _ _ _) _).
    + reflexivity.
    + cbn. lia.
    + cbn. lia.
    + cbn. unfold Time.Second. lia.
    + cbn. unfold Time.Second. lia.
  - refine (proj2 (proj2 (refill_threshold (NewTokenBucket 3 1 0) 1000000001
                            _ _ _ _) _)).
    + reflexivity.
    + cbn. lia.
    + cbn. lia.
    + cbn. unfold Time.Second. lia.
    + cbn. unfold Time.Second. lia.
Defined.

(** ** The rate the bucket enforces *)

Lemma non_decreasing_head t now rest :
  non_decreasing t (now :: rest) = true ->
  t <= now /\ non_decreasing now rest = true.
Proof.
  cbn [non_decreasing]. intros [H1 H2]%andb_prop.
  apply Z.leb_le in H1. split; assumption.
Qed.

Lemma non_decreasing_weaken t t' times :
  t' <= t -> non_decreasing t times = true -> non_decreasing t' times = true.
Proof.
  destruct times as [| now rest]; [reflexivity |]. intros Hle.
  cbn [non_decreasing]. intros [H1 H2]%andb_prop.
  apply Z.leb_le in H1. apply andb_true_intro. split; [| exact H2].
  apply Z.leb_le. lia.
Qed.

Lemma Allow_LastCheck tb now :
  LastCheck (snd (Allow tb now))
  = if 0 <? newTokens tb now then now else LastCheck tb.
Proof.
  unfold Allow. rewrite takeToken_LastCheck. unfold refill.
  destruct (0 <? newTokens tb now); reflexivity.
Qed.

(** One call, in token-nanoseconds: the token a call takes and the tokens it
    leaves, with the time not yet turned into tokens, are covered by what
    the bucket held and the time elapsed. *)
Lemma Allow_potential (tb : TokenBucket) (now : Time.Time) :
  interval tb = 1 * Time.Second ->
  0 < Rate tb ->
  tokens_in_bounds tb ->
  Cap tb + 250000 <= GoInt.max_int ->
  LastCheck tb <= now ->
  (now - LastCheck tb) * Rate tb < 250000 * Time.Second ->
  let tb1 := snd (Allow tb now) in
  LastCheck tb <= LastCheck tb1 <= now
  /\ tokens_in_bounds tb1
  /\ ((if fst (Allow tb now) then 1 else 0) + Tokens tb1) * 1000000000
     + (now - LastCheck tb1) * Rate tb
     <= Tokens tb * 1000000000 + (now - LastCheck tb) * Rate tb.
Proof.
  intros Hi HR Hb Hcap Hle Hx tb1. subst tb1.
  pose proof (newTokens_upper tb now Hi HR Hle Hx) as Hup.
  unfold spec_refill_amount in Hup. unfold Time.Second in Hx.
  set (x := (now - LastCheck tb) * Rate tb) in *.
  assert (Hx0 : 0 <= x) by (subst x; nia).
  pose proof (Z.mul_div_le x 1000000000 ltac:(lia)) as Hfloor.
  assert (Hq : x / 1000000000 < 250000)
    by (apply Z.div_lt_upper_bound; lia).
  assert (Hfit : 0 < newTokens tb now ->
                 Tokens tb + newTokens tb now <= GoInt.max_int)
    by (destruct Hb; lia).
  pose proof (Allow_accounting tb now Hb ltac:(lia) Hfit) as Hacc.
  rewrite Allow_LastCheck.
  split; [| split].
  - destruct (0 <? newTokens tb now); lia.
  - apply Allow_in_bounds; [lia | exact Hb | exact Hfit].
  - destruct (Z.ltb_spec 0 (newTokens tb now)) as [Hpos | Hneg].
    + rewrite Z.sub_diag, Z.mul_0_l. lia.
    + fold x. lia.
Qed.

(** A run of calls, in token-nanoseconds up to a time [t_end] that no call
    is later than. *)
Lemma Allow_seq_potential (times : list Time.Time) (t_end : Time.Time) :
  forall tb,
  interval tb = 1 * Time.Second ->
  0 < Rate tb ->
  tokens_in_bounds tb ->
  Cap tb + 250000 <= GoInt.max_int ->
  non_decreasing (LastCheck tb) times = true ->
  Forall (fun t => t <= t_end) times ->
  LastCheck tb <= t_end ->
  (t_end - LastCheck tb) * Rate tb < 250000 * Time.Second ->
  let final := snd (Allow_seq tb times) in
  LastCheck final <= t_end
  /\ 0 <= Tokens final
  /\ (allowed (fst (Allow_seq tb times)) + Tokens final) * 1000000000
     + (t_end - LastCheck final) * Rate tb
     <= Tokens tb * 1000000000 + (t_end - LastCheck tb) * Rate tb.
Proof.
  induction times as [| now rest IH];
    intros tb Hi HR Hb Hcap Hnd Hall Hend Hx final; subst final.
  - cbn [Allow_seq fst snd]. unfold allowed. rewrite filter_nil.
    cbn [length]. destruct Hb. lia.
  - apply non_decreasing_head in Hnd as [Hle Hnd].
    apply Forall_cons in Hall as [Hnow Hall].
    assert (Hx1 : (now - LastCheck tb) * Rate tb < 250000 * Time.Second)
      by nia.
    destruct (Allow_potential tb now Hi HR Hb Hcap Hle Hx1)
      as (Hlc & Hb1 & Hstep).
    set (tb1 := snd (Allow tb now)) in *.
    assert (HR1 : Rate tb1 = Rate tb) by apply Allow_Rate.
    destruct (IH tb1) as (Hlcf & Htf & Hrest).
    + subst tb1. rewrite Allow_interval. exact Hi.
    + lia.
    + exact Hb1.
    + subst tb1. rewrite Allow_Cap. exact Hcap.
    + apply (non_decreasing_weaken now); [lia | exact Hnd].
    + exact Hall.
    + lia.
    + rewrite HR1. nia.
    + rewrite Allow_seq_cons. cbn [fst snd]. fold tb1.
      rewrite allowed_cons. rewrite HR1 in Hrest.
      split; [exact Hlcf |]. split; [exact Htf |].
      set (A := allowed (fst (Allow_seq tb1 rest))) in *.
      set (final := snd (Allow_seq tb1 rest)) in *.
      set (ok := if fst (Allow tb now) then 1 else 0) in *.
      nia.
Qed.

(** The guarantee of the limiter. With an interval of one second and a
    positive rate, in any run of calls at clock readings that never go back,
    the calls allowed up to a time [t_end] are at most the tokens the bucket
    held at the start plus [rate] tokens for every second from the last
    refill to [t_end]: the burst and the rate, whatever the [float64]
    roundings do. It holds while fewer than 250000 tokens' worth of time is
    covered. *)
Theorem allowed_within_rate (tb : TokenBucket) (times : list Time.Time)
  (t_end : Time.Time) :
  interval tb = 1 * Time.Second ->
  0 < Rate tb ->
  tokens_in_bounds tb ->
  Cap tb + 250000 <= GoInt.max_int ->
  non_decreasing (LastCheck tb) times = true ->
  Forall (fun t => t <= t_end) times ->
  LastCheck tb <= t_end ->
  (t_end - LastCheck tb) * Rate tb < 250000 * Time.Second ->
  allowed (fst (Allow_seq tb times))
  <= Tokens tb + (t_end - LastCheck tb) * Rate tb / 1000000000
  /\ allowed (fst (Allow_seq tb times))
     <= Cap tb + (t_end - LastCheck tb) * Rate tb / 1000000000.
Proof.
  intros Hi HR Hb Hcap Hnd Hall Hend Hx.
  destruct (Allow_seq_potential times t_end tb Hi HR Hb Hcap Hnd Hall Hend Hx)
    as (Hlc & Htf & Hpot).
  set (A := allowed (fst (Allow_seq tb times))) in *.
  set (final := snd (Allow_seq tb times)) in *.
  assert (Hleft : 0 <= (t_end - LastCheck final) * Rate tb) by nia.
  assert (H : A - Tokens tb
              <= (t_end - LastCheck tb) * Rate tb / 1000000000).
  { apply Z.div_le_lower_bound; [lia |]. lia. }
  destruct Hb. lia.
Qed.

Lemma allowed_within_rate_witness :
  allowed (fst (Allow_seq (NewTokenBucket 3 1 0)
                  [0; 0; 0; 0; 2500000000; 2600000000; 2700000000]))
  <= 3 + 2.
Proof.
  refine (proj1 (allowed_within_rate (NewTokenBucket 3 1 0)
                   [0; 0; 0; 0; 2500000000; 2600000000; 2700000000]
                   2700000000 _ _ _ _ _ _ _ _)).
  - reflexivity.
  - cbn. lia.
  - unfold tokens_in_bounds. cbn. lia.
  - cbn. unfold GoInt.max_int. lia.
  - reflexivity.
  - repeat (apply Forall_cons_2; [lia |]). apply Forall_nil_2.
  - cbn. lia.
  - cbn. unfold Time.Second. lia.
Defined.

Lemma newTokens_positive (tb : TokenBucket) (now : Time.Time) :
  interval tb = 1 * Time.Second ->
  0 < Rate tb ->
  Time.Second < (now - LastCheck tb) * Rate tb < 250000 * Time.Second ->
  1 <= newTokens tb now < 250000.
Proof.
  intros Hi HR [Hbig Hx].
  assert (Hlt : LastCheck tb < now) by (unfold Time.Second in Hbig; nia).
  destruct (newTokens_lower tb now Hi HR Hlt Hx) as (_ & Hlow & Hexact).
  pose proof (newTokens_upper tb now Hi HR ltac:(lia) Hx) as Hup.
  unfold spec_refill_amount in *. unfold Time.Second in *.
  set (x := (now - LastCheck tb) * Rate tb) in *.
  pose proof (Z.div_mod x 1000000000 ltac:(lia)) as Hdm.
  pose proof (Z.mod_pos_bound x 1000000000 ltac:(lia)) as Hr.
  assert (Hq : x / 1000000000 < 250000)
    by (apply Z.div_lt_upper_bound; lia).
  split; [| lia].
  destruct (Z.eq_dec (x mod 1000000000) 0) as [Hr0 | Hr0].
  - assert (2 <= x / 1000000000) by lia. lia.
  - specialize (Hexact Hr0). assert (1 <= x / 1000000000) by lia. lia.
Qed.

(** A caller that has waited for more than one token is let through: with
    the one-second interval, a positive rate and a capacity of at least one,
    a call made when [elapsed * rate] is above [1e9] is allowed, whatever
    the bucket held, and it moves [LastCheck] to the time of the call. *)
Theorem Allow_after_wait (tb : TokenBucket) (now : Time.Time) :
  interval tb = 1 * Time.Second ->
  0 < Rate tb ->
  tokens_in_bounds tb ->
  0 < Cap tb ->
  Cap tb + 250000 <= GoInt.max_int ->
  Time.Second < (now - LastCheck tb) * Rate tb < 250000 * Time.Second ->
  fst (Allow tb now) = true
  /\ LastCheck (snd (Allow tb now)) = now
  /\ 0 <= Tokens (snd (Allow tb now)) < Cap tb.
Proof.
  intros Hi HR [Hlo Hhi] Hcap Hmax Hx.
  pose proof (newTokens_positive tb now Hi HR Hx) as [Hpos Hlt].
  assert (Hnew : (0 <? newTokens tb now) = true) by (apply Z.ltb_lt; lia).
  rewrite Allow_LastCheck, Hnew.
  unfold Allow, refill. rewrite Hnew. unfold takeToken.
  cbn [Tokens set_Tokens set_LastCheck].
  unfold GoInt.add. rewrite wrap_small
    by (unfold GoInt.in_range, GoInt.min_int, GoInt.max_int in *; lia).
  destruct (Z.ltb_spec 0 (Z.min (Tokens tb + newTokens tb now) (Cap tb)))
    as [Hsome | Hnone]; [| lia].
  cbn [fst snd Tokens set_Tokens].
  unfold GoInt.sub. rewrite wrap_small
    by (unfold GoInt.in_range, GoInt.min_int, GoInt.max_int in *; lia).
  split; [reflexivity |]. split; [reflexivity | lia].
Qed.

Lemma Allow_after_wait_witness :
  fst (Allow (mkTokenBucket 3 1 (1 * Time.Second) 0 0) 1000000001) = true.
Proof.
  refine (proj1 (Allow_after_wait (mkTokenBucket 3 1 (1 * Time.Second) 0 0)
                   1000000001 _ _ _ _ _ _)).
  - reflexivity.
  - cbn. lia.
  - unfold tokens_in_bounds. cbn. lia.
  - cbn. lia.
  - cbn. unfold GoInt.max_int. lia.
  - cbn. unfold Time.Second. lia.
Defined.

(** A refill forgets the time it did not turn into tokens. After a call at
    [t1] that added tokens, [LastCheck] is [t1], so a call at [t2] less than
    one token later adds nothing, however much of a token was left over at
    [t1]: at rate 1, calls at 1.9 s and 2.8 s after the last refill add one
    token in all, not two. *)
Theorem refill_forgets_remainder (tb : TokenBucket) (t1 t2 : Time.Time) :
  interval tb = 1 * Time.Second ->
  0 < Rate tb ->
  0 < newTokens tb t1 ->
  t1 <= t2 ->
  (t2 - t1) * Rate tb < Time.Second ->
  LastCheck (snd (Allow tb t1)) = t1
  /\ refill (snd (Allow tb t1)) t2 = snd (Allow tb t1)
  /\ Allow (snd (Allow tb t1)) t2 = takeToken (snd (Allow tb t1)).
Proof.
  intros Hi HR Hpos Hle Hx.
  assert (Hnew : (0 <? newTokens tb t1) = true) by (apply Z.ltb_lt; lia).
  assert (Hlc : LastCheck (snd (Allow tb t1)) = t1)
    by (rewrite Allow_LastCheck, Hnew; reflexivity).
  set (tb1 := snd (Allow tb t1)) in *.
  assert (Hi1 : interval tb1 = 1 * Time.Second)
    by (subst tb1; rewrite Allow_interval; exact Hi).
  assert (HR1 : Rate tb1 = Rate tb) by apply Allow_Rate.
  assert (Hsame : refill tb1 t2 = tb1).
  { pose proof (newTokens_upper tb1 t2 Hi1) as Hup.
    rewrite HR1, Hlc in Hup.
    specialize (Hup HR Hle ltac:(unfold Time.Second in *; lia)).
    unfold spec_refill_amount in Hup. rewrite HR1, Hlc in Hup.
    rewrite Z.div_small in Hup by (unfold Time.Second in Hx; nia).
    unfold refill. destruct (Z.ltb_spec 0 (newTokens tb1 t2)); [lia |].
    reflexivity. }
  split; [exact Hlc |]. split; [exact Hsame |].
  unfold Allow at 1. rewrite Hsame. reflexivity.
Qed.

Lemma refill_forgets_remainder_witness :
  Tokens (refill (snd (Allow (mkTokenBucket 3 1 (1 * Time.Second) 0 0)
                         1900000000)) 2800000000) = 0.
Proof.
  destruct (refill_forgets_remainder
              (mkTokenBucket 3 1 (1 * Time.Second) 0 0)
              1900000000 2800000000) as (_ & -> & _).
  - reflexivity.
  - cbn. lia.
  - vm_compute. reflexivity.
  - lia.
  - cbn. unfold Time.Second. lia.
  - vm_compute. reflexivity.
Defined.
